(** * AVL tree example ([debugger/examples/avl/avl.c])

    A shallow embedding of the pointer program: the nodes live in a heap
    (a finite map from addresses to node records), the [tree] structure is
    a field of the program state, and every C function becomes a function
    on states in an error monad.  Assertions are kept as checks that end
    the run, null or dangling dereferences and signed overflow are faults. *)

From stdpp Require Import base option list sorting gmap.

From Stdlib Require Import ZArith Lia.

Local Open Scope Z_scope.

(** ** Data model *)

(** An address of a heap block; a pointer is an address or [NULL]. *)
Definition loc := positive.

Abbreviation ptr := (option loc).

Abbreviation NULL := (@None loc).

(** [struct tree_node]. *)
Record tree_node := mk_node {
  left : ptr;
  right : ptr;
  parent : ptr;
  imbalance : Z;
  key : Z
}.

(** [struct tree]. *)
Record tree := mk_tree { root : ptr }.

(** The program state: the heap of nodes, the tree object that every
    function receives as [tree* t], and the log of the blocks handed to
    [free], oldest first. *)
Record state := mk_state {
  heap : gmap loc tree_node;
  the_tree : tree;
  freed : list loc
}.

(** A [tree_node**]: the root field of the tree, or the left or right field
    of a node. *)
Inductive slot :=
| RootSlot
| LeftSlot (a : loc)
| RightSlot (a : loc).

Arguments LeftSlot a%_positive.

Arguments RightSlot a%_positive.

Global Instance slot_eq_dec : EqDecision slot.
Proof. solve_decision. Defined.

Global Instance tree_node_eq_dec : EqDecision tree_node.
Proof. solve_decision. Defined.

(** ** Outcomes *)

Inductive result (A : Type) :=
| Ok (x : A)
| AssertFail        (* an [assert] did not hold *)
| Fault             (* undefined behaviour: bad dereference, int overflow *)
| OutOfFuel.        (* the bound on loop iterations and calls was reached *)

Arguments Ok {A} x.

Arguments AssertFail {A}.

Arguments Fault {A}.

Arguments OutOfFuel {A}.

Global Instance result_ret : MRet result := fun A x => Ok x.

Global Instance result_bind : MBind result := fun A B f m =>
  match m with
  | Ok x => f x
  | AssertFail => AssertFail
  | Fault => Fault
  | OutOfFuel => OutOfFuel
  end.

Definition c_assert (b : bool) : result unit :=
  if b then Ok tt else AssertFail.

(** ** The type [int] *)

Definition INT_MIN : Z := - 2 ^ 31.

Definition INT_MAX : Z := 2 ^ 31 - 1.

Definition in_int (z : Z) : bool := (INT_MIN <=? z) && (z <=? INT_MAX).

(** The value of an [int] expression: overflow is undefined. *)
Definition int_val (z : Z) : result Z :=
  if in_int z then Ok z else Fault.

(** ** Memory access *)

Definition load (st : state) (p : ptr) : result tree_node :=
  match p with
  | None => Fault
  | Some a => match heap st !! a with Some n => Ok n | None => Fault end
  end.

Definition store (st : state) (a : loc) (n : tree_node) : state :=
  mk_state (<[a := n]> (heap st)) (the_tree st) (freed st).

Arguments store st a%_positive n.

(** [p->field = v], written as a change of the node that [p] points to. *)
Definition update (st : state) (p : ptr) (f : tree_node → tree_node)
  : result state :=
  n ← load st p;
  match p with
  | Some a => Ok (store st a (f n))
  | None => Fault
  end.

Definition with_left (v : ptr) (n : tree_node) : tree_node :=
  mk_node v (right n) (parent n) (imbalance n) (key n).

Definition with_right (v : ptr) (n : tree_node) : tree_node :=
  mk_node (left n) v (parent n) (imbalance n) (key n).

Definition with_parent (v : ptr) (n : tree_node) : tree_node :=
  mk_node (left n) (right n) v (imbalance n) (key n).

Definition with_imbalance (v : Z) (n : tree_node) : tree_node :=
  mk_node (left n) (right n) (parent n) v (key n).

Definition with_key (v : Z) (n : tree_node) : tree_node :=
  mk_node (left n) (right n) (parent n) (imbalance n) v.

Definition set_root (st : state) (v : ptr) : state :=
  mk_state (heap st) (mk_tree v) (freed st).

(** [*s] and [*s = v] for a [tree_node** s]. *)
Definition read_slot (st : state) (s : slot) : result ptr :=
  match s with
  | RootSlot => Ok (root (the_tree st))
  | LeftSlot a => n ← load st (Some a); Ok (left n)
  | RightSlot a => n ← load st (Some a); Ok (right n)
  end.

Definition write_slot (st : state) (s : slot) (v : ptr) : result state :=
  match s with
  | RootSlot => Ok (set_root st v)
  | LeftSlot a => update st (Some a) (with_left v)
  | RightSlot a => update st (Some a) (with_right v)
  end.

(** [free(p)]: the block leaves the heap and is logged. *)
Definition free (st : state) (p : ptr) : result state :=
  match p with
  | None => Ok st
  | Some a =>
      match heap st !! a with
      | Some _ => Ok (mk_state (delete a (heap st)) (the_tree st) (freed st ++ [a]))
      | None => Fault
      end
  end.

(** ** The macros *)

(** [TREE_PARENTPTR(ptree, pnode)]: the slot that holds [pnode]. *)
Definition TREE_PARENTPTR (st : state) (pnode : ptr) : result slot :=
  n ← load st pnode;
  match parent n with
  | Some p =>
      pn ← load st (Some p);
      Ok (if decide (pnode = left pn) then LeftSlot p else RightSlot p)
  | None => Ok RootSlot
  end.

(** [TREE_SIDEOF(pnode)]: [-1] for a left child, [1] for a right child,
    [0] for the root. *)
Definition TREE_SIDEOF (st : state) (pnode : ptr) : result Z :=
  n ← load st pnode;
  match parent n with
  | Some p =>
      pn ← load st (Some p);
      Ok (if decide (pnode = left pn) then -1 else 1)
  | None => Ok 0
  end.

(** ** The functions of [avl.c] *)

Definition tree_init : tree := mk_tree NULL.

Definition in_unit (z : Z) : bool := (-1 <=? z) && (z <=? 1).

Definition tree_left_rotate (node : slot) (st : state) : result state :=
  a ← read_slot st node;
  an ← load st a;
  let b := right an in
  bn ← load st b;
  let c := left bn in
  let p := parent an in
  c_assert (0 <? imbalance an);;
  st ← write_slot st node b;
  st ← update st b (with_parent p);
  st ← update st a (with_parent b);
  st ← update st b (with_left a);
  st ← (if c is Some _ then update st c (with_parent a) else Ok st);
  st ← update st a (with_right c);
  an ← load st a;
  bn ← load st b;
  d ← int_val (-1 - (if 0 <? imbalance bn then imbalance bn else 0));
  i ← int_val (imbalance an + d);
  st ← update st a (with_imbalance i);
  bn ← load st b;
  an ← load st a;
  d ← int_val (-1 + (if 0 <? imbalance an then imbalance an else 0));
  i ← int_val (imbalance bn + d);
  st ← update st b (with_imbalance i);
  an ← load st a;
  c_assert (in_unit (imbalance an));;
  bn ← load st b;
  c_assert (in_unit (imbalance bn));;
  Ok st.

Definition tree_right_rotate (node : slot) (st : state) : result state :=
  a ← read_slot st node;
  an ← load st a;
  c_assert (imbalance an <? 0);;
  let b := left an in
  bn ← load st b;
  let c := right bn in
  let p := parent an in
  st ← write_slot st node b;
  st ← update st b (with_parent p);
  st ← update st a (with_parent b);
  st ← update st b (with_right a);
  st ← (if c is Some _ then update st c (with_parent a) else Ok st);
  st ← update st a (with_left c);
  an ← load st a;
  bn ← load st b;
  d ← int_val (1 - (if imbalance bn <? 0 then imbalance bn else 0));
  i ← int_val (imbalance an + d);
  st ← update st a (with_imbalance i);
  bn ← load st b;
  an ← load st a;
  d ← int_val (1 + (if imbalance an <? 0 then imbalance an else 0));
  i ← int_val (imbalance bn + d);
  st ← update st b (with_imbalance i);
  an ← load st a;
  c_assert (in_unit (imbalance an));;
  bn ← load st b;
  c_assert (in_unit (imbalance bn));;
  Ok st.

Definition tree_rotate (node : slot) (st : state) : result state :=
  a ← read_slot st node;
  an ← load st a;
  let imb := imbalance an in
  match a with
  | None => Fault
  | Some a' =>
      if imb =? 2 then
        rn ← load st (right an);
        st ← (if imbalance rn <? 0
              then tree_right_rotate (RightSlot a') st else Ok st);
        tree_left_rotate node st
      else if imb =? -2 then
        ln ← load st (left an);
        st ← (if 0 <? imbalance ln
              then tree_left_rotate (LeftSlot a') st else Ok st);
        tree_right_rotate node st
      else Ok st
  end.

Fixpoint tree_rebalance (fuel : nat) (st : state) (node : ptr) (bf : Z)
  : result state :=
  match fuel with
  | O => OutOfFuel
  | S fuel =>
      n ← load st node;
      c_assert ((imbalance n =? 1) || (imbalance n =? 0) || (imbalance n =? -1));;
      c_assert ((bf =? 1) || (bf =? -1));;
      i ← int_val (imbalance n + bf);
      st ← update st node (with_imbalance i);
      n ← load st node;
      c_assert ((imbalance n =? 0) || (imbalance n =? bf)
                || (imbalance n =? 2 * bf));;
      st ← match imbalance n * bf with
           | 0 => Ok st
           | 1 =>
               match parent n with
               | Some _ =>
                   side ← TREE_SIDEOF st node;
                   tree_rebalance fuel st (parent n) side
               | None => Ok st
               end
           | 2 =>
               s ← TREE_PARENTPTR st node;
               tree_rotate s st
           | _ => Ok st
           end;
      n ← load st node;
      c_assert ((imbalance n =? 1) || (imbalance n =? 0) || (imbalance n =? -1));;
      Ok st
  end.

(** A call of [malloc] is given by its outcome [m]: [NULL], or the address
    of a block that was not allocated before. *)
Definition init_node (p : ptr) : tree_node := mk_node NULL NULL p 0 0.

(** The first half of [tree_insert_under]: the block is initialised and
    linked below [parent]. *)
Definition tree_attach (st : state) (parent : ptr) (right : bool)
  (node : loc) : result state :=
  let st := store st node (init_node parent) in
  if right then update st parent (with_right (Some node))
  else update st parent (with_left (Some node)).

Definition tree_insert_under (fuel : nat) (m : ptr) (st : state)
  (parent : ptr) (right : bool) : result (state * ptr) :=
  match m with
  | None => Ok (st, NULL)
  | Some node =>
      st ← tree_attach st parent right node;
      st ← tree_rebalance fuel st parent (if right then 1 else -1);
      Ok (st, Some node)
  end.

Definition tree_create_root (m : ptr) (st : state) : result (state * ptr) :=
  let st := set_root st m in
  match root (the_tree st) with
  | None => Ok (st, NULL)
  | Some a =>
      let st := store st a (init_node NULL) in
      Ok (st, root (the_tree st))
  end.

(** The loop of [tree_put]: [None] when the key is found, otherwise the
    final values of [dest] and [parent]. *)
Fixpoint tree_put_loop (fuel : nat) (st : state) (key0 : Z) (dest : slot)
  (parent : ptr) : result (option (slot * ptr)) :=
  match fuel with
  | O => OutOfFuel
  | S fuel =>
      d ← read_slot st dest;
      match d with
      | None => Ok (Some (dest, parent))
      | Some p =>
          pn ← load st (Some p);
          if key pn <? key0 then tree_put_loop fuel st key0 (RightSlot p) (Some p)
          else if key0 <? key pn then tree_put_loop fuel st key0 (LeftSlot p) (Some p)
          else Ok None
      end
  end.

Definition tree_put (fuel : nat) (m : ptr) (st : state) (key0 : Z)
  : result state :=
  r ← tree_put_loop fuel st key0 RootSlot NULL;
  match r with
  | None => Ok st
  | Some (dest, parent) =>
      '(st, newNode) ← match parent with
                       | None => tree_create_root m st
                       | Some p =>
                           tree_insert_under fuel m st parent
                             (bool_decide (dest = RightSlot p))
                       end;
      match newNode with
      | None => Ok st
      | Some _ => update st newNode (with_key key0)
      end
  end.

Fixpoint tree_delete_recursive (fuel : nat) (st : state) (root0 : ptr)
  : result state :=
  match fuel with
  | O => OutOfFuel
  | S fuel =>
      n ← load st root0;
      st ← (if left n is Some _ then tree_delete_recursive fuel st (left n)
            else Ok st);
      n ← load st root0;
      st ← (if right n is Some _ then tree_delete_recursive fuel st (right n)
            else Ok st);
      free st root0
  end.

Definition tree_delete (fuel : nat) (st : state) : result state :=
  match root (the_tree st) with
  | Some _ => tree_delete_recursive fuel st (root (the_tree st))
  | None => Ok st
  end.

(** ** The run of [main] *)

Definition empty_state : state := mk_state ∅ tree_init [].

(** Successive calls of [tree_put]; [ms] gives for each call the outcome of
    the allocation that it makes, if it makes one. *)
Fixpoint put_all (fuel : nat) (ms : list ptr) (ks : list Z) (st : state)
  : result state :=
  match ks, ms with
  | k :: ks, m :: ms => st ← tree_put fuel m st k; put_all fuel ms ks st
  | _, _ => Ok st
  end.

Definition main (fuel : nat) (ms : list ptr) : result state :=
  st ← put_all fuel ms [12; 4; 5; 6; 2; 8; 10; 2; 1] empty_state;
  tree_delete fuel st.

(** ** The tree that a heap holds *)

(** The shape of a tree, each node with its address, its [imbalance] and
    its [key]. *)
Inductive shape :=
| Nil
| Node (l : shape) (a : loc) (b : Z) (k : Z) (r : shape).

Arguments Node l a%_positive b%_Z k%_Z r.

Definition root_of (t : shape) : ptr :=
  match t with
  | Nil => NULL
  | Node _ a _ _ _ => Some a
  end.

(** [rep h par t]: the nodes of [t] are in the heap [h], linked as in [t],
    and the root of [t] has parent pointer [par]. *)
Fixpoint rep (h : gmap loc tree_node) (par : ptr) (t : shape) : Prop :=
  match t with
  | Nil => True
  | Node l a b k r =>
      h !! a = Some (mk_node (root_of l) (root_of r) par b k)
      ∧ rep h (Some a) l ∧ rep h (Some a) r
  end.

Fixpoint inorder (t : shape) : list (loc * Z) :=
  match t with
  | Nil => []
  | Node l a _ k r => inorder l ++ (a, k) :: inorder r
  end.

Fixpoint postorder (t : shape) : list loc :=
  match t with
  | Nil => []
  | Node l a _ _ r => postorder l ++ postorder r ++ [a]
  end.

Definition addrs (t : shape) : list loc := (inorder t).*1.

Definition keys (t : shape) : list Z := (inorder t).*2.

Fixpoint size (t : shape) : nat :=
  match t with
  | Nil => O
  | Node l _ _ _ r => S (size l + size r)
  end.

Fixpoint height (t : shape) : nat :=
  match t with
  | Nil => O
  | Node l _ _ _ r => S (Nat.max (height l) (height r))
  end.

(** The state holds the tree [t]: the root field points to it, its nodes
    are in the heap, and no address occurs twice. *)
Definition holds (st : state) (t : shape) : Prop :=
  rep (heap st) NULL t ∧ root (the_tree st) = root_of t ∧ NoDup (addrs t).

(** Every node's left subtree holds smaller keys only, its right subtree
    larger keys only. *)
Fixpoint bst (t : shape) : Prop :=
  match t with
  | Nil => True
  | Node l _ _ k r =>
      Forall (fun x => x < k) (keys l) ∧ Forall (fun x => k < x) (keys r)
      ∧ bst l ∧ bst r
  end.

(** The balance invariant: every [imbalance] field is the difference of
    the heights measured on the subtrees, and is [-1], [0] or [1]. *)
Fixpoint avl (t : shape) : Prop :=
  match t with
  | Nil => True
  | Node l _ b _ r =>
      b = Z.of_nat (height r) - Z.of_nat (height l)
      ∧ -1 <= b <= 1 ∧ avl l ∧ avl r
  end.

(** ** Paths into a tree *)

(** One step of a path from the root: the node passed, and the subtree
    that was not entered. *)
Inductive frame :=
| InLeft (a : loc) (b : Z) (k : Z) (r : shape)
| InRight (l : shape) (a : loc) (b : Z) (k : Z).

Arguments InLeft a%_positive b%_Z k%_Z r.

Arguments InRight l a%_positive b%_Z k%_Z.

Definition fill (f : frame) (t : shape) : shape :=
  match f with
  | InLeft a b k r => Node t a b k r
  | InRight l a b k => Node l a b k t
  end.

Definition frame_loc (f : frame) : loc :=
  match f with
  | InLeft a _ _ _ => a
  | InRight _ a _ _ => a
  end.

(** The subtree of a frame's node that the path does not enter. *)
Definition sibling (f : frame) : shape :=
  match f with
  | InLeft _ _ _ r => r
  | InRight l _ _ _ => l
  end.

(** A context is the list of frames from the hole up to the root. *)
Fixpoint plug (c : list frame) (t : shape) : shape :=
  match c with
  | [] => t
  | f :: c => plug c (fill f t)
  end.

Definition parent_of (c : list frame) : ptr :=
  match c with
  | [] => NULL
  | f :: _ => Some (frame_loc f)
  end.

Definition slot_of (c : list frame) : slot :=
  match c with
  | [] => RootSlot
  | InLeft a _ _ _ :: _ => LeftSlot a
  | InRight _ a _ _ :: _ => RightSlot a
  end.

(** The node that a slot is a field of. *)
Definition slot_owner (s : slot) : ptr :=
  match s with
  | RootSlot => NULL
  | LeftSlot p => Some p
  | RightSlot p => Some p
  end.

Definition side_of (c : list frame) : Z :=
  match c with
  | [] => 0
  | InLeft _ _ _ _ :: _ => -1
  | InRight _ _ _ _ :: _ => 1
  end.

Definition before_frame (f : frame) : list (loc * Z) :=
  match f with
  | InLeft _ _ _ _ => []
  | InRight l a _ k => inorder l ++ [(a, k)]
  end.

Definition after_frame (f : frame) : list (loc * Z) :=
  match f with
  | InLeft a _ k r => (a, k) :: inorder r
  | InRight _ _ _ _ => []
  end.

Fixpoint before (c : list frame) : list (loc * Z) :=
  match c with
  | [] => []
  | f :: c => before c ++ before_frame f
  end.

Fixpoint after (c : list frame) : list (loc * Z) :=
  match c with
  | [] => []
  | f :: c => after_frame f ++ after c
  end.

(** The record that the node of a frame must hold when the hole is filled
    by the pointer [hole] and the parent pointer is [par]. *)
Definition frame_node (f : frame) (hole par : ptr) : tree_node :=
  match f with
  | InLeft _ b k r => mk_node hole (root_of r) par b k
  | InRight l _ b k => mk_node (root_of l) hole par b k
  end.

(** [rep_ctx h c p]: the nodes of the context [c] are in the heap, and its
    hole is filled by the pointer [p]. *)
Fixpoint rep_ctx (h : gmap loc tree_node) (c : list frame) (p : ptr) : Prop :=
  match c with
  | [] => True
  | f :: c' =>
      (h !! frame_loc f = Some (frame_node f p (parent_of c'))
       ∧ rep h (Some (frame_loc f)) (sibling f))
      ∧ rep_ctx h c' (Some (frame_loc f))
  end.

Definition ctx_addrs (c : list frame) : list loc :=
  (before c).*1 ++ (after c).*1.

(** ** What the calls are checked against *)

Definition left_checks (ia ib : Z) : result unit :=
  d ← int_val (-1 - Z.max ib 0);
  i ← int_val (ia + d);
  d' ← int_val (-1 + Z.max i 0);
  j ← int_val (ib + d');
  c_assert (in_unit i);;
  c_assert (in_unit j).

Definition right_checks (ia ib : Z) : result unit :=
  d ← int_val (1 - Z.min ib 0);
  i ← int_val (ia + d);
  d' ← int_val (1 + Z.min i 0);
  j ← int_val (ib + d');
  c_assert (in_unit i);;
  c_assert (in_unit j).

(** What a rotation leaves in the heap: the two rotated nodes, the subtree
    that changes sides, and the owner of the slot are rewritten, every
    other block is as before. *)
Definition rotated (st st' : state) (s : slot) (a b : loc) (c : ptr)
  (na' nb' : tree_node) : Prop :=
  heap st' !! a = Some na'
  ∧ heap st' !! b = Some nb'
  ∧ (∀ c0, c = Some c0 → heap st' !! c0 = with_parent (Some a) <$> heap st !! c0)
  ∧ (∀ p, slot_owner s = Some p →
          heap st' !! p = (if decide (s = LeftSlot p)
                           then with_left (Some b)
                           else with_right (Some b)) <$> heap st !! p)
  ∧ (∀ x, x ≠ a → x ≠ b → c ≠ Some x → slot_owner s ≠ Some x →
          heap st' !! x = heap st !! x)
  ∧ root (the_tree st') = (if decide (s = RootSlot) then Some b
                          else root (the_tree st))
  ∧ freed st' = freed st.

(** An outcome other than the exhaustion of the fuel. *)
Definition finished {A} (r : result A) : Prop := r ≠ OutOfFuel.

(** [kept c t st r]: the call that gave [r] in the state [st], where the
    subtree [t] sits in the context [c], came to an end, and if it returned
    then the context is as before and the subtree has the same nodes and
    keys in the same order. *)
Definition kept (c : list frame) (t : shape) (st : state) (r : result state)
  : Prop :=
  finished r
  ∧ ∀ st', r = Ok st' →
      ∃ t', holds st' (plug c t') ∧ inorder t' = inorder t
            ∧ freed st' = freed st.

(** The last assertion of [tree_rebalance]. *)
Definition check_node (node : ptr) (st : state) : result state :=
  n ← load st node;
  c_assert ((imbalance n =? 1) || (imbalance n =? 0) || (imbalance n =? -1));;
  Ok st.

(** The path that the loop of [tree_put] follows in the subtree [t] below
    the context [c]; [None] when it meets the key. *)
Fixpoint find_path (key0 : Z) (t : shape) (c : list frame)
  : option (list frame) :=
  match t with
  | Nil => Some c
  | Node l a b k r =>
      if k <? key0 then find_path key0 r (InRight l a b k :: c)
      else if key0 <? k then find_path key0 l (InLeft a b k r :: c)
      else None
  end.

(** The keys left of the hole are smaller than [key0], those right of it
    are larger. *)
Definition brackets (key0 : Z) (c : list frame) : Prop :=
  Forall (λ x, x < key0) (before c).*2 ∧ Forall (λ x, key0 < x) (after c).*2.


(** The recursive call that [tree_delete_recursive] makes for a child. *)
Definition delete_child (fuel : nat) (st : state) (t : shape) : result state :=
  if root_of t is Some _ then tree_delete_recursive fuel st (root_of t)
  else Ok st.

(** The state after the blocks of [t] were released in post-order. *)
Definition released (st : state) (t : shape) (st' : state) : Prop :=
  freed st' = freed st ++ postorder t
  ∧ the_tree st' = the_tree st
  ∧ ∀ x, heap st' !! x = if decide (x ∈ addrs t) then None else heap st !! x.

(** The blocks of [st] are in [st'] with the keys they had. *)
Definition same_keys (st st' : state) : Prop :=
  ∀ x n, heap st !! x = Some n → ∃ n', heap st' !! x = Some n' ∧ key n' = key n.

Definition keeps_keys (st : state) (r : result state) : Prop :=
  ∀ st', r = Ok st' → same_keys st st'.

(** ** Slots and blocks *)

(** The value of [TREE_SIDEOF] for a node held by the slot. *)
Definition slot_side (s : slot) : Z :=
  match s with
  | RootSlot => 0
  | LeftSlot _ => -1
  | RightSlot _ => 1
  end.

(** No block is added and none is released. *)
Definition no_new (st st' : state) : Prop :=
  freed st' = freed st ∧ ∀ x, heap st !! x = None → heap st' !! x = None.

(** The call that gave [r] added no block and released none. *)
Definition adds_none (st : state) (r : result state) : Prop :=
  ∀ st', r = Ok st' → no_new st st'.

(** The heap has no block besides the nodes of [t]. *)
Definition tight (st : state) (t : shape) : Prop :=
  ∀ x, is_Some (heap st !! x) → x ∈ addrs t.

(** ** The functions on shapes *)

(** What the functions do to the tree that the state holds, written on
    shapes: a missing node is a fault, the assertions are those of the
    code. *)

(** The side of the hole: -1 for the left field, 1 for the right field. *)
Definition frame_side (f : frame) : Z :=
  match f with
  | InLeft _ _ _ _ => -1
  | InRight _ _ _ _ => 1
  end.

(** The [imbalance] field of the node of a frame. *)
Definition frame_imb (f : frame) : Z :=
  match f with
  | InLeft _ b _ _ => b
  | InRight _ _ b _ => b
  end.

(** [tree_left_rotate] on the subtree that the slot holds. *)
Definition rot_left (t : shape) : result shape :=
  match t with
  | Node d a ia ka (Node cc b ib kb e) =>
      c_assert (0 <? ia);;
      left_checks ia ib;;
      Ok (Node (Node d a (ia - 1 - Z.max ib 0) ka cc) b
            (ib - 1 + Z.max (ia - 1 - Z.max ib 0) 0) kb e)
  | _ => Fault
  end.

(** [tree_right_rotate] on the subtree that the slot holds. *)
Definition rot_right (t : shape) : result shape :=
  match t with
  | Node (Node e b ib kb cc) a ia ka d =>
      c_assert (ia <? 0);;
      right_checks ia ib;;
      Ok (Node e b (ib + 1 + Z.min (ia + 1 - Z.min ib 0) 0) kb
            (Node cc a (ia + 1 - Z.min ib 0) ka d))
  | _ => Fault
  end.

(** The [imbalance] field of the child that [tree_rotate] looks at. *)
Definition root_imb (t : shape) : result Z :=
  match t with
  | Nil => Fault
  | Node _ _ b _ _ => Ok b
  end.

(** [tree_rotate] on the subtree that the slot holds. *)
Definition rotate_shape (t : shape) : result shape :=
  match t with
  | Nil => Fault
  | Node l a i k r =>
      if i =? 2 then
        ir ← root_imb r;
        r' ← (if ir <? 0 then rot_right r else Ok r);
        rot_left (Node l a i k r')
      else if i =? -2 then
        il ← root_imb l;
        l' ← (if 0 <? il then rot_left l else Ok l);
        rot_right (Node l' a i k r)
      else Ok t
  end.

(** The [imbalance] field of the node at address [a]. *)
Fixpoint imb_at (a : loc) (t : shape) : option Z :=
  match t with
  | Nil => None
  | Node l x b _ r =>
      if decide (x = a) then Some b
      else match imb_at a l with
           | Some i => Some i
           | None => imb_at a r
           end
  end.

(** The last assertion of [tree_rebalance], on the tree that was built. *)
Definition check_shape (a : loc) (t : shape) : result shape :=
  match imb_at a t with
  | Some i => c_assert ((i =? 1) || (i =? 0) || (i =? -1));; Ok t
  | None => Fault
  end.

(** [tree_rebalance] on the node at the root of [t], which sits in the
    context [c]; the result is the whole tree. *)
Fixpoint rebalance_shape (c : list frame) (t : shape) (bf : Z)
  : result shape :=
  match t with
  | Nil => Fault
  | Node l a b k r =>
      c_assert ((b =? 1) || (b =? 0) || (b =? -1));;
      c_assert ((bf =? 1) || (bf =? -1));;
      let b' := b + bf in
      c_assert ((b' =? 0) || (b' =? bf) || (b' =? 2 * bf));;
      T ← match b' * bf with
           | 0 => Ok (plug c (Node l a b' k r))
           | 1 =>
               match c with
               | f :: c' =>
                   rebalance_shape c' (fill f (Node l a b' k r)) (frame_side f)
               | [] => Ok (Node l a b' k r)
               end
           | 2 => t' ← rotate_shape (Node l a b' k r); Ok (plug c t')
           | _ => Ok (plug c (Node l a b' k r))
           end;
      check_shape a T
  end.

(** [newNode->key = key]. *)
Fixpoint set_key (a : loc) (key0 : Z) (t : shape) : shape :=
  match t with
  | Nil => Nil
  | Node l x b k r =>
      Node (set_key a key0 l) x b (if decide (x = a) then key0 else k)
        (set_key a key0 r)
  end.

(** [tree_put] with a successful allocation at [a]. *)
Definition put_shape (T : shape) (key0 : Z) (a : loc) : result shape :=
  match find_path key0 T [] with
  | None => Ok T
  | Some [] => Ok (Node Nil a 0 key0 Nil)
  | Some (f :: c) =>
      T' ← rebalance_shape c (fill f (Node Nil a 0 0 Nil)) (frame_side f);
      Ok (set_key a key0 T')
  end.

(** The run [r] of the pointer program does what the run [s] on shapes
    does: it returns a state that holds the tree in the context [c], or
    fails the same way. *)
Definition refines (fr : list loc) (c : list frame) (r : result state)
  (s : result shape) : Prop :=
  match s with
  | Ok t' => ∃ st', r = Ok st' ∧ holds st' (plug c t') ∧ freed st' = fr
  | AssertFail => r = AssertFail
  | _ => True
  end.

(** A run on shapes that returns or fails an assertion. *)
Definition safe {A} (s : result A) : Prop :=
  match s with
  | Ok _ | AssertFail => True
  | _ => False
  end.

(** There is a node, and its imbalance is -1, 0 or 1. *)
Definition unit_root (t : shape) : Prop :=
  match t with
  | Nil => False
  | Node _ _ b _ _ => -1 <= b <= 1
  end.

(** What [tree_rebalance] relies on when it is called with the change [bf]
    on a node with the subtrees [l] and [r]: the child on the side of [bf]
    is there with an imbalance of -1, 0 or 1, and when it leans to the
    other side, so is its child on that side. *)
Definition ready (bf : Z) (l r : shape) : Prop :=
  if bf =? 1 then
    match r with
    | Node rl _ ib _ _ => -1 <= ib <= 1 ∧ (ib < 0 → unit_root rl)
    | Nil => False
    end
  else
    match l with
    | Node _ _ ib _ lr => -1 <= ib <= 1 ∧ (0 < ib → unit_root lr)
    | Nil => False
    end.

(** ** How an insertion ends *)

(** The frame with another [imbalance] field. *)
Definition set_imb (b : Z) (f : frame) : frame :=
  match f with
  | InLeft a _ k r => InLeft a b k r
  | InRight l a _ k => InRight l a b k
  end.

(** The frame of a balanced node after the subtree at the hole grew. *)
Definition lean (f : frame) : frame := set_imb (frame_side f) f.

(** Every [imbalance] field is -1, 0 or 1. *)
Fixpoint unit_fields (t : shape) : Prop :=
  match t with
  | Nil => True
  | Node l _ b _ r => -1 <= b <= 1 ∧ unit_fields l ∧ unit_fields r
  end.

(** How an insertion at the end of a path ends. *)
Inductive verdict :=
| Balanced
| Aborts
| WrongField.

(** What the rotation of the node of [f] gives, [rb] being the frames
    passed below it, nearest first: a double rotation around a grandchild
    that is not the new leaf goes wrong. *)
Definition rotation_verdict (rb : list frame) (f : frame) : verdict :=
  match rb with
  | g :: h :: _ =>
      if frame_side g =? frame_side f then Balanced
      else if frame_side h =? frame_side f then Aborts
      else WrongField
  | _ => Balanced
  end.

(** What an insertion at the end of a path does: [c] are the frames still
    above, nearest first, and [rb] the frames already passed, nearest
    first, all of them with imbalance 0 before. *)
Fixpoint verdict_of (rb c : list frame) : verdict :=
  match c with
  | [] => Balanced
  | f :: c' =>
      if frame_imb f =? 0 then verdict_of (f :: rb) c'
      else if frame_imb f =? - frame_side f then Balanced
      else rotation_verdict rb f
  end.

(** ** States that differ in keys *)

(** Two node records that differ in the key at most. *)
Definition same_links (n n' : tree_node) : Prop :=
  left n = left n' ∧ right n = right n' ∧ parent n = parent n'
  ∧ imbalance n = imbalance n'.

(** Two states that differ in the keys of their nodes at most. *)
Definition same_but_keys (st st' : state) : Prop :=
  the_tree st = the_tree st' ∧ freed st = freed st'
  ∧ ∀ x, option_Forall2 same_links (heap st !! x) (heap st' !! x).

(** Two runs that end the same way, with results related by [R] when they
    return. *)
Definition alike {A} (R : A → A → Prop) (r r' : result A) : Prop :=
  match r, r' with
  | Ok x, Ok y => R x y
  | AssertFail, AssertFail => True
  | Fault, Fault => True
  | OutOfFuel, OutOfFuel => True
  | _, _ => False
  end.

(** ** States of concrete runs *)

Definition allocs : list ptr := Some <$> [1; 2; 3; 4; 5; 6; 7; 8; 9]%positive.

(** The tree after the first two insertions of [main]. *)
Definition st_12_4 : state :=
  mk_state
    (<[2%positive := mk_node NULL NULL (Some 1%positive) 0 4]>
       (<[1%positive := mk_node (Some 2%positive) NULL NULL (-1) 12]> ∅))
    (mk_tree (Some 1%positive)) [].

Definition T_12_4 : shape := Node (Node Nil 2 0 4 Nil) 1 (-1) 12 Nil.

(** The tree that [main] has built when it calls [tree_delete]. *)
Definition st_main : state :=
  mk_state
    (<[9%positive := mk_node NULL NULL (Some 5%positive) 0 1]>
       (<[7%positive := mk_node NULL NULL (Some 1%positive) 0 10]>
          (<[6%positive := mk_node (Some 4%positive) (Some 1%positive)
                             (Some 3%positive) 1 8]>
             (<[5%positive := mk_node (Some 9%positive) (Some 2%positive)
                                (Some 3%positive) 0 2]>
                (<[4%positive := mk_node NULL NULL (Some 6%positive) 0 6]>
                   (<[3%positive := mk_node (Some 5%positive) (Some 6%positive)
                                      NULL 1 5]>
                      (<[2%positive := mk_node NULL NULL (Some 5%positive) 0 4]>
                         (<[1%positive := mk_node (Some 7%positive) NULL
                                            (Some 6%positive) (-1) 12]>
                            ∅))))))))
    (mk_tree (Some 3%positive)) [].

Definition T_main : shape :=
  Node (Node (Node Nil 9 0 1 Nil) 5 0 2 (Node Nil 2 0 4 Nil)) 3 1 5
    (Node (Node Nil 4 0 6 Nil) 6 1 8
       (Node (Node Nil 7 0 10 Nil) 1 (-1) 12 Nil)).

(** A tree of one node. *)
Definition st_one : state :=
  mk_state (<[1%positive := mk_node NULL NULL NULL 0 7]> ∅)
    (mk_tree (Some 1%positive)) [].

Definition T_one : shape := Node Nil 1 0 7 Nil.

(** The state in which [tree_put] rotates when 5 is inserted after 12 and
    4: the new node, at address 3, has its key not yet written. *)
Definition st_rotating : state :=
  mk_state
    (<[3%positive := mk_node NULL NULL (Some 2%positive) 0 0]>
       (<[2%positive := mk_node NULL (Some 3%positive) (Some 1%positive) 1 4]>
          (<[1%positive := mk_node (Some 2%positive) NULL NULL (-2) 12]> ∅)))
    (mk_tree (Some 1%positive)) [].

(** The same insertion between its two rotations. *)
Definition st_half : state :=
  mk_state
    (<[3%positive := mk_node (Some 2%positive) NULL (Some 1%positive) (-1) 0]>
       (<[2%positive := mk_node NULL NULL (Some 3%positive) 0 4]>
          (<[1%positive := mk_node (Some 3%positive) NULL NULL (-2) 12]> ∅)))
    (mk_tree (Some 1%positive)) [].

(** The state when [tree_insert_under] returns in the insertion of 5 after
    12 and 4: the new node, at address 3, was rotated to the root. *)
Definition st_rotated : state :=
  mk_state
    (<[3%positive := mk_node (Some 2%positive) (Some 1%positive) NULL 0 0]>
       (<[2%positive := mk_node NULL NULL (Some 3%positive) 0 4]>
          (<[1%positive := mk_node NULL NULL (Some 3%positive) 0 12]> ∅)))
    (mk_tree (Some 3%positive)) [].

(** The state after 12 and 4, with a block at address 3 linked as the right
    child of the node of key 4, before the rebalancing. *)
Definition st_attached : state :=
  mk_state
    (<[3%positive := mk_node NULL NULL (Some 2%positive) 0 0]>
       (<[2%positive := mk_node NULL (Some 3%positive) (Some 1%positive) 0 4]>
          (<[1%positive := mk_node (Some 2%positive) NULL NULL (-1) 12]> ∅)))
    (mk_tree (Some 1%positive)) [].

(** The state after [tree_insert_under] was called in [st_12_4] for the
    left side of the root, where the node of key 4 is, the new block being
    at address 3. *)
Definition st_leak : state :=
  mk_state
    (<[3%positive := mk_node NULL (Some 1%positive) NULL 0 0]>
       (<[2%positive := mk_node NULL NULL (Some 1%positive) 0 4]>
          (<[1%positive := mk_node NULL NULL (Some 3%positive) (-1) 12]> ∅)))
    (mk_tree (Some 3%positive)) [].

(** The tree after the insertion of 6, 7, 2, 4, 1. *)
Definition st_avl : state :=
  mk_state
    (<[5%positive := mk_node NULL NULL (Some 3%positive) 0 1]>
       (<[4%positive := mk_node NULL NULL (Some 3%positive) 0 4]>
          (<[3%positive := mk_node (Some 5%positive) (Some 4%positive)
                             (Some 1%positive) 0 2]>
             (<[2%positive := mk_node NULL NULL (Some 1%positive) 0 7]>
                (<[1%positive := mk_node (Some 3%positive) (Some 2%positive)
                                   NULL (-1) 6]> ∅)))))
    (mk_tree (Some 1%positive)) [].

Definition T_avl : shape :=
  Node (Node (Node Nil 5 0 1 Nil) 3 0 2 (Node Nil 4 0 4 Nil)) 1 (-1) 6
    (Node Nil 2 0 7 Nil).

(** The state that [tree_put] returns for the key 5 in [st_avl], the new
    block being at address 6. *)
Definition st_bad : state :=
  mk_state
    (<[6%positive := mk_node NULL NULL (Some 1%positive) 0 5]>
       (<[5%positive := mk_node NULL NULL (Some 3%positive) 0 1]>
          (<[4%positive := mk_node (Some 3%positive) (Some 1%positive) NULL 0 4]>
             (<[3%positive := mk_node (Some 5%positive) NULL
                                (Some 4%positive) (-1) 2]>
                (<[2%positive := mk_node NULL NULL (Some 1%positive) 0 7]>
                   (<[1%positive := mk_node (Some 6%positive) (Some 2%positive)
                                      (Some 4%positive) (-1) 6]> ∅))))))
    (mk_tree (Some 4%positive)) [].

Definition T_bad : shape :=
  Node (Node (Node Nil 5 0 1 Nil) 3 (-1) 2 Nil) 4 0 4
    (Node (Node Nil 6 0 5 Nil) 1 (-1) 6 (Node Nil 2 0 7 Nil)).

(** The state in which [tree_put] rotates when 3 is inserted in [st_avl],
    the new block being at address 6. *)
Definition st_pivot : state :=
  mk_state
    (<[6%positive := mk_node NULL NULL (Some 4%positive) 0 0]>
       (<[5%positive := mk_node NULL NULL (Some 3%positive) 0 1]>
          (<[4%positive := mk_node (Some 6%positive) NULL (Some 3%positive) (-1) 4]>
             (<[3%positive := mk_node (Some 5%positive) (Some 4%positive)
                                (Some 1%positive) 1 2]>
                (<[2%positive := mk_node NULL NULL (Some 1%positive) 0 7]>
                   (<[1%positive := mk_node (Some 3%positive) (Some 2%positive)
                                      NULL (-2) 6]> ∅))))))
    (mk_tree (Some 1%positive)) [].

(** ** Basic facts *)

Lemma inorder_plug c t : inorder (plug c t) = before c ++ inorder t ++ after c.
Proof.
  revert t; induction c as [|f c IH]; intros t; simpl.
  - by rewrite app_nil_r.
  - rewrite IH. destruct f; simpl; by rewrite <- ?app_assoc.
Qed.

Lemma addrs_node l a b k r : addrs (Node l a b k r) = addrs l ++ a :: addrs r.
Proof. unfold addrs; simpl. by rewrite fmap_app. Qed.

Lemma addrs_plug c t : addrs (plug c t) = (before c).*1 ++ addrs t ++ (after c).*1.
Proof. unfold addrs. by rewrite inorder_plug, !fmap_app. Qed.

Lemma addrs_plug_perm c t : addrs (plug c t) ≡ₚ ctx_addrs c ++ addrs t.
Proof.
  rewrite addrs_plug. unfold ctx_addrs.
  rewrite <- app_assoc. apply Permutation_app_head, Permutation_app_comm.
Qed.

Lemma root_of_fill f t : root_of (fill f t) = Some (frame_loc f).
Proof. by destruct f. Qed.

Lemma root_of_plug_cons f c t t' :
  root_of (plug (f :: c) t) = root_of (plug (f :: c) t').
Proof.
  revert f t t'; induction c as [|g c IH]; intros f t t'; simpl.
  - by rewrite !root_of_fill.
  - apply (IH g).
Qed.

Lemma rep_plug h c t :
  rep h NULL (plug c t) ↔ rep_ctx h c (root_of t) ∧ rep h (parent_of c) t.
Proof.
  revert t; induction c as [|f c IH]; intros t; simpl.
  - tauto.
  - rewrite IH, root_of_fill. destruct f; simpl; tauto.
Qed.

(** [rep] reads the heap at the addresses of the tree only. *)
Lemma rep_ext h h' par t :
  (∀ x, x ∈ addrs t → h' !! x = h !! x) → rep h par t → rep h' par t.
Proof.
  revert par; induction t as [|l IHl a b k r IHr]; intros par Hx; simpl; [done|].
  intros (Ha & Hl & Hr). rewrite addrs_node in Hx. split_and!.
  - rewrite Hx; [done|set_solver].
  - apply IHl; [|done]. intros x ?; apply Hx; set_solver.
  - apply IHr; [|done]. intros x ?; apply Hx; set_solver.
Qed.

Lemma ctx_addrs_cons f c :
  ctx_addrs (f :: c) ≡ₚ frame_loc f :: addrs (sibling f) ++ ctx_addrs c.
Proof.
  unfold ctx_addrs, addrs. destruct f; simpl; rewrite ?fmap_app; simpl;
    solve_Permutation.
Qed.

Lemma elem_of_ctx_addrs_cons x f c :
  x ∈ ctx_addrs (f :: c)
  ↔ x = frame_loc f ∨ x ∈ addrs (sibling f) ∨ x ∈ ctx_addrs c.
Proof. rewrite ctx_addrs_cons. set_solver. Qed.

Lemma rep_ctx_ext h h' c p :
  (∀ x, x ∈ ctx_addrs c → h' !! x = h !! x) → rep_ctx h c p → rep_ctx h' c p.
Proof.
  revert p; induction c as [|f c IH]; intros p Hx; simpl; [done|].
  assert (Hx' : ∀ x, x = frame_loc f ∨ x ∈ addrs (sibling f) ∨ x ∈ ctx_addrs c
                     → h' !! x = h !! x).
  { intros x Hin. apply Hx. by apply elem_of_ctx_addrs_cons. }
  intros [Hf Hc]. split.
  - destruct f; simpl in *; destruct Hf as [Ha Hs]; (split;
      [rewrite Hx'; [done|by left]|]);
      (eapply rep_ext; [|done]; intros x ?; apply Hx'; tauto).
  - apply IH; [|done]. intros x ?; apply Hx'; tauto.
Qed.

Lemma slot_owner_of c : slot_owner (slot_of c) = parent_of c.
Proof. by destruct c as [|[] c]. Qed.

Lemma root_of_addrs t x : root_of t = Some x → x ∈ addrs t.
Proof.
  destruct t; simpl; [done|]. intros [= ->]. rewrite addrs_node. set_solver.
Qed.

Lemma parent_of_addrs c x : parent_of c = Some x → x ∈ ctx_addrs c.
Proof.
  destruct c as [|f c]; simpl; [done|]. intros [= <-].
  apply elem_of_ctx_addrs_cons. by left.
Qed.

(** ** Rotations on a tree held by the heap *)

Lemma read_slot_ctx st c p :
  rep_ctx (heap st) c p → (c = [] → root (the_tree st) = p) →
  read_slot st (slot_of c) = Ok p.
Proof.
  destruct c as [|[a b k r|l a b k] c]; simpl.
  - intros _ H. by rewrite H.
  - intros [[-> _] _] _. done.
  - intros [[-> _] _] _. done.
Qed.

Ltac check_step :=
  match goal with
  | |- (if ?b then _ else _) ≫= _ = _ => destruct b eqn:?; simpl; [|done]
  end.

Lemma NoDup_plug_inv c t :
  NoDup (addrs (plug c t)) →
  NoDup (ctx_addrs c) ∧ NoDup (addrs t) ∧ (∀ x, x ∈ ctx_addrs c → x ∉ addrs t).
Proof.
  rewrite addrs_plug_perm, NoDup_app. tauto.
Qed.

Lemma ite_max x : (if 0 <? x then x else 0) = Z.max x 0.
Proof. destruct (Z.ltb_spec 0 x); lia. Qed.

Lemma ite_min x : (if x <? 0 then x else 0) = Z.min x 0.
Proof. destruct (Z.ltb_spec x 0); lia. Qed.

Ltac int_step :=
  match goal with
  | |- context [int_val ?z] =>
      unfold int_val at 1; destruct (in_int z); simpl; [|done]
  end.

Ltac heap_step :=
  first
    [ rewrite lookup_insert_eq
    | rewrite lookup_insert_ne by congruence
    | match goal with
      | H : ?h !! ?a = Some _ |- context [?h !! ?a] => rewrite H
      end ];
  simpl.

Lemma rotate_disjoint (ctx d cc e : list loc) a b :
  NoDup (ctx ++ d ++ a :: cc ++ b :: e) →
  a ≠ b
  ∧ (∀ x, x ∈ d ∨ x ∈ cc ∨ x ∈ e ∨ x ∈ ctx → (x ≠ a) ∧ (x ≠ b))
  ∧ (∀ x, x ∈ cc → (x ∉ d) ∧ (x ∉ e) ∧ (x ∉ ctx))
  ∧ (∀ x, x ∈ ctx → (x ∉ d) ∧ (x ∉ e)).
Proof.
  intros H. repeat (rewrite ?NoDup_app, ?NoDup_cons in H).
  set_solver.
Qed.

Lemma rotate_perm (d cc e : list loc) a b :
  (e ++ b :: cc) ++ a :: d ≡ₚ d ++ a :: cc ++ b :: e.
Proof.
  rewrite <- !Permutation_middle. simpl. do 2 f_equiv.
  rewrite (Permutation_app_comm e cc), (Permutation_app_comm _ d).
  by rewrite app_assoc.
Qed.

Lemma rotate_far c d a cc b e (P : loc → Prop) :
  NoDup (ctx_addrs c ++ addrs d ++ a :: addrs cc ++ b :: addrs e) →
  (∀ x, x ≠ a → x ≠ b → root_of cc ≠ Some x → parent_of c ≠ Some x → P x) →
  ∀ x, x ∈ addrs d ∨ x ∈ addrs e
       ∨ (x ∈ addrs cc ∧ root_of cc ≠ Some x)
       ∨ (x ∈ ctx_addrs c ∧ parent_of c ≠ Some x) → P x.
Proof.
  intros (Hab & D1 & D2 & D3)%rotate_disjoint HP x Hx.
  pose proof (root_of_addrs cc) as Hrc.
  pose proof (parent_of_addrs c) as Hpc.
  apply HP; clear HP.
  - apply D1. tauto.
  - apply D1. tauto.
  - intros Hr. destruct (D2 _ (Hrc _ Hr)) as (? & ? & ?). tauto.
  - intros Hp. pose proof (Hpc _ Hp) as Hin. destruct (D3 _ Hin) as (? & ?).
    destruct Hx as [?|[?|[[Hx ?]|[? ?]]]]; try tauto.
    destruct (D2 _ Hx) as (? & ? & ?). tauto.
Qed.

Lemma rep_rotated_left h h' c d a ia ka cc b ib kb e ia' ib' :
  rep h NULL (plug c (Node d a ia ka (Node cc b ib kb e))) →
  NoDup (addrs (plug c (Node d a ia ka (Node cc b ib kb e)))) →
  h' !! a = Some (mk_node (root_of d) (root_of cc) (Some b) ia' ka) →
  h' !! b = Some (mk_node (Some a) (root_of e) (parent_of c) ib' kb) →
  (∀ c0, root_of cc = Some c0 → h' !! c0 = with_parent (Some a) <$> h !! c0) →
  (∀ p, parent_of c = Some p →
        h' !! p = (if decide (slot_of c = LeftSlot p)
                   then with_left (Some b) else with_right (Some b)) <$> h !! p) →
  (∀ x, x ≠ a → x ≠ b → root_of cc ≠ Some x → parent_of c ≠ Some x →
        h' !! x = h !! x) →
  rep h' NULL (plug c (Node (Node d a ia' ka cc) b ib' kb e)).
Proof.
  intros Hrep Hnd Pa Pb Pc Pp Pout.
  apply rep_plug in Hrep as [Hc (Ha & Hd & Hb & Hcc & He)].
  rewrite addrs_plug_perm, !addrs_node in Hnd.
  pose proof (rotate_far _ _ _ _ _ _ _ Hnd Pout) as Hfar. clear Pout.
  apply rep_plug. simpl. split_and!; try done.
  - clear Pc Pa Hd He Hcc.
    destruct c as [|f c']; [done|]. simpl in Hc |- *.
    apply NoDup_app in Hnd as (Hndc & _).
    rewrite ctx_addrs_cons in Hndc. apply NoDup_cons in Hndc as [Hf Hndc].
    assert (Hfar' : ∀ x, x ∈ addrs (sibling f) ++ ctx_addrs c' → h' !! x = h !! x).
    { intros x Hx. apply Hfar. right; right; right. split.
      - apply elem_of_ctx_addrs_cons. set_solver +Hx.
      - simpl. intros [= <-]. done. }
    clear Hfar.
    specialize (Pp _ eq_refl).
    destruct Hc as [Hf' Hc']. split.
    + destruct f as [p bp kp r|l p bp kp]; simpl in *; destruct Hf' as [Hp Hs];
        rewrite Hp in Pp; (split; [by rewrite Pp, ?decide_True, ?decide_False by done|]);
        (eapply rep_ext; [|done]; intros x Hx; apply Hfar'; set_solver +Hx).
    + eapply rep_ctx_ext; [|done]. intros x Hx; apply Hfar'. set_solver +Hx.
  - eapply rep_ext; [|done]. intros x Hx. apply Hfar; tauto.
  - destruct cc as [|cl c0 ic kc cr]; [done|]. simpl in Hcc |- *.
    destruct Hcc as (Hc0 & Hcl & Hcr).
    apply NoDup_app in Hnd as (_ & _ & Hnd).
    apply NoDup_app in Hnd as (_ & _ & Hnd).
    apply NoDup_cons in Hnd as [_ Hnd].
    apply NoDup_app in Hnd as (Hnd & _).
    rewrite addrs_node in *.
    assert (Hfar' : ∀ x, x ∈ addrs cl ++ addrs cr → h' !! x = h !! x).
    { intros x Hx. apply Hfar. right; right; left. split; [set_solver +Hx|].
      simpl; intros [= ->]. clear -Hx Hnd.
      apply NoDup_app in Hnd as (_ & H1 & H2). apply NoDup_cons in H2 as [H2 _].
      apply elem_of_app in Hx as [Hx|Hx]; [|done]. apply H1 in Hx. set_solver +Hx. }
    split_and!.
    + rewrite (Pc c0), Hc0 by done. done.
    + eapply rep_ext; [|done]. intros x Hx. apply Hfar'. set_solver +Hx.
    + eapply rep_ext; [|done]. intros x Hx. apply Hfar'. set_solver +Hx.
  - eapply rep_ext; [|done]. intros x Hx. apply Hfar; tauto.
Qed.

Lemma rep_rotated_right h h' c d a ia ka cc b ib kb e ia' ib' :
  rep h NULL (plug c (Node (Node e b ib kb cc) a ia ka d)) →
  NoDup (addrs (plug c (Node (Node e b ib kb cc) a ia ka d))) →
  h' !! a = Some (mk_node (root_of cc) (root_of d) (Some b) ia' ka) →
  h' !! b = Some (mk_node (root_of e) (Some a) (parent_of c) ib' kb) →
  (∀ c0, root_of cc = Some c0 → h' !! c0 = with_parent (Some a) <$> h !! c0) →
  (∀ p, parent_of c = Some p →
        h' !! p = (if decide (slot_of c = LeftSlot p)
                   then with_left (Some b) else with_right (Some b)) <$> h !! p) →
  (∀ x, x ≠ a → x ≠ b → root_of cc ≠ Some x → parent_of c ≠ Some x →
        h' !! x = h !! x) →
  rep h' NULL (plug c (Node e b ib' kb (Node cc a ia' ka d))).
Proof.
  intros Hrep Hnd Pa Pb Pc Pp Pout.
  apply rep_plug in Hrep as [Hc (Ha & (Hb & He & Hcc) & Hd)].
  rewrite addrs_plug_perm, !addrs_node in Hnd.
  assert (Hnd' : NoDup (ctx_addrs c ++ addrs d ++ a :: addrs cc ++ b :: addrs e)).
  { by rewrite rotate_perm in Hnd. }
  clear Hnd. rename Hnd' into Hnd.
  pose proof (rotate_far _ _ _ _ _ _ _ Hnd Pout) as Hfar. clear Pout.
  apply rep_plug. simpl. split_and!; try done.
  - clear Pc Pa Hd He Hcc.
    destruct c as [|f c']; [done|]. simpl in Hc |- *.
    apply NoDup_app in Hnd as (Hndc & _).
    rewrite ctx_addrs_cons in Hndc. apply NoDup_cons in Hndc as [Hf Hndc].
    assert (Hfar' : ∀ x, x ∈ addrs (sibling f) ++ ctx_addrs c' → h' !! x = h !! x).
    { intros x Hx. apply Hfar. right; right; right. split.
      - apply elem_of_ctx_addrs_cons. set_solver +Hx.
      - simpl. intros [= <-]. done. }
    clear Hfar.
    specialize (Pp _ eq_refl).
    destruct Hc as [Hf' Hc']. split.
    + destruct f as [p bp kp r|l p bp kp]; simpl in *; destruct Hf' as [Hp Hs];
        rewrite Hp in Pp; (split; [by rewrite Pp, ?decide_True, ?decide_False by done|]);
        (eapply rep_ext; [|done]; intros x Hx; apply Hfar'; set_solver +Hx).
    + eapply rep_ctx_ext; [|done]. intros x Hx; apply Hfar'. set_solver +Hx.
  - eapply rep_ext; [|done]. intros x Hx. apply Hfar; tauto.
  - destruct cc as [|cl c0 ic kc cr]; [done|]. simpl in Hcc |- *.
    destruct Hcc as (Hc0 & Hcl & Hcr).
    apply NoDup_app in Hnd as (_ & _ & Hnd).
    apply NoDup_app in Hnd as (_ & _ & Hnd).
    apply NoDup_cons in Hnd as [_ Hnd].
    apply NoDup_app in Hnd as (Hnd & _).
    rewrite addrs_node in *.
    assert (Hfar' : ∀ x, x ∈ addrs cl ++ addrs cr → h' !! x = h !! x).
    { intros x Hx. apply Hfar. right; right; left. split; [set_solver +Hx|].
      simpl; intros [= ->]. clear -Hx Hnd.
      apply NoDup_app in Hnd as (_ & H1 & H2). apply NoDup_cons in H2 as [H2 _].
      apply elem_of_app in Hx as [Hx|Hx]; [|done]. apply H1 in Hx. set_solver +Hx. }
    split_and!.
    + rewrite (Pc c0), Hc0 by done. done.
    + eapply rep_ext; [|done]. intros x Hx. apply Hfar'. set_solver +Hx.
    + eapply rep_ext; [|done]. intros x Hx. apply Hfar'. set_solver +Hx.
  - eapply rep_ext; [|done]. intros x Hx. apply Hfar; tauto.
Qed.

Ltac rot_exec :=
  unfold tree_left_rotate, tree_right_rotate, left_checks, right_checks,
    write_slot, read_slot, update, load, store, with_left, with_right, with_parent, with_imbalance,
    int_val, c_assert; simpl;
  repeat first [heap_step | rewrite ite_max | rewrite ite_min | check_step];
  reflexivity.

Ltac rot_facts :=
  unfold rotated; simpl; split_and!; intros;
  repeat match goal with
    | H : Some _ = Some _ |- _ => injection H as <-
    end;
  repeat first [heap_step | rewrite decide_True by done
               | rewrite decide_False by done];
  try done; try (do 2 f_equal; lia);
  try (rewrite !lookup_insert_ne; congruence).

Lemma left_rotate_heap st s a b na nb :
  read_slot st s = Ok (Some a) →
  heap st !! a = Some na → right na = Some b → heap st !! b = Some nb →
  a ≠ b →
  (∀ c0, left nb = Some c0 → c0 ≠ a ∧ c0 ≠ b ∧ is_Some (heap st !! c0)) →
  (∀ p, slot_owner s = Some p → p ≠ a ∧ p ≠ b ∧ left nb ≠ Some p) →
  let ia := imbalance na - 1 - Z.max (imbalance nb) 0 in
  let ib := imbalance nb - 1 + Z.max ia 0 in
  ∃ st',
    tree_left_rotate s st
    = (c_assert (0 <? imbalance na);;
       left_checks (imbalance na) (imbalance nb);; Ok st')
    ∧ rotated st st' s a b (left nb)
        (mk_node (left na) (left nb) (Some b) ia (key na))
        (mk_node (Some a) (right nb) (parent na) ib (key nb)).
Proof.
  intros Hs Ha Hr Hb Hab Hc Hp ia ib. subst ia ib.
  destruct st as [h [rt] fr], na as [la ra pa ia ka], nb as [lb rb pb ib kb];
    simpl in *; subst ra.
  assert (Hc' : ∀ c0, lb = Some c0 → c0 ≠ a ∧ c0 ≠ b ∧ ∃ nc, h !! c0 = Some nc).
  { intros c0 H0. destruct (Hc c0 H0) as (? & ? & [nc ?]). eauto. }
  clear Hc.
  destruct s as [|p|p]; simpl in Hs, Hp;
    [|destruct (Hp p eq_refl) as (? & ? & ?);
      destruct (h !! p) as [[lp rp pp ip kp]|] eqn:Hp0; [|done]..];
    simpl in Hs; injection Hs as Hs; subst;
    (destruct lb as [c0|]; [destruct (Hc' c0 eq_refl) as (? & ? & [nc Hc0])|]);
    (eexists; split; [rot_exec|rot_facts]).
Qed.

Lemma right_rotate_heap st s a b na nb :
  read_slot st s = Ok (Some a) →
  heap st !! a = Some na → left na = Some b → heap st !! b = Some nb →
  a ≠ b →
  (∀ c0, right nb = Some c0 → c0 ≠ a ∧ c0 ≠ b ∧ is_Some (heap st !! c0)) →
  (∀ p, slot_owner s = Some p → p ≠ a ∧ p ≠ b ∧ right nb ≠ Some p) →
  let ia := imbalance na + 1 - Z.min (imbalance nb) 0 in
  let ib := imbalance nb + 1 + Z.min ia 0 in
  ∃ st',
    tree_right_rotate s st
    = (c_assert (imbalance na <? 0);;
       right_checks (imbalance na) (imbalance nb);; Ok st')
    ∧ rotated st st' s a b (right nb)
        (mk_node (right nb) (right na) (Some b) ia (key na))
        (mk_node (left nb) (Some a) (parent na) ib (key nb)).
Proof.
  intros Hs Ha Hr Hb Hab Hc Hp ia ib. subst ia ib.
  destruct st as [h [rt] fr], na as [la ra pa ia ka], nb as [lb rb pb ib kb];
    simpl in *; subst la.
  assert (Hc' : ∀ c0, rb = Some c0 → c0 ≠ a ∧ c0 ≠ b ∧ ∃ nc, h !! c0 = Some nc).
  { intros c0 H0. destruct (Hc c0 H0) as (? & ? & [nc ?]). eauto. }
  clear Hc.
  destruct s as [|p|p]; simpl in Hs, Hp;
    [|destruct (Hp p eq_refl) as (? & ? & ?);
      destruct (h !! p) as [[lp rp pp ip kp]|] eqn:Hp0; [|done]..];
    simpl in Hs; injection Hs as Hs; subst;
    (destruct rb as [c0|]; [destruct (Hc' c0 eq_refl) as (? & ? & [nc Hc0])|]);
    (eexists; split; [rot_exec|rot_facts]).
Qed.

Lemma inorder_rotate d a ia ka cc b ib kb e ia' ib' :
  inorder (Node (Node d a ia' ka cc) b ib' kb e)
  = inorder (Node d a ia ka (Node cc b ib kb e)).
Proof. simpl. by rewrite <- app_assoc. Qed.

Lemma holds_rotated_left c d a ia ka cc b ib kb e st st' ia' ib' :
  holds st (plug c (Node d a ia ka (Node cc b ib kb e))) →
  rotated st st' (slot_of c) a b (root_of cc)
    (mk_node (root_of d) (root_of cc) (Some b) ia' ka)
    (mk_node (Some a) (root_of e) (parent_of c) ib' kb) →
  holds st' (plug c (Node (Node d a ia' ka cc) b ib' kb e)).
Proof.
  intros (Hrep & Hroot & Hnd) (Pa & Pb & Pc & Pp & Pout & Pr & _).
  rewrite slot_owner_of in Pp, Pout.
  split_and!.
  - by eapply rep_rotated_left.
  - rewrite Pr. destruct c as [|f c]; [done|].
    rewrite decide_False by by destruct f.
    rewrite Hroot. apply root_of_plug_cons.
  - revert Hnd. unfold addrs. by rewrite !inorder_plug, (inorder_rotate _ _ ia _ _ _ ib).
Qed.

Lemma holds_rotated_right c d a ia ka cc b ib kb e st st' ia' ib' :
  holds st (plug c (Node (Node e b ib kb cc) a ia ka d)) →
  rotated st st' (slot_of c) a b (root_of cc)
    (mk_node (root_of cc) (root_of d) (Some b) ia' ka)
    (mk_node (root_of e) (Some a) (parent_of c) ib' kb) →
  holds st' (plug c (Node e b ib' kb (Node cc a ia' ka d))).
Proof.
  intros (Hrep & Hroot & Hnd) (Pa & Pb & Pc & Pp & Pout & Pr & _).
  rewrite slot_owner_of in Pp, Pout.
  split_and!.
  - by eapply rep_rotated_right.
  - rewrite Pr. destruct c as [|f c]; [done|].
    rewrite decide_False by by destruct f.
    rewrite Hroot. apply root_of_plug_cons.
  - revert Hnd. unfold addrs.
    by rewrite !inorder_plug, (inorder_rotate e b ib' kb cc a ia' ka d ib ia).
Qed.

Lemma rep_is_Some h par t x : rep h par t → x ∈ addrs t → is_Some (h !! x).
Proof.
  revert par; induction t as [|l IHl a b k r IHr]; intros par; simpl.
  - intros _ Hx. by apply elem_of_nil in Hx.
  - intros (Ha & Hl & Hr). rewrite addrs_node.
    intros [Hx|[->|Hx]%elem_of_cons]%elem_of_app; eauto.
Qed.

Lemma left_rotate_holds c d a ia ka cc b ib kb e st :
  holds st (plug c (Node d a ia ka (Node cc b ib kb e))) →
  ∃ st',
    tree_left_rotate (slot_of c) st
    = (c_assert (0 <? ia);; left_checks ia ib;; Ok st')
    ∧ holds st' (plug c (Node (Node d a (ia - 1 - Z.max ib 0) ka cc) b
                           (ib - 1 + Z.max (ia - 1 - Z.max ib 0) 0) kb e))
    ∧ freed st' = freed st.
Proof.
  intros Hh. pose proof Hh as (Hrep & Hroot & Hnd).
  apply rep_plug in Hrep as [Hc (Ha & Hd & Hb & Hcc & He)].
  simpl in Hc.
  rewrite addrs_plug_perm, !addrs_node in Hnd.
  apply rotate_disjoint in Hnd as (Hab & D1 & D2 & D3).
  edestruct (left_rotate_heap st (slot_of c) a b) with (2 := Ha) (4 := Hb)
    as (st' & Heq & Hrot); try done.
  - apply read_slot_ctx; [done|]. intros ->. exact Hroot.
  - simpl. intros c0 H0. pose proof (root_of_addrs _ _ H0) as Hin.
    destruct (D1 c0) as [? ?]; [tauto|]. split_and!; try done.
    exact (rep_is_Some _ _ _ _ Hcc Hin).
  - rewrite slot_owner_of. simpl. intros p Hp%parent_of_addrs.
    destruct (D1 p) as [? ?]; [tauto|]. split_and!; try done.
    intros Hin%root_of_addrs. by destruct (D2 _ Hin) as (? & ? & ?).
  - exists st'. simpl in *. split_and!; [done| |apply Hrot].
    eapply holds_rotated_left; [done|]. done.
Qed.

Lemma right_rotate_holds c d a ia ka cc b ib kb e st :
  holds st (plug c (Node (Node e b ib kb cc) a ia ka d)) →
  ∃ st',
    tree_right_rotate (slot_of c) st
    = (c_assert (ia <? 0);; right_checks ia ib;; Ok st')
    ∧ holds st' (plug c (Node e b (ib + 1 + Z.min (ia + 1 - Z.min ib 0) 0) kb
                           (Node cc a (ia + 1 - Z.min ib 0) ka d)))
    ∧ freed st' = freed st.
Proof.
  intros Hh. pose proof Hh as (Hrep & Hroot & Hnd).
  apply rep_plug in Hrep as [Hc (Ha & (Hb & He & Hcc) & Hd)].
  simpl in Hc.
  rewrite addrs_plug_perm, !addrs_node in Hnd.
  assert (Hnd' : NoDup (ctx_addrs c ++ addrs d ++ a :: addrs cc ++ b :: addrs e)).
  { by rewrite rotate_perm in Hnd. }
  apply rotate_disjoint in Hnd' as (Hab & D1 & D2 & D3).
  edestruct (right_rotate_heap st (slot_of c) a b) with (2 := Ha) (4 := Hb)
    as (st' & Heq & Hrot); try done.
  - apply read_slot_ctx; [done|]. intros ->. exact Hroot.
  - simpl. intros c0 H0. pose proof (root_of_addrs _ _ H0) as Hin.
    destruct (D1 c0) as [? ?]; [tauto|]. split_and!; try done.
    exact (rep_is_Some _ _ _ _ Hcc Hin).
  - rewrite slot_owner_of. simpl. intros p Hp%parent_of_addrs.
    destruct (D1 p) as [? ?]; [tauto|]. split_and!; try done.
    intros Hin%root_of_addrs. by destruct (D2 _ Hin) as (? & ? & ?).
  - exists st'. simpl in *. split_and!; [done| |apply Hrot].
    eapply holds_rotated_right; [done|]. done.
Qed.

Lemma finished_bind {A B} (m : result A) (f : A → result B) :
  finished m → (∀ x, m = Ok x → finished (f x)) → finished (m ≫= f).
Proof. destruct m; simpl; intros H1 H2; try done. by apply H2. Qed.

Lemma finished_load st p : finished (load st p).
Proof. unfold load. by repeat case_match. Qed.

Lemma finished_update st p f : finished (update st p f).
Proof. unfold update, load. by repeat case_match. Qed.

Lemma finished_read_slot st s : finished (read_slot st s).
Proof. unfold read_slot, load. by repeat case_match. Qed.

Lemma finished_write_slot st s v : finished (write_slot st s v).
Proof. destruct s; simpl; [done|apply finished_update..]. Qed.

Lemma finished_assert b : finished (c_assert b).
Proof. by destruct b. Qed.

Lemma finished_int_val z : finished (int_val z).
Proof. unfold int_val. by case_match. Qed.

Lemma finished_Ok {A} (x : A) : finished (Ok x).
Proof. done. Qed.

Ltac finish :=
  repeat first
    [ apply finished_Ok
    | by unfold finished
    | apply finished_load | apply finished_update | apply finished_read_slot
    | apply finished_write_slot | apply finished_assert | apply finished_int_val
    | apply finished_bind; [|intros ? _]
    | case_match ].

Lemma finished_left_rotate s st : finished (tree_left_rotate s st).
Proof. unfold tree_left_rotate. finish. Qed.

Lemma finished_right_rotate s st : finished (tree_right_rotate s st).
Proof. unfold tree_right_rotate. finish. Qed.

Lemma finished_rotate s st : finished (tree_rotate s st).
Proof.
  unfold tree_rotate.
  repeat first [ apply finished_left_rotate | apply finished_right_rotate
               | progress finish ].
Qed.

Lemma checks_Ok {A} (m1 m2 : result unit) (x y : A) :
  (m1;; m2;; Ok x) = Ok y → x = y.
Proof. destruct m1; simpl; [|done..]. destruct m2; simpl; congruence. Qed.

Lemma left_rotate_kept c t st :
  holds st (plug c t) → kept c t st (tree_left_rotate (slot_of c) st).
Proof.
  intros Hh. split; [apply finished_left_rotate|]. intros st' Hr.
  pose proof Hh as (Hrep & Hroot & _).
  apply rep_plug in Hrep as [Hc Ht].
  assert (Hs : read_slot st (slot_of c) = Ok (root_of t)).
  { apply read_slot_ctx; [done|]. by intros ->. }
  destruct t as [|d a ia ka [|cc b ib kb e]].
  - unfold tree_left_rotate in Hr. by rewrite Hs in Hr.
  - unfold tree_left_rotate in Hr. rewrite Hs in Hr. simpl in Hr, Ht.
    destruct Ht as (Ha & _). by rewrite Ha in Hr.
  - destruct (left_rotate_holds _ _ _ _ _ _ _ _ _ _ _ Hh) as (st0 & Heq & Hh' & Hf).
    rewrite Heq in Hr. apply checks_Ok in Hr as <-.
    eexists. split_and!; [done| |done]. simpl. by rewrite <- app_assoc.
Qed.

Lemma right_rotate_kept c t st :
  holds st (plug c t) → kept c t st (tree_right_rotate (slot_of c) st).
Proof.
  intros Hh. split; [apply finished_right_rotate|]. intros st' Hr.
  pose proof Hh as (Hrep & Hroot & _).
  apply rep_plug in Hrep as [Hc Ht].
  assert (Hs : read_slot st (slot_of c) = Ok (root_of t)).
  { apply read_slot_ctx; [done|]. by intros ->. }
  destruct t as [|[|e b ib kb cc] a ia ka d].
  - unfold tree_right_rotate in Hr. by rewrite Hs in Hr.
  - unfold tree_right_rotate in Hr. rewrite Hs in Hr. simpl in Hr, Ht.
    destruct Ht as (Ha & _). rewrite Ha in Hr. simpl in Hr.
    by destruct (c_assert _).
  - destruct (right_rotate_holds _ _ _ _ _ _ _ _ _ _ _ Hh) as (st0 & Heq & Hh' & Hf).
    rewrite Heq in Hr. apply checks_Ok in Hr as <-.
    eexists. split_and!; [done| |done]. simpl. by rewrite <- app_assoc.
Qed.

Lemma rotate_kept c t st :
  holds st (plug c t) → kept c t st (tree_rotate (slot_of c) st).
Proof.
  intros Hh. split; [apply finished_rotate|]. intros st' Hr.
  pose proof Hh as (Hrep & Hroot & _).
  apply rep_plug in Hrep as [Hc Ht].
  assert (Hs : read_slot st (slot_of c) = Ok (root_of t)).
  { apply read_slot_ctx; [done|]. by intros ->. }
  unfold tree_rotate in Hr. rewrite Hs in Hr.
  destruct t as [|l a ia ka r]; [done|]. simpl in Hr, Ht.
  destruct Ht as (Ha & Hl & Hr'). rewrite Ha in Hr. simpl in Hr.
  destruct (ia =? 2); [|destruct (ia =? -2)].
  - destruct r as [|rl b ib kb rr]; [done|]. simpl in Hr, Hr'.
    destruct Hr' as (Hb & _). rewrite Hb in Hr. simpl in Hr.
    destruct (ib <? 0).
    + destruct (right_rotate_kept (InRight l a ia ka :: c) _ st Hh) as [_ H1].
      simpl in H1. destruct (tree_right_rotate (RightSlot a) st) as [st1| | |]; [|done..].
      destruct (H1 _ eq_refl) as (r1 & Hh1 & Hi1 & Hf1). simpl in Hr, Hh1.
      destruct (left_rotate_kept c _ st1 Hh1) as [_ H2].
      destruct (H2 _ Hr) as (t2 & Hh2 & Hi2 & Hf2).
      exists t2. split_and!; [done| |congruence]. rewrite Hi2. simpl. by rewrite Hi1.
    + simpl in Hr. destruct (left_rotate_kept c _ st Hh) as [_ H2]. by apply H2.
  - destruct l as [|ll b ib kb lr]; [done|]. simpl in Hr, Hl.
    destruct Hl as (Hb & _). rewrite Hb in Hr. simpl in Hr.
    destruct (0 <? ib).
    + destruct (left_rotate_kept (InLeft a ia ka r :: c) _ st Hh) as [_ H1].
      simpl in H1. destruct (tree_left_rotate (LeftSlot a) st) as [st1| | |]; [|done..].
      destruct (H1 _ eq_refl) as (r1 & Hh1 & Hi1 & Hf1). simpl in Hr, Hh1.
      destruct (right_rotate_kept c _ st1 Hh1) as [_ H2].
      destruct (H2 _ Hr) as (t2 & Hh2 & Hi2 & Hf2).
      exists t2. split_and!; [done| |congruence]. rewrite Hi2. simpl. by rewrite Hi1.
    + simpl in Hr. destruct (right_rotate_kept c _ st Hh) as [_ H2]. by apply H2.
  - injection Hr as <-. by exists (Node l a ia ka r).
Qed.

(** ** Rebalancing *)

Lemma focus_disjoint (ctx l r : list loc) a :
  NoDup (ctx ++ l ++ a :: r) →
  ∀ x, x ∈ ctx ∨ x ∈ l ∨ x ∈ r → x ≠ a.
Proof.
  intros H. repeat (rewrite ?NoDup_app, ?NoDup_cons in H). set_solver.
Qed.

(** Writing the [imbalance] and [key] fields of the node in focus. *)
Lemma holds_update_focus c l a b k r b' k' st :
  holds st (plug c (Node l a b k r)) →
  holds (store st a (mk_node (root_of l) (root_of r) (parent_of c) b' k'))
    (plug c (Node l a b' k' r)).
Proof.
  intros (Hrep & Hroot & Hnd).
  apply rep_plug in Hrep as [Hc (Ha & Hl & Hr)].
  pose proof Hnd as Hnd'.
  rewrite addrs_plug_perm, addrs_node in Hnd'.
  pose proof (focus_disjoint _ _ _ _ Hnd') as Hne.
  split_and!.
  - apply rep_plug. simpl. split_and!.
    + eapply rep_ctx_ext; [|done]. intros x Hx. simpl.
      apply lookup_insert_ne. intros ->. by apply (Hne x); [left|].
    + apply lookup_insert_eq.
    + eapply rep_ext; [|done]. intros x Hx. simpl.
      apply lookup_insert_ne. intros ->. by apply (Hne x); [right; left|].
    + eapply rep_ext; [|done]. intros x Hx. simpl.
      apply lookup_insert_ne. intros ->. by apply (Hne x); [right; right|].
  - simpl. rewrite Hroot. destruct c as [|f c]; [done|]. apply root_of_plug_cons.
  - revert Hnd. unfold addrs. rewrite !inorder_plug. simpl.
    by rewrite !fmap_app, !fmap_cons.
Qed.

Lemma load_focus c l a b k r st :
  holds st (plug c (Node l a b k r)) →
  load st (Some a) = Ok (mk_node (root_of l) (root_of r) (parent_of c) b k).
Proof.
  intros (Hrep & _). apply rep_plug in Hrep as [_ (Ha & _)].
  simpl. by rewrite Ha.
Qed.

Lemma load_parent f c t a st :
  holds st (plug (f :: c) t) → root_of t = Some a →
  ∃ pn, load st (Some (frame_loc f)) = Ok pn
        ∧ (Some a = left pn ↔ slot_of (f :: c) = LeftSlot (frame_loc f)).
Proof.
  intros (Hrep & _ & Hnd) Ht.
  apply rep_plug in Hrep as [[Hf _] _].
  rewrite addrs_plug_perm in Hnd.
  apply NoDup_app in Hnd as (Hndc & Hdisj & _).
  destruct f as [p bp kp r|l p bp kp]; simpl in *; destruct Hf as [-> _];
    eexists; (split; [done|]); simpl; [by rewrite Ht|].
  split; [|done]. intros Heq. exfalso.
  apply (Hdisj a).
  - apply elem_of_ctx_addrs_cons. right; left. simpl. by apply root_of_addrs.
  - by apply root_of_addrs.
Qed.

Lemma TREE_SIDEOF_focus c l a b k r st :
  holds st (plug c (Node l a b k r)) →
  TREE_SIDEOF st (Some a) = Ok (side_of c).
Proof.
  intros Hh. unfold TREE_SIDEOF. rewrite (load_focus _ _ _ _ _ _ _ Hh).
  destruct c as [|f c]; [done|].
  destruct (load_parent _ _ _ a _ Hh eq_refl) as (pn & Hp & Hpn).
  cbn [parent parent_of mbind result_bind]. rewrite Hp. simpl in *.
  destruct f; simpl in *; case_decide as Hd; try done.
  - by destruct Hd; apply Hpn.
  - by apply Hpn in Hd.
Qed.

Lemma TREE_PARENTPTR_focus c l a b k r st :
  holds st (plug c (Node l a b k r)) →
  TREE_PARENTPTR st (Some a) = Ok (slot_of c).
Proof.
  intros Hh. unfold TREE_PARENTPTR. rewrite (load_focus _ _ _ _ _ _ _ Hh).
  destruct c as [|f c]; [done|].
  destruct (load_parent _ _ _ a _ Hh eq_refl) as (pn & Hp & Hpn).
  cbn [parent parent_of mbind result_bind]. rewrite Hp. simpl in *.
  destruct f; simpl in *; case_decide as Hd; try done.
  - by destruct Hd; apply Hpn.
  - by apply Hpn in Hd.
Qed.

Lemma int_val_small z : INT_MIN <= z <= INT_MAX → int_val z = Ok z.
Proof. unfold int_val, in_int. intros H. by replace (_ && _) with true by lia. Qed.

(** One call of [tree_rebalance] on the node in focus, when the two
    assertions at its head hold. *)
Lemma rebalance_unfold c l a b k r fuel st bf :
  holds st (plug c (Node l a b k r)) →
  -1 <= b <= 1 → bf = 1 ∨ bf = -1 →
  let st1 := store st a (mk_node (root_of l) (root_of r) (parent_of c) (b + bf) k) in
  tree_rebalance (S fuel) st (Some a) bf
  = ((if decide (b + bf = 0) then Ok st1
      else if decide (b + bf = bf) then
        match c with
        | [] => Ok st1
        | f :: _ => tree_rebalance fuel st1 (Some (frame_loc f)) (side_of c)
        end
      else tree_rotate (slot_of c) st1) ≫= check_node (Some a)).
Proof.
  intros Hh Hb Hbf st1.
  pose proof (holds_update_focus _ _ _ _ _ _ (b + bf) k _ Hh) as Hh1.
  fold st1 in Hh1.
  assert (Hl1 : load st1 (Some a)
                 = Ok (mk_node (root_of l) (root_of r) (parent_of c) (b + bf) k)).
  { simpl. by rewrite lookup_insert_eq. }
  pose proof (TREE_SIDEOF_focus _ _ _ _ _ _ _ Hh1) as Hside.
  pose proof (TREE_PARENTPTR_focus _ _ _ _ _ _ _ Hh1) as Hslot.
  cbn [tree_rebalance]. unfold update. rewrite (load_focus _ _ _ _ _ _ _ Hh).
  cbn [mbind result_bind imbalance].
  replace ((b =? 1) || (b =? 0) || (b =? -1)) with true by lia.
  replace ((bf =? 1) || (bf =? -1)) with true by lia.
  rewrite (int_val_small (b + bf)) by (unfold INT_MIN, INT_MAX; lia).
  cbn [c_assert mbind result_bind]. unfold with_imbalance.
  cbn [left right parent key]. fold st1. rewrite Hl1.
  cbn [mbind result_bind imbalance parent].
  replace ((b + bf =? 0) || (b + bf =? bf) || (b + bf =? 2 * bf)) with true by lia.
  cbn [c_assert mbind result_bind]. fold (check_node (Some a)).
  f_equal.
  destruct (decide (b + bf = 0)) as [H0|H0].
  { by replace ((b + bf) * bf) with 0 by lia. }
  destruct (decide (b + bf = bf)) as [H1|H1].
  { replace ((b + bf) * bf) with 1 by lia.
    destruct c as [|f c]; [done|]. cbn [parent_of]. by rewrite Hside. }
  replace ((b + bf) * bf) with 2 by lia.
  by rewrite Hslot.
Qed.

Lemma rebalance_assert c l a b k r fuel st bf :
  holds st (plug c (Node l a b k r)) →
  ¬ (-1 <= b <= 1 ∧ (bf = 1 ∨ bf = -1)) →
  tree_rebalance (S fuel) st (Some a) bf = AssertFail.
Proof.
  intros Hh Hn. cbn [tree_rebalance]. rewrite (load_focus _ _ _ _ _ _ _ Hh).
  cbn [mbind result_bind imbalance].
  destruct ((b =? 1) || (b =? 0) || (b =? -1)) eqn:E1; [|done].
  destruct ((bf =? 1) || (bf =? -1)) eqn:E2; [|done].
  destruct Hn. lia.
Qed.

Lemma check_node_Ok p st st' : check_node p st = Ok st' → st' = st.
Proof.
  unfold check_node. destruct (load st p); simpl; [|done..].
  destruct (c_assert _); simpl; congruence.
Qed.

Lemma finished_check_node p st : finished (check_node p st).
Proof. unfold check_node. finish. Qed.

Lemma kept_check c t st r p :
  kept c t st r → kept c t st (r ≫= check_node p).
Proof.
  intros [Hf Hk]. split.
  - apply finished_bind; [done|]. intros. apply finished_check_node.
  - intros st' Hr. destruct r as [st1| | |]; simpl in Hr; try done.
    apply check_node_Ok in Hr as ->. by apply Hk.
Qed.

Lemma kept_plug c t st st1 r :
  freed st1 = freed st →
  kept c t st1 r → kept [] (plug c t) st r.
Proof.
  intros Hfr [Hf Hk]. split; [done|]. intros st' Hr.
  destruct (Hk _ Hr) as (t' & Hh & Hi & Hf').
  exists (plug c t'). split_and!; [done| |congruence].
  by rewrite !inorder_plug, Hi.
Qed.

Lemma kept_stored c l a b k r b' st :
  holds st (plug c (Node l a b k r)) →
  kept [] (plug c (Node l a b k r)) st
    (Ok (store st a (mk_node (root_of l) (root_of r) (parent_of c) b' k))).
Proof.
  intros Hh. split; [done|]. intros ? [= <-].
  exists (plug c (Node l a b' k r)). split_and!; [|by rewrite !inorder_plug|done].
  by apply (holds_update_focus _ _ _ b k).
Qed.

Lemma rebalance_kept c : ∀ l a b k r fuel st bf,
  holds st (plug c (Node l a b k r)) → (length c < fuel)%nat →
  kept [] (plug c (Node l a b k r)) st (tree_rebalance fuel st (Some a) bf).
Proof.
  induction c as [|f c IH]; intros l a b k r fuel st bf Hh Hfuel;
    (destruct fuel as [|fuel]; [simpl in Hfuel; lia|]);
    (destruct (decide (-1 <= b <= 1 ∧ (bf = 1 ∨ bf = -1))) as [[Hb Hbf]|Hn];
     [|by rewrite (rebalance_assert _ _ _ _ _ _ _ _ _ Hh Hn)]);
    rewrite (rebalance_unfold _ _ _ _ _ _ _ _ _ Hh Hb Hbf);
    apply kept_check;
    pose proof (holds_update_focus _ _ _ _ _ _ (b + bf) k _ Hh) as Hh1;
    pose proof (kept_stored _ _ _ _ _ _ (b + bf) _ Hh) as Hst1;
    set (st1 := store st a _) in *.
  - repeat case_decide; try done.
    apply (kept_plug [] _ st st1); [done|].
    eapply rotate_kept in Hh1. destruct Hh1 as [? Hk]. split; [done|].
    intros st' Hr. destruct (Hk _ Hr) as (t' & ? & ? & ?). by exists t'.
  - repeat case_decide; try done.
    + destruct f as [p bp kp rs|ls p bp kp]; simpl in Hh1, Hfuel |- *;
        [destruct (IH _ _ _ _ _ fuel st1 (-1) Hh1) as [Hf Hk]; [lia|]
        |destruct (IH _ _ _ _ _ fuel st1 1 Hh1) as [Hf Hk]; [lia|]];
        (split; [done|]); intros st' Hr; destruct (Hk _ Hr) as (t' & ? & ? & ?);
        exists t'; split_and!; try done;
        match goal with H : inorder t' = _ |- _ => rewrite H end;
        by rewrite !inorder_plug.
    + apply (kept_plug (f :: c) _ st st1); [done|].
      eapply rotate_kept in Hh1. destruct Hh1 as [? Hk]. split; [done|].
      intros st' Hr. destruct (Hk _ Hr) as (t' & ? & ? & ?). exists t'.
      split_and!; try done.
Qed.

(** ** The search loop *)

Lemma put_loop_path t : ∀ c fuel st key0,
  holds st (plug c t) → (height t < fuel)%nat →
  tree_put_loop fuel st key0 (slot_of c) (parent_of c)
  = Ok ((λ c', (slot_of c', parent_of c')) <$> find_path key0 t c).
Proof.
  induction t as [|l IHl a b k r IHr]; intros c fuel st key0 Hh Hfuel;
    (destruct fuel as [|fuel]; [simpl in Hfuel; lia|]);
    pose proof Hh as (Hrep & Hroot & _);
    apply rep_plug in Hrep as [Hc Ht];
    cbn [tree_put_loop];
    (rewrite (read_slot_ctx st c _ Hc); [|by intros ->]); simpl; [done|].
  destruct Ht as (-> & _). simpl in Hfuel |- *.
  destruct (k <? key0); [|destruct (key0 <? k); [|done]].
  - apply (IHr (InRight l a b k :: c)); [done|lia].
  - apply (IHl (InLeft a b k r :: c)); [done|lia].
Qed.

Lemma find_path_plug key0 t : ∀ c c',
  find_path key0 t c = Some c' → plug c' Nil = plug c t.
Proof.
  induction t as [|l IHl a b k r IHr]; intros c c'; simpl.
  - by intros [= ->].
  - repeat case_match; try done; intros H'.
    + by rewrite (IHr _ _ H').
    + by rewrite (IHl _ _ H').
Qed.

Lemma find_path_None key0 t : ∀ c, find_path key0 t c = None → key0 ∈ keys t.
Proof.
  unfold keys. induction t as [|l IHl a b k r IHr]; intros c; simpl; [done|].
  rewrite fmap_app, fmap_cons. simpl.
  destruct (Z.ltb_spec k key0); [|destruct (Z.ltb_spec key0 k)].
  - intros ?%IHr. set_solver.
  - intros ?%IHl. set_solver.
  - intros _. assert (key0 = k) as -> by lia. set_solver.
Qed.

Lemma find_path_brackets key0 t : ∀ c c',
  StronglySorted Z.lt (keys t) → brackets key0 c →
  find_path key0 t c = Some c' → brackets key0 c'.
Proof.
  unfold keys, brackets.
  induction t as [|l IHl a b k r IHr]; intros c c'; simpl.
  - by intros _ ? [= <-].
  - rewrite fmap_app, fmap_cons. simpl.
    intros (Hlr & Hl & (Hkr & Hr)%StronglySorted_cons)%StronglySorted_app [Hb Ha].
    destruct (Z.ltb_spec k key0); [|destruct (Z.ltb_spec key0 k); [|done]].
    + apply IHr; [done|]. simpl. split; [|done].
      rewrite !fmap_app, !Forall_app. split_and!; [done| |by repeat constructor].
      apply Forall_forall. intros x Hx.
      assert (x < k); [|lia]. apply Hlr; [done|]. set_solver+.
    + apply IHl; [done|]. simpl. rewrite app_nil_r. split; [done|].
      rewrite !fmap_app, Forall_cons, !Forall_app. split_and!; [done| |done].
      apply Forall_forall. intros x Hx. rewrite Forall_forall in Hkr.
      specialize (Hkr x Hx). simpl. lia.
Qed.

Lemma find_path_length key0 t : ∀ c c',
  find_path key0 t c = Some c' → (length c' ≤ length c + height t)%nat.
Proof.
  induction t as [|l IHl a b k r IHr]; intros c c'; simpl.
  - intros [= ->]. lia.
  - repeat case_match; try done; intros H'.
    + apply IHr in H'. simpl in H'. lia.
    + apply IHl in H'. simpl in H'. lia.
Qed.

Lemma keys_node l a b k r : keys (Node l a b k r) = keys l ++ k :: keys r.
Proof. unfold keys; simpl. by rewrite fmap_app. Qed.

(** The ordering of a search tree says that its keys increase in order. *)
Lemma bst_sorted t : bst t ↔ StronglySorted Z.lt (keys t).
Proof.
  induction t as [|l IHl a b k r IHr]; simpl.
  - split; [constructor|done].
  - rewrite keys_node, StronglySorted_app, StronglySorted_cons, IHl, IHr.
    rewrite !Forall_forall. split.
    + intros (Hl & Hr & ? & ?). split_and!; try done.
      intros x1 x2 H1 [->|H2]%elem_of_cons; [by apply Hl|].
      specialize (Hl _ H1). specialize (Hr _ H2). lia.
    + intros (Hlr & ? & Hr & ?). split_and!; try done.
      intros x Hx. apply Hlr; [done|]. by left.
Qed.

Lemma plug_app c1 c2 t : plug (c1 ++ c2) t = plug c2 (plug c1 t).
Proof. revert t; induction c1 as [|f c1 IH]; intros t; simpl; [done|apply IH]. Qed.

(** Every node of a tree can be put in focus. *)
Lemma focus_node t a :
  a ∈ addrs t → ∃ c l b k r, t = plug c (Node l a b k r).
Proof.
  induction t as [|l IHl x b k r IHr]; [by intros ?%elem_of_nil|].
  rewrite addrs_node.
  intros [Hl|[->|Hr]%elem_of_cons]%elem_of_app.
  - destruct (IHl Hl) as (c & l' & b' & k' & r' & ->).
    exists (c ++ [InLeft x b k r]), l', b', k', r'. by rewrite plug_app.
  - by exists [], l, b, k, r.
  - destruct (IHr Hr) as (c & l' & b' & k' & r' & ->).
    exists (c ++ [InRight l x b k]), l', b', k', r'. by rewrite plug_app.
Qed.

Lemma split_unique (l1 l2 l1' l2' : list (loc * Z)) a x y :
  NoDup (l1 ++ (a, x) :: l2).*1 →
  l1 ++ (a, x) :: l2 = l1' ++ (a, y) :: l2' →
  l1 = l1' ∧ x = y ∧ l2 = l2'.
Proof.
  revert l1'; induction l1 as [|p l1 IH]; intros l1' Hnd Heq.
  - destruct l1' as [|p' l1']; simpl in *; [by simplify_eq|].
    injection Heq as <- ->. apply NoDup_cons in Hnd as [Hnd _].
    destruct Hnd. rewrite fmap_app, fmap_cons. set_solver+.
  - destruct l1' as [|p' l1']; simpl in *.
    + injection Heq as -> Heq. apply NoDup_cons in Hnd as [Hnd _].
      destruct Hnd. rewrite fmap_app, fmap_cons. set_solver+.
    + injection Heq as -> Heq. apply NoDup_cons in Hnd as [_ Hnd].
      destruct (IH _ Hnd Heq) as (-> & -> & ->). done.
Qed.

(** The assignment [newNode->key = key] at the end of [tree_put]. *)
Lemma set_key_holds st t a key0 l1 l2 x :
  holds st t → inorder t = l1 ++ (a, x) :: l2 →
  ∃ st' t', update st (Some a) (with_key key0) = Ok st'
            ∧ holds st' t' ∧ inorder t' = l1 ++ (a, key0) :: l2
            ∧ freed st' = freed st.
Proof.
  intros Hh Hi.
  assert (Ha : a ∈ addrs t).
  { unfold addrs. rewrite Hi, fmap_app, fmap_cons. set_solver+. }
  destruct (focus_node _ _ Ha) as (c & l & b & k & r & ->).
  pose proof (holds_update_focus _ _ _ _ _ _ b key0 _ Hh) as Hh'.
  eexists _, _. split_and!; [|exact Hh'| |done].
  - unfold update. by rewrite (load_focus _ _ _ _ _ _ _ Hh).
  - assert (E : ∀ kk, inorder (plug c (Node l a b kk r))
                      = (before c ++ inorder l) ++ (a, kk) :: (inorder r ++ after c)).
    { intros. rewrite inorder_plug. simpl. by rewrite <- !app_assoc. }
    rewrite E in Hi |- *.
    apply split_unique in Hi as (<- & _ & <-); [done|].
    rewrite <- E. by destruct Hh as (_ & _ & Hnd).
Qed.

(** ** Insertion *)

Lemma fresh_not_in st t a : holds st t → heap st !! a = None → a ∉ addrs t.
Proof.
  intros (Hrep & _) Hfresh Hin.
  destruct (rep_is_Some _ _ _ _ Hrep Hin) as [n Hn]. congruence.
Qed.

Lemma attach_holds f c a st :
  holds st (plug (f :: c) Nil) → heap st !! a = None →
  ∃ st1,
    tree_attach st (Some (frame_loc f))
      (bool_decide (slot_of (f :: c) = RightSlot (frame_loc f))) a = Ok st1
    ∧ holds st1 (plug (f :: c) (Node Nil a 0 0 Nil))
    ∧ heap st1 !! a = Some (init_node (Some (frame_loc f)))
    ∧ freed st1 = freed st.
Proof.
  intros Hh Hfresh. pose proof (fresh_not_in _ _ _ Hh Hfresh) as Ha.
  destruct Hh as (Hrep & Hroot & Hnd).
  apply rep_plug in Hrep as [[[Hf Hs] Hc] _].
  rewrite addrs_plug_perm, app_nil_r in Ha, Hnd.
  assert (Hnd' : NoDup (addrs (plug (f :: c) (Node Nil a 0 0 Nil)))).
  { rewrite addrs_plug_perm. apply NoDup_app. split_and!; [done| |].
    - intros x Hx [->|[]%elem_of_nil]%elem_of_cons. done.
    - apply NoDup_singleton. }
  rewrite elem_of_ctx_addrs_cons in Ha.
  rewrite ctx_addrs_cons in Hnd. apply NoDup_cons in Hnd as [Hp Hnd].
  rewrite not_elem_of_app in Hp.
  set (p := frame_loc f) in *.
  assert (Hpa : p ≠ a) by (intros Heq; apply Ha; by left).
  set (h1 := <[p := frame_node f (Some a) (parent_of c)]>
               (<[a := init_node (Some p)]> (heap st))).
  assert (Hfar : ∀ x, x ∈ addrs (sibling f) ∨ x ∈ ctx_addrs c →
                      h1 !! x = heap st !! x).
  { intros x Hx. unfold h1. rewrite !lookup_insert_ne; [done|..]; intros Heq;
      subst x; tauto. }
  exists (mk_state h1 (the_tree st) (freed st)). split_and!; try done.
  - unfold tree_attach, update, load, store; simpl.
    rewrite lookup_insert_ne, Hf by done. subst h1 p.
    destruct f; simpl; rewrite ?bool_decide_eq_false_2, ?bool_decide_eq_true_2 by done;
      done.
  - split_and!; [|by simpl; rewrite Hroot; apply root_of_plug_cons|done].
    apply (rep_plug _ (f :: c)). cbn [rep_ctx rep root_of heap parent_of].
    fold p. split_and!; try done.
    + apply lookup_insert_eq.
    + eapply rep_ext; [|done]. intros; apply Hfar; tauto.
    + eapply rep_ctx_ext; [|done]. intros; apply Hfar; tauto.
    + unfold h1. by rewrite lookup_insert_ne, lookup_insert_eq by done.
  - simpl. unfold h1. by rewrite lookup_insert_ne, lookup_insert_eq by done.
Qed.

(** What [tree_put] does to a tree held by the state: nothing when the key
    is met or the allocation fails; otherwise, if it returns, the new node
    with the key sits between the keys left and right of the path. *)
Lemma tree_put_spec st T key0 m fuel :
  holds st T → (height T < fuel)%nat →
  (∀ a, m = Some a → heap st !! a = None) →
  match find_path key0 T [] with
  | None => tree_put fuel m st key0 = Ok st
  | Some c =>
      match m with
      | None => tree_put fuel m st key0 = Ok st
      | Some a =>
          finished (tree_put fuel m st key0)
          ∧ ∀ st', tree_put fuel m st key0 = Ok st' →
              ∃ T', holds st' T'
                    ∧ inorder T' = before c ++ (a, key0) :: after c
                    ∧ freed st' = freed st
      end
  end.
Proof.
  intros Hh Hfuel Hfresh. unfold tree_put.
  pose proof (put_loop_path T [] fuel st key0 Hh Hfuel) as Hl.
  simpl in Hl. rewrite Hl. clear Hl.
  destruct (find_path key0 T []) as [c|] eqn:Hp; simpl; [|done].
  pose proof (find_path_plug _ _ _ _ Hp) as HT.
  pose proof (find_path_length _ _ _ _ Hp) as Hlen. simpl in HT, Hlen.
  destruct c as [|f c].
  - simpl in HT. subst T. destruct Hh as (_ & Hroot & _).
    destruct st as [h [rt] fr]; simpl in *; subst rt.
    destruct m as [a|]; [|done]. unfold tree_create_root, update; simpl.
    rewrite lookup_insert_eq. simpl. split; [done|]. intros st' [= <-].
    exists (Node Nil a 0 key0 Nil). split_and!; try done.
    split_and!; simpl; try done.
    + unfold store, with_key; simpl. by rewrite lookup_insert_eq.
    + apply NoDup_singleton.
  - destruct m as [a|]; [|done]. subst T.
    destruct (attach_holds _ _ _ _ Hh (Hfresh _ eq_refl)) as (st1 & Hat & Hh1 & Ha1 & Hf1).
    cbn [parent_of tree_insert_under mbind result_bind]. rewrite Hat.
    cbn [mbind result_bind].
    set (bf := if bool_decide _ then 1 else -1).
    assert (Hk : kept [] (plug (f :: c) (Node Nil a 0 0 Nil)) st1
                   (tree_rebalance fuel st1 (Some (frame_loc f)) bf)).
    { destruct f as [p b k r|l p b k];
        [apply (rebalance_kept c (Node Nil a 0 0 Nil) p b k r)
        |apply (rebalance_kept c l p b k (Node Nil a 0 0 Nil))];
        simpl in *; try done; lia. }
    destruct Hk as [Hfin Hk]. split.
    + apply finished_bind.
      * apply finished_bind; [done|]. by intros.
      * intros [? ?] _. finish.
    + intros st' Hr.
      destruct (tree_rebalance fuel st1 _ bf) as [st2| | |]; try done.
      destruct (Hk _ eq_refl) as (T2 & Hh2 & Hi2 & Hf2).
      rewrite inorder_plug in Hi2. simpl in Hr, Hi2.
      destruct (set_key_holds _ _ _ key0 _ _ _ Hh2 Hi2) as (st3 & T3 & Hu & Hh3 & Hi3 & Hf3).
      rewrite Hu in Hr. injection Hr as <-.
      exists T3. split_and!; [done|done|congruence].
Qed.

Lemma find_path_absent key0 t : ∀ c c',
  bst t → find_path key0 t c = Some c' → key0 ∉ keys t.
Proof.
  induction t as [|l IHl a b k r IHr]; intros c c'; simpl.
  - intros _ _ []%elem_of_nil.
  - intros (Hl & Hr & Hbl & Hbr). rewrite keys_node.
    rewrite Forall_forall in Hl, Hr.
    destruct (Z.ltb_spec k key0); [|destruct (Z.ltb_spec key0 k); [|done]];
      intros Hp [Hin|[->|Hin]%elem_of_cons]%elem_of_app; try lia.
    + specialize (Hl _ Hin). lia.
    + by eapply IHr.
    + by eapply IHl.
    + specialize (Hr _ Hin). lia.
Qed.

Lemma find_path_inorder key0 t c :
  find_path key0 t [] = Some c → inorder t = before c ++ after c.
Proof.
  intros Hp%find_path_plug. simpl in Hp. by rewrite <- Hp, inorder_plug.
Qed.

Lemma size_inorder t : size t = length (inorder t).
Proof.
  induction t as [|l IHl a b k r IHr]; simpl; [done|].
  rewrite length_app. simpl. lia.
Qed.

Lemma sorted_insert (l1 l2 : list Z) x :
  StronglySorted Z.lt (l1 ++ l2) →
  Forall (λ y, y < x) l1 → Forall (λ y, x < y) l2 →
  StronglySorted Z.lt (l1 ++ x :: l2).
Proof.
  rewrite !StronglySorted_app, StronglySorted_cons, !Forall_forall.
  intros (H12 & H1 & H2) Hl Hr. split_and!; try done.
  intros y z Hy [->|Hz]%elem_of_cons; [by apply Hl|by apply H12].
Qed.

(** The tree after a call of [tree_put] that returned. *)
Lemma tree_put_result st T key0 m fuel st' :
  holds st T → bst T → (height T < fuel)%nat →
  (∀ a, m = Some a → heap st !! a = None) →
  tree_put fuel m st key0 = Ok st' →
  (st' = st ∧ (key0 ∈ keys T ∨ m = NULL))
  ∨ ((key0 ∉ keys T)
     ∧ ∃ a l1 l2 T', m = Some a ∧ inorder T = l1 ++ l2
         ∧ holds st' T' ∧ inorder T' = l1 ++ (a, key0) :: l2 ∧ bst T'
         ∧ freed st' = freed st).
Proof.
  intros Hh Hb Hfuel Hfresh Hr.
  pose proof (tree_put_spec st T key0 m fuel Hh Hfuel Hfresh) as Hs.
  destruct (find_path key0 T []) as [c|] eqn:Hp.
  - destruct m as [a|]; [|left; split; [congruence|by right]].
    destruct Hs as [_ Hs]. destruct (Hs _ Hr) as (T' & Hh' & Hi' & Hf').
    right. split; [by eapply find_path_absent|].
    exists a, (before c), (after c), T'. split_and!; try done.
    + by apply (find_path_inorder key0).
    + apply bst_sorted. unfold keys. rewrite Hi', fmap_app, fmap_cons. simpl.
      apply bst_sorted in Hb.
      assert (Hbr : brackets key0 c).
      { eapply (find_path_brackets key0 T []); [done| |done]. by split. }
      destruct Hbr. apply sorted_insert; try done.
      revert Hb. unfold keys. by rewrite (find_path_inorder _ _ _ Hp), fmap_app.
  - left. split; [congruence|]. left. by eapply find_path_None.
Qed.

(** ** Concrete runs *)

Ltac solve_holds :=
  split_and!; [simpl; split_and!; try done; vm_compute; reflexivity
              |vm_compute; reflexivity
              |apply (@bool_decide_unpack _ (NoDup_dec _)); vm_compute; exact I].

Lemma st_12_4_run : put_all 3 allocs [12; 4] empty_state = Ok st_12_4.
Proof. vm_compute. reflexivity. Qed.

Lemma st_12_4_holds : holds st_12_4 T_12_4.
Proof. solve_holds. Defined.

Lemma st_12_4_put_5 :
  tree_put 3 (Some 3%positive) st_12_4 5
  = Ok (store st_rotated 3 (mk_node (Some 2%positive) (Some 1%positive) NULL 0 5)).
Proof. vm_compute. reflexivity. Qed.

Lemma st_main_holds : holds st_main T_main.
Proof. solve_holds. Qed.

(** The run of [main]: the nine insertions leave a search tree of the eight
    distinct keys with the key 5 at the root and every balance factor
    right, and the destruction releases its nodes in post-order. *)
Lemma main_run :
  put_all 4 allocs [12; 4; 5; 6; 2; 8; 10; 2; 1] empty_state = Ok st_main
  ∧ holds st_main T_main
  ∧ keys T_main = [1; 2; 4; 5; 6; 8; 10; 12]
  ∧ avl T_main
  ∧ main 4 allocs
    = Ok (mk_state ∅ (mk_tree (Some 3%positive))
            [9; 2; 5; 4; 7; 1; 6; 3]%positive).
Proof.
  split_and!.
  - vm_compute. reflexivity.
  - exact st_main_holds.
  - reflexivity.
  - simpl. split_and!; lia.
  - vm_compute. reflexivity.
Qed.

(** C4: for every tree with the search-tree ordering and every key, the
    call of [tree_put] comes to an end, and when it returns (whether or not
    it rotated) every node has only smaller keys in its left subtree and
    only larger keys in its right subtree. *)
Theorem tree_put_keeps_bst st T key0 m fuel :
  holds st T → bst T → (height T < fuel)%nat →
  (∀ a, m = Some a → heap st !! a = None) →
  finished (tree_put fuel m st key0)
  ∧ ∀ st', tree_put fuel m st key0 = Ok st' → ∃ T', holds st' T' ∧ bst T'.
Proof.
  intros Hh Hb Hfuel Hfresh. split.
  - pose proof (tree_put_spec st T key0 m fuel Hh Hfuel Hfresh) as Hs.
    destruct (find_path key0 T []); [destruct m|]; try (by rewrite Hs).
    by destruct Hs.
  - intros st' Hr.
    destruct (tree_put_result _ _ _ _ _ _ Hh Hb Hfuel Hfresh Hr)
      as [[-> _]|(_ & a & l1 & l2 & T' & _ & _ & Hh' & _ & Hb' & _)]; eauto.
Qed.

Lemma tree_put_keeps_bst_witness :
  finished (tree_put 3 (Some 3%positive) st_12_4 5)
  ∧ ∀ st', tree_put 3 (Some 3%positive) st_12_4 5 = Ok st' →
           ∃ T', holds st' T' ∧ bst T'.
Proof.
  apply (tree_put_keeps_bst st_12_4 T_12_4 5 (Some 3%positive) 3%nat).
  - exact st_12_4_holds.
  - simpl. repeat constructor; lia.
  - simpl. lia.
  - intros a [= <-]. vm_compute. reflexivity.
Defined.




(** When the allocation fails, [tree_put] returns and the state is the one
    before the call, so the tree is the same valid tree and no node was
    made; with a successful allocation a call that returns has the key in
    the tree, so a failed allocation is the only way for [tree_put] to
    return without the key being in the tree. *)
Theorem tree_put_alloc_failure st T key0 fuel :
  holds st T → (height T < fuel)%nat →
  tree_put fuel NULL st key0 = Ok st
  ∧ (bst T → ∀ a st', heap st !! a = None →
       tree_put fuel (Some a) st key0 = Ok st' →
       ∃ T', holds st' T' ∧ key0 ∈ keys T').
Proof.
  intros Hh Hfuel. split.
  - pose proof (tree_put_spec st T key0 NULL fuel Hh Hfuel) as Hs.
    destruct (find_path key0 T []); by apply Hs.
  - intros Hb a st' Hfresh Hr.
    assert (Hf : ∀ a', Some a = Some a' → heap st !! a' = None)
      by by intros ? [= <-].
    destruct (tree_put_result _ _ _ _ _ _ Hh Hb Hfuel Hf Hr)
      as [[-> [?|?]]|(_ & a' & l1 & l2 & T' & _ & Hi & Hh' & Hi' & _)];
      try done.
    + by exists T.
    + exists T'. split; [done|]. unfold keys.
      rewrite Hi', fmap_app, fmap_cons. set_solver+.
Qed.

Lemma tree_put_alloc_failure_witness :
  tree_put 3 NULL st_12_4 5 = Ok st_12_4
  ∧ (bst T_12_4 → ∀ a st', heap st_12_4 !! a = None →
       tree_put 3 (Some a) st_12_4 5 = Ok st' →
       ∃ T', holds st' T' ∧ 5 ∈ keys T').
Proof.
  apply (tree_put_alloc_failure st_12_4 T_12_4 5 3%nat).
  - exact st_12_4_holds.
  - simpl. lia.
Defined.

(** ** Destruction *)

Lemma load_Some st a n : heap st !! a = Some n → load st (Some a) = Ok n.
Proof. intros H. simpl. by rewrite H. Qed.

Lemma delete_child_released t : ∀ fuel st par,
  rep (heap st) par t → NoDup (addrs t) → (height t ≤ fuel)%nat →
  ∃ st', delete_child fuel st t = Ok st' ∧ released st t st'.
Proof.
  induction t as [|l IHl a b k r IHr]; intros fuel st par Hrep Hnd Hfuel.
  - exists st. split; [done|]. split_and!; [by simpl; rewrite app_nil_r|done|].
    intros x. case_decide as H; [by apply elem_of_nil in H|done].
  - destruct fuel as [|fuel]; [simpl in Hfuel; lia|].
    destruct Hrep as (Ha & Hl & Hr). rewrite addrs_node in Hnd.
    apply NoDup_app in Hnd as (Hndl & Hdisj & [Har Hndr]%NoDup_cons).
    assert (Hal : a ∉ addrs l).
    { intros Hin. apply (Hdisj _ Hin). by left. }
    destruct (IHl fuel st _ Hl Hndl) as (st1 & H1 & Hf1 & Ht1 & Hh1);
      [simpl in Hfuel; lia|].
    assert (Ha1 : heap st1 !! a = heap st !! a).
    { by rewrite Hh1, decide_False. }
    destruct (IHr fuel st1 (Some a)) as (st2 & H2 & Hf2 & Ht2 & Hh2);
      [|done|simpl in Hfuel; lia|].
    { eapply rep_ext; [|done]. intros x Hx. rewrite Hh1, decide_False; [done|].
      intros Hin. apply (Hdisj _ Hin). by right. }
    unfold delete_child in *. cbn [root_of tree_delete_recursive].
    rewrite (load_Some _ _ _ Ha). cbn [mbind result_bind left right].
    rewrite H1. cbn [mbind result_bind].
    rewrite (load_Some st1 a _ (eq_trans Ha1 Ha)).
    cbn [mbind result_bind left right]. rewrite H2. cbn [mbind result_bind].
    unfold free. rewrite Hh2, decide_False, Ha1, Ha by done.
    eexists. split; [done|]. split_and!; simpl.
    + by rewrite Hf2, Hf1, <- !app_assoc.
    + congruence.
    + intros x. rewrite addrs_node. destruct (decide (x = a)) as [->|Hne].
      * rewrite lookup_delete_eq, decide_True; [done|]. set_solver+.
      * rewrite lookup_delete_ne, Hh2, Hh1 by done.
        repeat case_decide; try done; set_solver.
Qed.

Lemma st_one_run : tree_put 1 (Some 1%positive) empty_state 7 = Ok st_one.
Proof. vm_compute. reflexivity. Qed.

Lemma st_one_holds : holds st_one T_one.
Proof. solve_holds. Defined.

(** C1, as the code has it: [tree_delete] releases every node of the tree,
    each after the whole of its left subtree and then the whole of its
    right subtree, so that no node of the tree is left in the heap; the
    root field of the tree is not written and keeps the address of the
    released root; on an empty tree nothing happens. *)
Theorem tree_delete_postorder st T fuel :
  holds st T → (height T < fuel)%nat →
  ∃ st', tree_delete fuel st = Ok st'
         ∧ freed st' = freed st ++ postorder T
         ∧ (∀ x, heap st' !! x
                 = if decide (x ∈ addrs T) then None else heap st !! x)
         ∧ the_tree st' = the_tree st
         ∧ (T = Nil → st' = st).
Proof.
  intros (Hrep & Hroot & Hnd) Hfuel.
  destruct (delete_child_released T fuel st NULL Hrep Hnd) as (st' & Hd & Hf & Ht & Hh);
    [lia|].
  exists st'. split_and!; try done.
  - unfold tree_delete. rewrite Hroot. exact Hd.
  - intros ->. by injection Hd.
Qed.

Lemma tree_delete_postorder_witness :
  ∃ st', tree_delete 3 st_12_4 = Ok st'
         ∧ freed st' = freed st_12_4 ++ postorder T_12_4
         ∧ (∀ x, heap st' !! x
                 = if decide (x ∈ addrs T_12_4) then None
                   else heap st_12_4 !! x)
         ∧ the_tree st' = the_tree st_12_4
         ∧ (T_12_4 = Nil → st' = st_12_4).
Proof.
  apply (tree_delete_postorder st_12_4 T_12_4 3%nat).
  - exact st_12_4_holds.
  - simpl. lia.
Defined.

(** The root field is not empty after the destruction of a tree of one
    node. *)
Lemma tree_delete_root_dangles :
  ¬ (∀ st T fuel st',
       holds st T → (height T < fuel)%nat → tree_delete fuel st = Ok st' →
       root (the_tree st') = NULL).
Proof.
  intros H.
  assert (Hd : tree_delete 2 st_one
               = Ok (mk_state ∅ (mk_tree (Some 1%positive)) [1%positive]))
    by (vm_compute; reflexivity).
  assert (Hh : (height T_one < 2)%nat) by (simpl; lia).
  specialize (H _ _ _ _ st_one_holds Hh Hd). discriminate H.
Qed.

(** ** Rotation *)

(** C2, as the code has it: on a slot whose node has an imbalance other
    than 2 and -2, [tree_rotate] returns without an assertion and leaves
    the state as it was. *)
Theorem rotate_other_imbalance s st a n :
  read_slot st s = Ok (Some a) → heap st !! a = Some n →
  imbalance n ≠ 2 → imbalance n ≠ -2 →
  tree_rotate s st = Ok st.
Proof.
  intros Hs Ha H2 Hm2. unfold tree_rotate.
  rewrite Hs. cbn [mbind result_bind]. rewrite (load_Some _ _ _ Ha).
  cbn [mbind result_bind].
  destruct (Z.eqb_spec (imbalance n) 2); [done|].
  by destruct (Z.eqb_spec (imbalance n) (-2)).
Qed.

Lemma rotate_other_imbalance_witness : tree_rotate RootSlot st_one = Ok st_one.
Proof.
  apply (rotate_other_imbalance RootSlot st_one 1%positive
           (mk_node NULL NULL NULL 0 7)).
  - reflexivity.
  - vm_compute. reflexivity.
  - simpl. lia.
  - simpl. lia.
Defined.

(** No assertion ends a rotation of a balanced node. *)
Lemma rotate_does_not_abort :
  ¬ (∀ s st a n,
       read_slot st s = Ok (Some a) → heap st !! a = Some n →
       imbalance n ≠ 2 → imbalance n ≠ -2 →
       tree_rotate s st = AssertFail).
Proof.
  intros H.
  assert (Hr : tree_rotate RootSlot st_one = AssertFail).
  { apply (H RootSlot st_one 1%positive (mk_node NULL NULL NULL 0 7));
      [reflexivity|vm_compute; reflexivity|simpl; lia..]. }
  vm_compute in Hr. discriminate Hr.
Qed.

(** C7: the choice of rotations in [tree_rotate].  For a node of imbalance
    2, a right child of negative imbalance is first rotated right in the
    right slot of the node, then the node is rotated left in its own slot;
    otherwise the node alone is rotated left.  For imbalance -2 the same
    holds with the sides exchanged. *)
Theorem rotate_selection s st a n :
  read_slot st s = Ok (Some a) → heap st !! a = Some n →
  (imbalance n = 2 → ∀ rn, load st (right n) = Ok rn →
     (imbalance rn < 0 →
        tree_rotate s st
        = (tree_right_rotate (RightSlot a) st ≫= tree_left_rotate s))
     ∧ (0 <= imbalance rn → tree_rotate s st = tree_left_rotate s st))
  ∧ (imbalance n = -2 → ∀ ln, load st (left n) = Ok ln →
     (0 < imbalance ln →
        tree_rotate s st
        = (tree_left_rotate (LeftSlot a) st ≫= tree_right_rotate s))
     ∧ (imbalance ln <= 0 → tree_rotate s st = tree_right_rotate s st)).
Proof.
  intros Hs Ha. unfold tree_rotate.
  rewrite Hs. cbn [mbind result_bind]. rewrite (load_Some _ _ _ Ha).
  cbn [mbind result_bind]. split.
  - intros -> rn ->. cbn [Z.eqb Pos.eqb mbind result_bind].
    split; intros Hrn.
    + by replace (imbalance rn <? 0) with true by lia.
    + by replace (imbalance rn <? 0) with false by lia.
  - intros -> ln ->. cbn [Z.eqb Pos.eqb mbind result_bind].
    split; intros Hln.
    + by replace (0 <? imbalance ln) with true by lia.
    + by replace (0 <? imbalance ln) with false by lia.
Qed.

Lemma rotate_selection_witness :
  (imbalance (mk_node (Some 2%positive) NULL NULL (-2) 12) = 2 →
   ∀ rn, load st_rotating (right (mk_node (Some 2%positive) NULL NULL (-2) 12))
         = Ok rn →
     (imbalance rn < 0 →
        tree_rotate RootSlot st_rotating
        = (tree_right_rotate (RightSlot 1) st_rotating
             ≫= tree_left_rotate RootSlot))
     ∧ (0 <= imbalance rn →
        tree_rotate RootSlot st_rotating
        = tree_left_rotate RootSlot st_rotating))
  ∧ (imbalance (mk_node (Some 2%positive) NULL NULL (-2) 12) = -2 →
     ∀ ln, load st_rotating (left (mk_node (Some 2%positive) NULL NULL (-2) 12))
           = Ok ln →
     (0 < imbalance ln →
        tree_rotate RootSlot st_rotating
        = (tree_left_rotate (LeftSlot 1) st_rotating
             ≫= tree_right_rotate RootSlot))
     ∧ (imbalance ln <= 0 →
        tree_rotate RootSlot st_rotating
        = tree_right_rotate RootSlot st_rotating)).
Proof.
  apply (rotate_selection RootSlot st_rotating 1%positive
           (mk_node (Some 2%positive) NULL NULL (-2) 12)).
  - reflexivity.
  - vm_compute. reflexivity.
Defined.

(** ** The key of the new node *)

Lemma same_keys_refl st : same_keys st st.
Proof. intros x n ?. eauto. Qed.

Lemma same_keys_trans st1 st2 st3 :
  same_keys st1 st2 → same_keys st2 st3 → same_keys st1 st3.
Proof.
  intros H12 H23 x n Hx. destruct (H12 _ _ Hx) as (n' & Hx' & <-).
  by apply H23.
Qed.

Lemma keeps_Ok st : keeps_keys st (Ok st).
Proof. intros ? [= <-]. apply same_keys_refl. Qed.

Lemma keeps_bind st (m : result state) (f : state → result state) :
  keeps_keys st m → (∀ st1, m = Ok st1 → keeps_keys st1 (f st1)) →
  keeps_keys st (m ≫= f).
Proof.
  intros Hm Hf st' Hr. destruct m as [st1| | |]; try done.
  eapply same_keys_trans; [by apply Hm|by eapply Hf].
Qed.

Lemma keeps_bind_pure {A} st (m : result A) (f : A → result state) :
  (∀ x, keeps_keys st (f x)) → keeps_keys st (m ≫= f).
Proof. intros Hf st' Hr. destruct m; try done. by eapply Hf. Qed.

Lemma keeps_update st p f :
  (∀ n, key (f n) = key n) → keeps_keys st (update st p f).
Proof.
  intros Hf st' Hr. unfold update, load in Hr.
  destruct p as [a|]; [|done].
  destruct (heap st !! a) as [n|] eqn:Ha; [|done]. injection Hr as <-.
  intros x nx Hx. simpl. destruct (decide (x = a)) as [->|Hne].
  - rewrite lookup_insert_eq. eexists. split; [done|]. rewrite Hf. congruence.
  - rewrite lookup_insert_ne by done. eauto.
Qed.

Lemma keeps_write_slot st s v : keeps_keys st (write_slot st s v).
Proof.
  destruct s; simpl; [|by apply keeps_update..].
  intros ? [= <-] x n Hx. simpl. eauto.
Qed.

Lemma keeps_left_rotate s st : keeps_keys st (tree_left_rotate s st).
Proof.
  unfold tree_left_rotate.
  repeat first
    [ apply keeps_Ok | apply keeps_write_slot | apply keeps_update; done
    | apply keeps_bind; [|intros ? _] | apply keeps_bind_pure; intros ?
    | case_match ].
Qed.

Lemma keeps_right_rotate s st : keeps_keys st (tree_right_rotate s st).
Proof.
  unfold tree_right_rotate.
  repeat first
    [ apply keeps_Ok | apply keeps_write_slot | apply keeps_update; done
    | apply keeps_bind; [|intros ? _] | apply keeps_bind_pure; intros ?
    | case_match ].
Qed.

Ltac keep_step :=
  first
    [ apply keeps_Ok
    | apply keeps_write_slot
    | apply keeps_left_rotate
    | apply keeps_right_rotate
    | apply keeps_update; done
    | apply keeps_bind; [|intros ? _]
    | apply keeps_bind_pure; intros ?
    | case_match
    | done ].

Lemma keeps_rotate s st : keeps_keys st (tree_rotate s st).
Proof.
  unfold tree_rotate. cbv zeta. repeat keep_step.
Qed.

Lemma keeps_rebalance fuel : ∀ st p bf,
  keeps_keys st (tree_rebalance fuel st p bf).
Proof.
  induction fuel as [|fuel IH]; intros st p bf; [done|].
  cbn [tree_rebalance].
  repeat first [ apply IH | apply keeps_rotate | keep_step ].
Qed.

Lemma attach_key st p rt a st1 :
  tree_attach st p rt a = Ok st1 →
  ∃ n, heap st1 !! a = Some n ∧ key n = 0.
Proof.
  unfold tree_attach. intros Hr.
  assert (Hk : keeps_keys (store st a (init_node p)) (Ok st1)).
  { rewrite <- Hr. destruct rt; by apply keeps_update. }
  apply (Hk _ eq_refl a (init_node p)). simpl. apply lookup_insert_eq.
Qed.

(** C5: one call of [tree_rebalance] on a node whose imbalance [b] is -1,
    0 or 1, with a change [bf] of 1 or -1.  The new imbalance [b + bf] is
    0, [bf] or [2 * bf].  When it is 0 the call returns with this one field
    written.  When it is [bf] the call goes on with the parent, if there is
    one, and the change -1 for a left child and 1 for a right child.  When
    it is [2 * bf] the slot of the node is rotated once and the call ends,
    every ancestor being as before, the child pointer of the parent apart.
    When the call returns, the imbalance of the node is -1, 0 or 1. *)
Theorem rebalance_cases c l a b k r fuel st bf :
  holds st (plug c (Node l a b k r)) →
  -1 <= b <= 1 → bf = 1 ∨ bf = -1 →
  let st1 :=
    store st a (mk_node (root_of l) (root_of r) (parent_of c) (b + bf) k) in
  let res := tree_rebalance (S fuel) st (Some a) bf in
  (b + bf = 0 ∨ b + bf = bf ∨ b + bf = 2 * bf)
  ∧ (b + bf = 0 → res = Ok st1)
  ∧ (b + bf = bf →
       match c with
       | [] => res = Ok st1
       | f :: _ =>
           side_of c = (if decide (slot_of c = RightSlot (frame_loc f))
                        then 1 else -1)
           ∧ res = (tree_rebalance fuel st1 (Some (frame_loc f)) (side_of c)
                      ≫= check_node (Some a))
       end)
  ∧ (b + bf = 2 * bf →
       res = (tree_rotate (slot_of c) st1 ≫= check_node (Some a))
       ∧ ∀ st', res = Ok st' →
           ∃ t', holds st' (plug c t')
                 ∧ inorder t' = inorder (Node l a b k r))
  ∧ (∀ st', res = Ok st' →
       ∃ n, heap st' !! a = Some n ∧ -1 <= imbalance n <= 1).
Proof.
  intros Hh Hb Hbf st1 res.
  pose proof (rebalance_unfold _ _ _ _ _ _ fuel _ _ Hh Hb Hbf) as Hu.
  cbv zeta in Hu. fold st1 res in Hu.
  pose proof (holds_update_focus _ _ _ _ _ _ (b + bf) k _ Hh) as Hh1.
  fold st1 in Hh1.
  assert (Hc1 : ∀ z, -1 <= z <= 1 → z = b + bf →
                     check_node (Some a) st1 = Ok st1).
  { intros z Hz ->. unfold check_node. rewrite (load_focus _ _ _ _ _ _ _ Hh1).
    cbn [mbind result_bind imbalance].
    by replace ((b + bf =? 1) || (b + bf =? 0) || (b + bf =? -1)) with true by lia. }
  split_and!.
  - lia.
  - intros H0. rewrite Hu, decide_True by done. apply (Hc1 0); lia.
  - intros H1. rewrite decide_False, decide_True in Hu by lia.
    destruct c as [|f c']; [rewrite Hu; apply (Hc1 bf); lia|].
    split; [|done]. destruct f; simpl; [done|by rewrite decide_True].
  - intros H2. rewrite !decide_False in Hu by lia. split; [done|].
    intros st' Hr. rewrite Hu in Hr.
    destruct (rotate_kept _ _ _ Hh1) as [_ Hk].
    destruct (tree_rotate _ _) as [st2| | |]; try done.
    simpl in Hr. apply check_node_Ok in Hr as ->.
    destruct (Hk _ eq_refl) as (t' & ? & ? & ?). by exists t'.
  - intros st' Hr. rewrite Hu in Hr.
    match type of Hr with
    | ?X ≫= _ = _ => destruct X as [st2| | |]; try done
    end.
    cbn [mbind result_bind] in Hr. pose proof (check_node_Ok _ _ _ Hr) as ->.
    unfold check_node, load in Hr.
    destruct (heap st2 !! a) as [n|]; [|done]. exists n. split; [done|].
    cbn [mbind result_bind] in Hr.
    destruct ((imbalance n =? 1) || (imbalance n =? 0) || (imbalance n =? -1)) eqn:E;
      [lia|done].
Qed.

Lemma st_attached_run :
  tree_attach st_12_4 (Some 2%positive) true 3%positive = Ok st_attached.
Proof. vm_compute. reflexivity. Qed.

Lemma st_attached_holds :
  holds st_attached
    (plug [InLeft 1 (-1) 12 Nil] (Node Nil 2 0 4 (Node Nil 3 0 0 Nil))).
Proof. solve_holds. Defined.

Lemma rebalance_cases_witness :
  let st1 := store st_attached 2
               (mk_node NULL (Some 3%positive) (Some 1%positive) (0 + 1) 4) in
  let res := tree_rebalance 2 st_attached (Some 2%positive) 1 in
  (0 + 1 = 0 ∨ 0 + 1 = 1 ∨ 0 + 1 = 2 * 1)
  ∧ (0 + 1 = 0 → res = Ok st1)
  ∧ (0 + 1 = 1 →
       -1 = (if decide (LeftSlot 1 = RightSlot 1) then 1 else -1)
       ∧ res = (tree_rebalance 1 st1 (Some 1%positive) (-1)
                  ≫= check_node (Some 2%positive)))
  ∧ (0 + 1 = 2 * 1 →
       res = (tree_rotate (LeftSlot 1) st1 ≫= check_node (Some 2%positive))
       ∧ ∀ st', res = Ok st' →
           ∃ t', holds st' (plug [InLeft 1 (-1) 12 Nil] t')
                 ∧ inorder t' = inorder (Node Nil 2 0 4 (Node Nil 3 0 0 Nil)))
  ∧ (∀ st', res = Ok st' →
       ∃ n, heap st' !! 2%positive = Some n ∧ -1 <= imbalance n <= 1).
Proof.
  apply (rebalance_cases [InLeft 1 (-1) 12 Nil] Nil 2%positive 0 4
           (Node Nil 3 0 0 Nil) 1%nat st_attached 1).
  - exact st_attached_holds.
  - lia.
  - left. reflexivity.
Defined.

Lemma st_attached_rebalance :
  tree_rebalance 2 st_attached (Some 2%positive) 1 = Ok st_rotated.
Proof. vm_compute. reflexivity. Qed.

(** ** The balance factors after a double rotation *)

Lemma rep_unique h : ∀ t t' par,
  rep h par t → rep h par t' → root_of t = root_of t' → t = t'.
Proof.
  induction t as [|l IHl a b k r IHr]; intros [|l' a' b' k' r'] par; simpl;
    try done.
  intros (Ha & Hl & Hr) (Ha' & Hl' & Hr') [= <-].
  rewrite Ha in Ha'. injection Ha' as Hl0 Hr0 <- <-.
  by rewrite (IHl l' _ Hl Hl' Hl0), (IHr r' _ Hr Hr' Hr0).
Qed.

Lemma holds_unique st t t' : holds st t → holds st t' → t = t'.
Proof.
  intros (Hrep & Hroot & _) (Hrep' & Hroot' & _).
  eapply rep_unique; [done..|congruence].
Qed.

Lemma st_avl_holds : holds st_avl T_avl.
Proof. solve_holds. Defined.

Lemma st_bad_holds : holds st_bad T_bad.
Proof. solve_holds. Defined.

(** C3 fails on the code: the tree made by inserting 6, 7, 2, 4, 1 is a
    search tree with the balance invariant; the insertion of 5 returns, and
    in the tree it leaves the node of key 6 has the leaves 5 and 7 as
    children but the imbalance -1. *)
Theorem tree_put_wrong_imbalance :
  put_all 4 allocs [6; 7; 2; 4; 1] empty_state = Ok st_avl
  ∧ holds st_avl T_avl ∧ bst T_avl ∧ avl T_avl
  ∧ tree_put 4 (Some 6%positive) st_avl 5 = Ok st_bad
  ∧ ∀ T, holds st_bad T → ¬ avl T.
Proof.
  split_and!.
  - vm_compute. reflexivity.
  - exact st_avl_holds.
  - simpl. split_and!; repeat constructor; lia.
  - simpl. split_and!; lia.
  - vm_compute. reflexivity.
  - intros T HT. rewrite (holds_unique _ _ _ HT st_bad_holds).
    simpl. intros (_ & _ & _ & (H & _)). lia.
Qed.

(** The balance factors that a left rotation writes, on a tree held by
    the state: first that of the node [a] that goes down, then that of the
    node [b] that goes up, by the formulas of the code; the function
    returns only if [a] had a positive imbalance and both results are -1,
    0 or 1. *)
Lemma left_rotate_formulas c d a ia ka cc b ib kb e st st' :
  holds st (plug c (Node d a ia ka (Node cc b ib kb e))) →
  tree_left_rotate (slot_of c) st = Ok st' →
  let ia' := ia - 1 - Z.max ib 0 in
  let ib' := ib - 1 + Z.max ia' 0 in
  0 < ia ∧ holds st' (plug c (Node (Node d a ia' ka cc) b ib' kb e))
  ∧ -1 <= ia' <= 1 ∧ -1 <= ib' <= 1.
Proof.
  intros Hh Hr ia' ib'.
  destruct (left_rotate_holds _ _ _ _ _ _ _ _ _ _ _ Hh) as (st0 & Heq & Hh' & _).
  rewrite Heq in Hr. pose proof (checks_Ok _ _ _ _ Hr) as <-.
  unfold c_assert, left_checks, int_val in Hr.
  destruct (Z.ltb_spec 0 ia); simpl in Hr; [|discriminate Hr].
  repeat (destruct (in_int _); simpl in Hr; [|discriminate Hr]).
  replace (ia + (-1 - Z.max ib 0)) with ia' in Hr by lia.
  replace (ib + (-1 + Z.max ia' 0)) with ib' in Hr by lia.
  destruct (in_unit ia') eqn:E1; simpl in Hr; [|discriminate Hr].
  destruct (in_unit ib') eqn:E2; simpl in Hr; [|discriminate Hr].
  unfold in_unit in E1, E2. split_and!; try done; lia.
Qed.

Lemma left_rotate_formulas_witness :
  let ia' := 1 - 1 - Z.max 0 0 in
  let ib' := 0 - 1 + Z.max ia' 0 in
  0 < 1
  ∧ holds st_half
      (plug [InLeft 1 (-2) 12 Nil] (Node (Node Nil 2 ia' 4 Nil) 3 ib' 0 Nil))
  ∧ -1 <= ia' <= 1 ∧ -1 <= ib' <= 1.
Proof.
  apply (left_rotate_formulas [InLeft 1 (-2) 12 Nil] Nil 2%positive 1 4 Nil
           3%positive 0 0 Nil st_rotating st_half).
  - solve_holds.
  - vm_compute. reflexivity.
Defined.

(** The same for a right rotation, with the sides exchanged. *)
Lemma right_rotate_formulas c d a ia ka cc b ib kb e st st' :
  holds st (plug c (Node (Node e b ib kb cc) a ia ka d)) →
  tree_right_rotate (slot_of c) st = Ok st' →
  let ia' := ia + 1 - Z.min ib 0 in
  let ib' := ib + 1 + Z.min ia' 0 in
  ia < 0 ∧ holds st' (plug c (Node e b ib' kb (Node cc a ia' ka d)))
  ∧ -1 <= ia' <= 1 ∧ -1 <= ib' <= 1.
Proof.
  intros Hh Hr ia' ib'.
  destruct (right_rotate_holds _ _ _ _ _ _ _ _ _ _ _ Hh) as (st0 & Heq & Hh' & _).
  rewrite Heq in Hr. pose proof (checks_Ok _ _ _ _ Hr) as <-.
  unfold c_assert, right_checks, int_val in Hr.
  destruct (Z.ltb_spec ia 0); simpl in Hr; [|discriminate Hr].
  repeat (destruct (in_int _); simpl in Hr; [|discriminate Hr]).
  replace (ia + (1 - Z.min ib 0)) with ia' in Hr by lia.
  replace (ib + (1 + Z.min ia' 0)) with ib' in Hr by lia.
  destruct (in_unit ia') eqn:E1; simpl in Hr; [|discriminate Hr].
  destruct (in_unit ib') eqn:E2; simpl in Hr; [|discriminate Hr].
  unfold in_unit in E1, E2. split_and!; try done; lia.
Qed.

Lemma right_rotate_formulas_witness :
  let ia' := -2 + 1 - Z.min (-1) 0 in
  let ib' := -1 + 1 + Z.min ia' 0 in
  -2 < 0
  ∧ holds st_rotated
      (plug [] (Node (Node Nil 2 0 4 Nil) 3 ib' 0 (Node Nil 1 ia' 12 Nil)))
  ∧ -1 <= ia' <= 1 ∧ -1 <= ib' <= 1.
Proof.
  apply (right_rotate_formulas [] Nil 1%positive (-2) 12 Nil 3%positive (-1) 0
           (Node Nil 2 0 4 Nil) st_half st_rotated).
  - solve_holds.
  - vm_compute. reflexivity.
Defined.


Lemma st_pivot_run :
  (st ← tree_attach st_avl (Some 4%positive) false 6%positive;
   st ← update st (Some 4%positive) (with_imbalance (0 + -1));
   st ← update st (Some 3%positive) (with_imbalance (0 + 1));
   update st (Some 1%positive) (with_imbalance (-1 + -1)))
  = Ok st_pivot.
Proof. vm_compute. reflexivity. Qed.


(** C6 fails on the code: in the tree made by inserting 6, 7, 2, 4, 1,
    which has the balance invariant, the insertion of 3 reaches a node of
    imbalance -2 whose left child has imbalance 1; [tree_rotate] rotates
    the left child to the left, the formulas give 0 and then -2, and the
    assertion on the second value ends the run. *)
Theorem rotate_breaks_unit_range :
  holds st_avl T_avl ∧ avl T_avl
  ∧ tree_put 4 (Some 6%positive) st_avl 3 = AssertFail
  ∧ tree_rotate RootSlot st_pivot = AssertFail
  ∧ tree_left_rotate (LeftSlot 1) st_pivot = AssertFail
  ∧ 1 - 1 - Z.max (-1) 0 = 0
  ∧ -1 - 1 + Z.max (1 - 1 - Z.max (-1) 0) 0 = -2
  ∧ left_checks 1 (-1) = AssertFail.
Proof.
  split_and!; try (vm_compute; reflexivity).
  - exact st_avl_holds.
  - simpl. split_and!; lia.
Qed.

Lemma st_rotating_rotate : tree_rotate RootSlot st_rotating = Ok st_rotated.
Proof. vm_compute. reflexivity. Qed.

(** C9 fails on the code: the allocation succeeds (address 6 is free), and
    the insertion of 3 into the tree made by inserting 6, 7, 2, 4, 1, which
    is a search tree with the balance invariant, does not return: an
    assertion ends it. *)
Theorem tree_put_aborts_with_memory :
  holds st_avl T_avl ∧ bst T_avl ∧ avl T_avl
  ∧ heap st_avl !! 6%positive = None
  ∧ tree_put 4 (Some 6%positive) st_avl 3 = AssertFail
  ∧ tree_put 4 NULL st_avl 3 = Ok st_avl.
Proof.
  split_and!; try (vm_compute; reflexivity).
  - exact st_avl_holds.
  - simpl. split_and!; repeat constructor; lia.
  - simpl. split_and!; lia.
Qed.

(** ** The macros on a tree held by the state *)

(** For every node of a tree held by the state, [TREE_PARENTPTR] gives the
    slot that holds the node, a field of the node's parent or the root
    field when it has none, and reading that slot gives the node back;
    [TREE_SIDEOF] gives -1, 1 or 0 as the slot is a left field, a right
    field or the root field. *)
Theorem parent_slot_of_node st T a :
  holds st T → a ∈ addrs T →
  ∃ n s, heap st !! a = Some n
         ∧ TREE_PARENTPTR st (Some a) = Ok s
         ∧ slot_owner s = parent n
         ∧ read_slot st s = Ok (Some a)
         ∧ TREE_SIDEOF st (Some a) = Ok (slot_side s).
Proof.
  intros Hh Ha.
  destruct (focus_node _ _ Ha) as (c & l & b & k & r & ->).
  pose proof Hh as (Hrep & Hroot & _).
  apply rep_plug in Hrep as [Hc (Hn & _)].
  eexists _, (slot_of c). split_and!.
  - exact Hn.
  - by eapply TREE_PARENTPTR_focus.
  - simpl. apply slot_owner_of.
  - apply (read_slot_ctx st c (Some a)); [done|]. by intros ->.
  - rewrite (TREE_SIDEOF_focus _ _ _ _ _ _ _ Hh). by destruct c as [|[] c].
Qed.

Lemma parent_slot_of_node_witness :
  ∃ n s, heap st_12_4 !! 2%positive = Some n
         ∧ TREE_PARENTPTR st_12_4 (Some 2%positive) = Ok s
         ∧ slot_owner s = parent n
         ∧ read_slot st_12_4 s = Ok (Some 2%positive)
         ∧ TREE_SIDEOF st_12_4 (Some 2%positive) = Ok (slot_side s).
Proof.
  apply (parent_slot_of_node st_12_4 T_12_4 2%positive).
  - exact st_12_4_holds.
  - vm_compute. set_solver.
Defined.

(** ** Rotations and measured heights *)

(** When the imbalance fields of the two nodes are the measured height
    differences, a left rotation that returns has written the measured
    value into the node that goes down, and into the node that goes up the
    measured value plus the absolute value of the other: the second field
    is right only when the first is 0. *)
Theorem left_rotate_measured c d a ia ka cc b ib kb e st st' :
  holds st (plug c (Node d a ia ka (Node cc b ib kb e))) →
  ia = Z.of_nat (height (Node cc b ib kb e)) - Z.of_nat (height d) →
  ib = Z.of_nat (height e) - Z.of_nat (height cc) →
  tree_left_rotate (slot_of c) st = Ok st' →
  ∃ ia' ib',
    holds st' (plug c (Node (Node d a ia' ka cc) b ib' kb e))
    ∧ ia' = Z.of_nat (height cc) - Z.of_nat (height d)
    ∧ ib' = Z.of_nat (height e) - Z.of_nat (height (Node d a ia' ka cc))
            + Z.abs ia'.
Proof.
  intros Hh Hia Hib Hr.
  destruct (left_rotate_holds _ _ _ _ _ _ _ _ _ _ _ Hh) as (st0 & Heq & Hh' & _).
  rewrite Heq in Hr. apply checks_Ok in Hr as <-.
  eexists _, _. split; [exact Hh'|]. simpl in *. lia.
Qed.

Lemma left_rotate_measured_witness :
  ∃ ia' ib',
    holds st_half
      (plug [InLeft 1 (-2) 12 Nil] (Node (Node Nil 2 ia' 4 Nil) 3 ib' 0 Nil))
    ∧ ia' = Z.of_nat (height Nil) - Z.of_nat (height Nil)
    ∧ ib' = Z.of_nat (height Nil) - Z.of_nat (height (Node Nil 2 ia' 4 Nil))
            + Z.abs ia'.
Proof.
  apply (left_rotate_measured [InLeft 1 (-2) 12 Nil] Nil 2%positive 1 4 Nil
           3%positive 0 0 Nil st_rotating st_half).
  - solve_holds.
  - reflexivity.
  - reflexivity.
  - vm_compute. reflexivity.
Defined.

(** The same for a right rotation: the node that goes up gets the measured
    value minus the absolute value of the other. *)
Theorem right_rotate_measured c d a ia ka cc b ib kb e st st' :
  holds st (plug c (Node (Node e b ib kb cc) a ia ka d)) →
  ia = Z.of_nat (height d) - Z.of_nat (height (Node e b ib kb cc)) →
  ib = Z.of_nat (height cc) - Z.of_nat (height e) →
  tree_right_rotate (slot_of c) st = Ok st' →
  ∃ ia' ib',
    holds st' (plug c (Node e b ib' kb (Node cc a ia' ka d)))
    ∧ ia' = Z.of_nat (height d) - Z.of_nat (height cc)
    ∧ ib' = Z.of_nat (height (Node cc a ia' ka d)) - Z.of_nat (height e)
            - Z.abs ia'.
Proof.
  intros Hh Hia Hib Hr.
  destruct (right_rotate_holds _ _ _ _ _ _ _ _ _ _ _ Hh) as (st0 & Heq & Hh' & _).
  rewrite Heq in Hr. apply checks_Ok in Hr as <-.
  eexists _, _. split; [exact Hh'|]. simpl in *. lia.
Qed.

Lemma right_rotate_measured_witness :
  ∃ ia' ib',
    holds st_rotated
      (plug [] (Node (Node Nil 2 0 4 Nil) 3 ib' 0 (Node Nil 1 ia' 12 Nil)))
    ∧ ia' = Z.of_nat (height Nil) - Z.of_nat (height Nil)
    ∧ ib' = Z.of_nat (height (Node Nil 1 ia' 12 Nil))
            - Z.of_nat (height (Node Nil 2 0 4 Nil)) - Z.abs ia'.
Proof.
  apply (right_rotate_measured [] Nil 1%positive (-2) 12 Nil 3%positive (-1) 0
           (Node Nil 2 0 4 Nil) st_half st_rotated).
  - solve_holds.
  - reflexivity.
  - reflexivity.
  - vm_compute. reflexivity.
Defined.

(** ** Blocks added and released *)

Lemma no_new_refl st : no_new st st.
Proof. by split. Qed.

Lemma no_new_trans st1 st2 st3 :
  no_new st1 st2 → no_new st2 st3 → no_new st1 st3.
Proof. intros [F1 H1] [F2 H2]. split; [congruence|]. intros x ?. by apply H2, H1. Qed.

Lemma adds_Ok st : adds_none st (Ok st).
Proof. intros ? [= <-]. apply no_new_refl. Qed.

Lemma adds_bind st (m : result state) (f : state → result state) :
  adds_none st m → (∀ st1, m = Ok st1 → adds_none st1 (f st1)) →
  adds_none st (m ≫= f).
Proof.
  intros Hm Hf st' Hr. destruct m as [st1| | |]; try done.
  eapply no_new_trans; [by apply Hm|by eapply Hf].
Qed.

Lemma adds_bind_pure {A} st (m : result A) (f : A → result state) :
  (∀ x, adds_none st (f x)) → adds_none st (m ≫= f).
Proof. intros Hf st' Hr. destruct m; try done. by eapply Hf. Qed.

Lemma adds_update st p f : adds_none st (update st p f).
Proof.
  intros st' Hr. unfold update, load in Hr.
  destruct p as [a|]; [|done].
  destruct (heap st !! a) as [n|] eqn:Ha; [|done]. injection Hr as <-.
  split; [done|]. intros x Hx. simpl. rewrite lookup_insert_ne; [done|congruence].
Qed.

Lemma adds_write_slot st s v : adds_none st (write_slot st s v).
Proof.
  destruct s; simpl; [|by apply adds_update..].
  intros ? [= <-]. by split.
Qed.

Ltac add_step :=
  first
    [ apply adds_Ok
    | apply adds_write_slot
    | apply adds_update
    | apply adds_bind; [|intros ? _]
    | apply adds_bind_pure; intros ?
    | case_match
    | done ].

Lemma adds_left_rotate s st : adds_none st (tree_left_rotate s st).
Proof. unfold tree_left_rotate. repeat add_step. Qed.

Lemma adds_right_rotate s st : adds_none st (tree_right_rotate s st).
Proof. unfold tree_right_rotate. repeat add_step. Qed.

Lemma adds_rotate s st : adds_none st (tree_rotate s st).
Proof.
  unfold tree_rotate. cbv zeta.
  repeat first [apply adds_left_rotate | apply adds_right_rotate | add_step].
Qed.

Lemma adds_rebalance fuel : ∀ st p bf,
  adds_none st (tree_rebalance fuel st p bf).
Proof.
  induction fuel as [|fuel IH]; intros st p bf; [done|].
  cbn [tree_rebalance].
  repeat first [ apply IH | apply adds_rotate | add_step ].
Qed.

Lemma same_keys_store_fresh st a n :
  heap st !! a = None → same_keys st (store st a n).
Proof.
  intros Ha x nx Hx. simpl. rewrite lookup_insert_ne by congruence. eauto.
Qed.

(** What [tree_put] does to the blocks of the heap. *)
Lemma put_blocks fuel m st key0 st' :
  (∀ a, m = Some a → heap st !! a = None) →
  tree_put fuel m st key0 = Ok st' →
  freed st' = freed st
  ∧ (∀ x n, heap st !! x = Some n →
       ∃ n', heap st' !! x = Some n' ∧ key n' = key n)
  ∧ (∀ x, heap st !! x = None → is_Some (heap st' !! x) →
       m = Some x ∧ ∃ n, heap st' !! x = Some n ∧ key n = key0).
Proof.
  intros Hfresh Hr. unfold tree_put in Hr.
  destruct (tree_put_loop _ _ _ _ _) as [[[dest par]|]| | |]; try done;
    cbn [mbind result_bind] in Hr.
  2:{ injection Hr as <-. split_and!; [done|by eauto|].
      intros x Hx [? ?]. congruence. }
  destruct par as [p|].
  - unfold tree_insert_under in Hr. destruct m as [a|].
    2:{ injection Hr as <-. split_and!; [done|by eauto|].
        intros x Hx [? ?]. congruence. }
    specialize (Hfresh a eq_refl).
    destruct (tree_attach _ _ _ _) as [st1| | |] eqn:Hat; try done.
    cbn [mbind result_bind] in Hr.
    destruct (tree_rebalance _ _ _ _) as [st2| | |] eqn:Hrb; try done.
    cbn [mbind result_bind] in Hr.
    destruct (attach_key _ _ _ _ _ Hat) as (n0 & Hn0 & Hk0).
    destruct (keeps_rebalance _ _ _ _ _ Hrb _ _ Hn0) as (n2 & Hn2 & Hk2).
    unfold update in Hr. rewrite (load_Some _ _ _ Hn2) in Hr.
    injection Hr as <-.
    pose proof (adds_rebalance _ _ _ _ _ Hrb) as [Hf2 Hno2].
    unfold tree_attach in Hat.
    assert (Hup : ∃ f, update (store st a (init_node (Some p))) (Some p) f = Ok st1
                       ∧ ∀ n, key (f n) = key n).
    { destruct (bool_decide _); eexists; (split; [exact Hat|done]). }
    destruct Hup as (f & Hup & Hf).
    pose proof (adds_update _ _ _ _ Hup) as [Hf1 Hno1].
    pose proof (keeps_update _ _ _ Hf _ Hup) as Hk1.
    split_and!.
    + simpl. by rewrite Hf2, Hf1.
    + intros x n Hx. assert (x ≠ a) by congruence. simpl.
      rewrite lookup_insert_ne by done.
      pose proof (same_keys_store_fresh st a (init_node (Some p)) Hfresh) as Hk0'.
      destruct (Hk0' _ _ Hx) as (n1 & Hx1 & <-).
      destruct (Hk1 _ _ Hx1) as (n1' & Hx1' & <-).
      destruct (keeps_rebalance _ _ _ _ _ Hrb _ _ Hx1') as (n2' & ? & <-).
      eauto.
    + intros x Hx Hs. destruct (decide (x = a)) as [->|Hne].
      * split; [done|]. simpl. rewrite lookup_insert_eq. eauto.
      * exfalso. simpl in Hs. rewrite lookup_insert_ne in Hs by done.
        rewrite Hno2 in Hs; [by destruct Hs|]. apply Hno1. simpl.
        by rewrite lookup_insert_ne.
  - unfold tree_create_root in Hr. destruct m as [a|]; simpl in Hr.
    + specialize (Hfresh a eq_refl).
      unfold update in Hr. simpl in Hr. rewrite lookup_insert_eq in Hr.
      simpl in Hr. injection Hr as <-. simpl. split_and!; [done| |].
      * intros x n Hx. assert (x ≠ a) by congruence.
        rewrite !lookup_insert_ne by done. eauto.
      * intros x Hx Hs. destruct (decide (x = a)) as [->|Hne].
        -- split; [done|]. rewrite lookup_insert_eq. eauto.
        -- rewrite !lookup_insert_ne in Hs by done. rewrite Hx in Hs.
           by destruct Hs.
    + injection Hr as <-. simpl. split_and!; [done|by eauto|].
      intros x Hx [? ?]. congruence.
Qed.

(** [tree_put] releases nothing, leaves every block that was allocated at
    its address with its key, and the only block that it adds is the one
    that [malloc] gave, which holds the key. *)
Theorem tree_put_blocks fuel m st key0 st' :
  (∀ a, m = Some a → heap st !! a = None) →
  tree_put fuel m st key0 = Ok st' →
  freed st' = freed st
  ∧ (∀ x n, heap st !! x = Some n →
       ∃ n', heap st' !! x = Some n' ∧ key n' = key n)
  ∧ (∀ x, heap st !! x = None → is_Some (heap st' !! x) →
       m = Some x ∧ ∃ n, heap st' !! x = Some n ∧ key n = key0).
Proof. apply put_blocks. Qed.

Lemma tree_put_blocks_witness :
  freed (store st_rotated 3 (mk_node (Some 2%positive) (Some 1%positive) NULL 0 5))
  = freed st_12_4
  ∧ (∀ x n, heap st_12_4 !! x = Some n →
       ∃ n', heap (store st_rotated 3
                     (mk_node (Some 2%positive) (Some 1%positive) NULL 0 5)) !! x
             = Some n' ∧ key n' = key n)
  ∧ (∀ x, heap st_12_4 !! x = None →
       is_Some (heap (store st_rotated 3
                        (mk_node (Some 2%positive) (Some 1%positive) NULL 0 5)) !! x) →
       Some 3%positive = Some x
       ∧ ∃ n, heap (store st_rotated 3
                      (mk_node (Some 2%positive) (Some 1%positive) NULL 0 5)) !! x
              = Some n ∧ key n = 5).
Proof.
  apply (tree_put_blocks 3 (Some 3%positive) st_12_4 5).
  - intros a [= <-]. vm_compute. reflexivity.
  - exact st_12_4_put_5.
Defined.

(** ** Building and destroying *)

Lemma height_le_size t : (height t ≤ size t)%nat.
Proof. induction t; simpl; lia. Qed.

Lemma tight_put fuel m st T key0 st' :
  holds st T → tight st T → (height T < fuel)%nat →
  (∀ a, m = Some a → heap st !! a = None) →
  tree_put fuel m st key0 = Ok st' →
  ∃ T', holds st' T' ∧ tight st' T' ∧ freed st' = freed st
        ∧ (size T' ≤ S (size T))%nat
        ∧ (∀ x, heap st !! x = None → is_Some (heap st' !! x) → m = Some x).
Proof.
  intros Hh Ht Hfuel Hfresh Hr.
  pose proof (tree_put_spec st T key0 m fuel Hh Hfuel Hfresh) as Hs.
  pose proof (put_blocks _ _ _ _ _ Hfresh Hr) as (Hfr & Hold & Hnew).
  assert (Hsame : st' = st → ∃ T', holds st' T' ∧ tight st' T'
            ∧ freed st' = freed st ∧ (size T' ≤ S (size T))%nat
            ∧ (∀ x, heap st !! x = None → is_Some (heap st' !! x) → m = Some x)).
  { intros ->. exists T. split_and!; try done; [lia|].
    intros x Hx [? ?]. congruence. }
  destruct (find_path key0 T []) as [c|] eqn:Hp; [|apply Hsame; congruence].
  destruct m as [a|]; [|apply Hsame; congruence].
  destruct Hs as [_ Hs]. destruct (Hs _ Hr) as (T' & Hh' & Hi' & _).
  pose proof (find_path_inorder _ _ _ Hp) as Hi.
  exists T'. split_and!; try done.
  - intros x Hx. unfold addrs. rewrite Hi', fmap_app, fmap_cons. simpl.
    destruct (heap st !! x) as [n|] eqn:Hx0.
    + assert (Hin : x ∈ addrs T) by (apply Ht; eauto).
      unfold addrs in Hin. rewrite Hi, fmap_app in Hin. set_solver.
    + destruct (Hnew _ Hx0 Hx) as [[= ->] _]. set_solver.
  - rewrite !size_inorder, Hi', Hi, !length_app. simpl. lia.
  - intros x Hx Hs'. by destruct (Hnew _ Hx Hs').
Qed.

Lemma put_all_tight fuel : ∀ ks ms st T st',
  holds st T → tight st T → (size T + length ks < fuel)%nat →
  NoDup (omap id ms) → (∀ a, Some a ∈ ms → heap st !! a = None) →
  put_all fuel ms ks st = Ok st' →
  ∃ T', holds st' T' ∧ tight st' T' ∧ freed st' = freed st
        ∧ (size T' ≤ size T + length ks)%nat.
Proof.
  induction ks as [|k ks IH]; intros ms st T st' Hh Ht Hfuel Hnd Hfresh Hr.
  - assert (st' = st) as -> by (destruct ms; simpl in Hr; congruence).
    exists T. split_and!; try done. lia.
  - destruct ms as [|m ms].
    { simpl in Hr. injection Hr as <-. exists T. split_and!; try done. lia. }
    simpl in Hr, Hfuel.
    destruct (tree_put fuel m st k) as [st1| | |] eqn:Hput; try done.
    cbn [mbind result_bind] in Hr.
    pose proof (height_le_size T) as Hhs.
    destruct (tight_put fuel m st T k st1 Hh Ht) as (T1 & Hh1 & Ht1 & Hf1 & Hs1 & Hn1);
      [lia| |done|].
    { intros a ->. apply Hfresh. set_solver. }
    destruct (IH ms st1 T1 st' Hh1 Ht1) as (T' & Hh' & Ht' & Hf' & Hs'); [lia| | |done|].
    + destruct m; simpl in Hnd; [by apply NoDup_cons in Hnd as [_ ?]|done].
    + intros a Ha. destruct (heap st1 !! a) as [n|] eqn:Hx; [|done].
      exfalso. assert (Hm : m = Some a).
      { apply Hn1; [apply Hfresh; set_solver|by eauto]. }
      subst m. simpl in Hnd. apply NoDup_cons in Hnd as [Hnd _].
      apply Hnd. apply list_elem_of_omap. by exists (Some a).
    + exists T'. split_and!; try done; [congruence|simpl; lia].
Qed.

(** Whatever keys are inserted into the empty tree, and whichever
    allocations fail, when the insertions have returned the heap holds the
    nodes of the tree and nothing else, and [tree_delete] releases them
    all, in post-order: the heap is empty afterwards. *)
Theorem put_all_then_delete fuel ms ks st :
  NoDup (omap id ms) → (length ks < fuel)%nat →
  put_all fuel ms ks empty_state = Ok st →
  ∃ T st', holds st T
           ∧ (∀ x, is_Some (heap st !! x) ↔ x ∈ addrs T)
           ∧ tree_delete fuel st = Ok st'
           ∧ heap st' = ∅
           ∧ freed st' = postorder T.
Proof.
  intros Hnd Hfuel Hr.
  destruct (put_all_tight fuel ks ms empty_state Nil st) as (T & Hh & Ht & Hf & Hs);
    try done.
  { split_and!; [done..|apply NoDup_nil_2]. }
  { intros x [? Hx]. simpl in Hx. by rewrite lookup_empty in Hx. }
  simpl in Hs, Hf.
  pose proof (height_le_size T) as Hhs.
  pose proof Hh as (Hrep & Hroot & HndT).
  destruct (delete_child_released T fuel st NULL Hrep HndT) as (st' & Hd & Hfr & _ & Hhp);
    [lia|].
  exists T, st'. split_and!; try done.
  - intros x. split; [apply Ht|]. by eapply rep_is_Some.
  - unfold tree_delete. rewrite Hroot. exact Hd.
  - apply map_eq. intros x. rewrite Hhp, lookup_empty.
    case_decide as Hx; [done|].
    destruct (heap st !! x) eqn:E; [|done]. destruct Hx. apply Ht. eauto.
  - by rewrite Hfr, Hf.
Qed.

Lemma put_all_then_delete_witness :
  ∃ T st', holds st_12_4 T
           ∧ (∀ x, is_Some (heap st_12_4 !! x) ↔ x ∈ addrs T)
           ∧ tree_delete 3 st_12_4 = Ok st'
           ∧ heap st' = ∅
           ∧ freed st' = postorder T.
Proof.
  apply (put_all_then_delete 3 allocs [12; 4] st_12_4).
  - apply (@bool_decide_unpack _ (NoDup_dec _)). vm_compute. exact I.
  - simpl. lia.
  - exact st_12_4_run.
Defined.

(** ** The pointer program and the functions on shapes *)

Lemma refines_bind fr c1 c2 r1 s1 (f : state → result state)
  (g : shape → result shape) :
  refines fr c1 r1 s1 →
  (∀ st1 t1, holds st1 (plug c1 t1) → freed st1 = fr →
             refines fr c2 (f st1) (g t1)) →
  refines fr c2 (r1 ≫= f) (s1 ≫= g).
Proof.
  intros H1 H2. destruct s1 as [t1| | |]; simpl in *; try done.
  - destruct H1 as (st1 & -> & Hh & Hf). simpl. by apply H2.
  - by rewrite H1.
Qed.

Lemma refines_checks fr c (m1 m2 : result unit) st' t' :
  holds st' (plug c t') → freed st' = fr →
  refines fr c (m1;; m2;; Ok st') (m1;; m2;; Ok t').
Proof.
  intros Hh Hf. destruct m1 as [[]| | |]; simpl; try done.
  destruct m2 as [[]| | |]; simpl; try done. by exists st'.
Qed.

Lemma rot_left_refines c t st :
  holds st (plug c t) →
  refines (freed st) c (tree_left_rotate (slot_of c) st) (rot_left t).
Proof.
  intros Hh. destruct t as [|d a ia ka [|cc b ib kb e]]; try done.
  destruct (left_rotate_holds _ _ _ _ _ _ _ _ _ _ _ Hh) as (st' & -> & Hh' & Hf).
  by apply refines_checks.
Qed.

Lemma rot_right_refines c t st :
  holds st (plug c t) →
  refines (freed st) c (tree_right_rotate (slot_of c) st) (rot_right t).
Proof.
  intros Hh. destruct t as [|[|e b ib kb cc] a ia ka d]; try done.
  destruct (right_rotate_holds _ _ _ _ _ _ _ _ _ _ _ Hh) as (st' & -> & Hh' & Hf).
  by apply refines_checks.
Qed.

Lemma refines_Ok fr c st t :
  holds st (plug c t) → freed st = fr → refines fr c (Ok st) (Ok t).
Proof. intros. by exists st. Qed.

Lemma refines_plug fr c r s :
  refines fr c r s → refines fr [] r (s ≫= λ t', Ok (plug c t')).
Proof. by destruct s. Qed.

Lemma rotate_refines c t st :
  holds st (plug c t) →
  refines (freed st) c (tree_rotate (slot_of c) st) (rotate_shape t).
Proof.
  intros Hh. destruct t as [|l a i k r]; [done|].
  pose proof Hh as (Hrep & Hroot & _).
  apply rep_plug in Hrep as [Hc (Ha & Hl & Hr)].
  unfold tree_rotate. rewrite (read_slot_ctx st c _ Hc) by by intros ->.
  cbn [mbind result_bind root_of]. rewrite (load_Some _ _ _ Ha).
  cbn [mbind result_bind imbalance left right rotate_shape].
  destruct (i =? 2); [|destruct (i =? -2)].
  - destruct r as [|rl b ib kb rr]; [done|].
    destruct Hr as (Hb & _). cbn [root_of]. rewrite (load_Some _ _ _ Hb).
    cbn [mbind result_bind imbalance root_imb].
    apply (refines_bind _ (InRight l a i k :: c)).
    + destruct (ib <? 0).
      * by apply (rot_right_refines (InRight l a i k :: c)).
      * by apply refines_Ok.
    + intros st1 t1 Hh1 <-. by apply rot_left_refines.
  - destruct l as [|ll b ib kb lr]; [done|].
    destruct Hl as (Hb & _). cbn [root_of]. rewrite (load_Some _ _ _ Hb).
    cbn [mbind result_bind imbalance root_imb].
    apply (refines_bind _ (InLeft a i k r :: c)).
    + destruct (0 <? ib).
      * by apply (rot_left_refines (InLeft a i k r :: c)).
      * by apply refines_Ok.
    + intros st1 t1 Hh1 <-. by apply rot_right_refines.
  - by apply refines_Ok.
Qed.

Lemma imb_at_load h par t a i :
  rep h par t → imb_at a t = Some i →
  ∃ n, h !! a = Some n ∧ imbalance n = i.
Proof.
  revert par; induction t as [|l IHl x b k r IHr]; intros par; simpl; [done|].
  intros (Hx & Hl & Hr). case_decide as Hd.
  - subst x. intros [= <-]. eauto.
  - destruct (imb_at a l) as [j|] eqn:E.
    + intros [= <-]. by eapply IHl.
    + by eapply IHr.
Qed.

Lemma check_refines fr a st T :
  holds st T → freed st = fr →
  refines fr [] (check_node (Some a) st) (check_shape a T).
Proof.
  intros Hh Hf. unfold check_shape.
  destruct (imb_at a T) as [i|] eqn:E; [|done].
  destruct Hh as (Hrep & Hh2).
  destruct (imb_at_load _ _ _ _ _ Hrep E) as (n & Hn & <-).
  unfold check_node. rewrite (load_Some _ _ _ Hn). cbn [mbind result_bind].
  destruct (c_assert _) as [[]| | |]; simpl; try done. by exists st.
Qed.

Lemma side_of_cons f c : side_of (f :: c) = frame_side f.
Proof. by destruct f. Qed.

Lemma rebalance_refines c : ∀ l a b k r fuel st bf,
  holds st (plug c (Node l a b k r)) → (length c < fuel)%nat →
  refines (freed st) [] (tree_rebalance fuel st (Some a) bf)
    (rebalance_shape c (Node l a b k r) bf).
Proof.
  induction c as [|f c IH]; intros l a b k r fuel st bf Hh Hfuel;
    (destruct fuel as [|fuel]; [simpl in Hfuel; lia|]);
    (destruct (decide (-1 <= b <= 1 ∧ (bf = 1 ∨ bf = -1))) as [[Hb Hbf]|Hn];
     [|rewrite (rebalance_assert _ _ _ _ _ _ _ _ _ Hh Hn);
       cbn [rebalance_shape];
       destruct ((b =? 1) || (b =? 0) || (b =? -1)) eqn:E1; [|done];
       destruct ((bf =? 1) || (bf =? -1)) eqn:E2; [|done];
       destruct Hn; lia]);
    rewrite (rebalance_unfold _ _ _ _ _ _ _ _ _ Hh Hb Hbf);
    cbn [rebalance_shape];
    replace ((b =? 1) || (b =? 0) || (b =? -1)) with true by lia;
    replace ((bf =? 1) || (bf =? -1)) with true by lia;
    replace ((b + bf =? 0) || (b + bf =? bf) || (b + bf =? 2 * bf)) with true by lia;
    cbn [c_assert mbind result_bind];
    pose proof (holds_update_focus _ _ _ _ _ _ (b + bf) k _ Hh) as Hh1;
    set (st1 := store st a _) in *;
    change (freed st) with (freed st1);
    (apply (refines_bind _ []); [|by intros; apply check_refines]).
  - destruct (decide (b + bf = 0)) as [H0|H0].
    { replace ((b + bf) * bf) with 0 by lia. by apply refines_Ok. }
    destruct (decide (b + bf = bf)) as [H1|H1].
    { replace ((b + bf) * bf) with 1 by lia. by apply refines_Ok. }
    replace ((b + bf) * bf) with 2 by lia.
    apply (refines_plug _ []). by apply (rotate_refines []).
  - destruct (decide (b + bf = 0)) as [H0|H0].
    { replace ((b + bf) * bf) with 0 by lia. by apply (refines_Ok _ []). }
    destruct (decide (b + bf = bf)) as [H1|H1].
    { replace ((b + bf) * bf) with 1 by lia. rewrite side_of_cons.
      simpl in Hfuel.
      destruct f as [p bp kp rs|ls p bp kp]; simpl in Hh1 |- *;
        apply (IH _ _ _ _ _ fuel st1); try done; lia. }
    replace ((b + bf) * bf) with 2 by lia.
    apply refines_plug. by apply (rotate_refines (f :: c)).
Qed.

Lemma set_key_root a key0 t : root_of (set_key a key0 t) = root_of t.
Proof. by destruct t. Qed.

Lemma set_key_inorder a key0 t : (inorder (set_key a key0 t)).*1 = (inorder t).*1.
Proof.
  induction t as [|l IHl x b k r IHr]; simpl; [done|].
  by rewrite !fmap_app, !fmap_cons, IHl, IHr.
Qed.

Lemma set_key_rep h par t a key0 n :
  h !! a = Some n →
  rep h par t → rep (<[a := with_key key0 n]> h) par (set_key a key0 t).
Proof.
  intros Hn. revert par; induction t as [|l IHl x b k r IHr]; intros par; simpl;
    [done|].
  intros (Hx & Hl & Hr). rewrite !set_key_root. split_and!; [|by apply IHl|by apply IHr].
  case_decide as Hd.
  - subst x. rewrite lookup_insert_eq. rewrite Hx in Hn. by injection Hn as <-.
  - by rewrite lookup_insert_ne.
Qed.

Lemma set_key_refines st T a key0 :
  holds st T → a ∈ addrs T →
  ∃ st', update st (Some a) (with_key key0) = Ok st'
         ∧ holds st' (set_key a key0 T) ∧ freed st' = freed st.
Proof.
  intros (Hrep & Hroot & Hnd) Ha.
  destruct (rep_is_Some _ _ _ _ Hrep Ha) as [n Hn].
  exists (store st a (with_key key0 n)). split_and!; [|split_and!|done].
  - unfold update. by rewrite (load_Some _ _ _ Hn).
  - by apply set_key_rep.
  - by rewrite set_key_root.
  - unfold addrs. by rewrite set_key_inorder.
Qed.

(** *** The nodes stay in order *)

Lemma rot_left_inorder t t' : rot_left t = Ok t' → inorder t' = inorder t.
Proof.
  destruct t as [|d a ia ka [|cc b ib kb e]]; try done. simpl.
  intros H%checks_Ok. subst t'. simpl. by rewrite <- app_assoc.
Qed.

Lemma rot_right_inorder t t' : rot_right t = Ok t' → inorder t' = inorder t.
Proof.
  destruct t as [|[|e b ib kb cc] a ia ka d]; try done. simpl.
  intros H%checks_Ok. subst t'. simpl. by rewrite <- app_assoc.
Qed.

Lemma rotate_shape_inorder t t' : rotate_shape t = Ok t' → inorder t' = inorder t.
Proof.
  destruct t as [|l a i k r]; [done|]. cbn [rotate_shape].
  destruct (i =? 2); [|destruct (i =? -2)].
  - destruct r as [|rl b ib kb rr]; [done|]. cbn [root_imb mbind result_bind].
    destruct (ib <? 0).
    + destruct (rot_right _) as [r'| | |] eqn:E; try done.
      cbn [mbind result_bind]. intros ->%rot_left_inorder.
      apply rot_right_inorder in E. simpl in *. by rewrite E.
    + cbn [mbind result_bind]. by intros ->%rot_left_inorder.
  - destruct l as [|ll b ib kb lr]; [done|]. cbn [root_imb mbind result_bind].
    destruct (0 <? ib).
    + destruct (rot_left _) as [l'| | |] eqn:E; try done.
      cbn [mbind result_bind]. intros ->%rot_right_inorder.
      apply rot_left_inorder in E. simpl in *. by rewrite E.
    + cbn [mbind result_bind]. by intros ->%rot_right_inorder.
  - by intros [= <-].
Qed.

Lemma check_shape_Ok a T T' : check_shape a T = Ok T' → T' = T.
Proof.
  unfold check_shape. destruct (imb_at a T); [|done].
  destruct (c_assert _) as [[]| | |]; simpl; congruence.
Qed.

Lemma rebalance_shape_inorder c : ∀ t bf T,
  rebalance_shape c t bf = Ok T → inorder T = inorder (plug c t).
Proof.
  induction c as [|f c IH]; intros [|l a b k r] bf T; try done;
    cbn [rebalance_shape];
    (destruct (c_assert _) as [[]| | |]; try done);
    (destruct (c_assert _) as [[]| | |]; try done);
    (destruct (c_assert _) as [[]| | |]; try done);
    cbn [mbind result_bind];
    destruct ((b + bf) * bf) as [|[[]|[]|]|]; cbn [mbind result_bind];
    try (by intros ->%check_shape_Ok; rewrite ?inorder_plug; simpl;
         rewrite ?app_nil_r);
    try (destruct (rotate_shape _) as [t'| | |] eqn:E; try done;
         cbn [mbind result_bind]; intros ->%check_shape_Ok;
         apply rotate_shape_inorder in E; by rewrite !inorder_plug, E).
  destruct (rebalance_shape _ _ _) as [T1| | |] eqn:E; try done.
  cbn [mbind result_bind]. intros ->%check_shape_Ok. apply IH in E.
  rewrite E. cbn [plug]. rewrite !inorder_plug. by destruct f.
Qed.

(** *** What [tree_put] does to a tree held by the state *)

Lemma put_refines st T key0 a fuel :
  holds st T → (height T < fuel)%nat → heap st !! a = None →
  refines (freed st) [] (tree_put fuel (Some a) st key0) (put_shape T key0 a).
Proof.
  intros Hh Hfuel Hfresh. unfold tree_put, put_shape.
  pose proof (put_loop_path T [] fuel st key0 Hh Hfuel) as Hl.
  simpl in Hl. rewrite Hl. clear Hl.
  destruct (find_path key0 T []) as [c|] eqn:Hp; simpl; [|by exists st].
  pose proof (find_path_plug _ _ _ _ Hp) as HT.
  pose proof (find_path_length _ _ _ _ Hp) as Hlen. simpl in HT, Hlen.
  destruct c as [|f c].
  - simpl in HT. subst T. destruct Hh as (_ & Hroot & _).
    destruct st as [h [rt] fr]; simpl in *; subst rt.
    unfold tree_create_root, update; simpl.
    rewrite ?lookup_insert_eq. simpl. eexists. split; [done|].
    split; [|done]. split_and!; simpl; try done.
    + by rewrite lookup_insert_eq.
    + apply NoDup_singleton.
  - subst T.
    destruct (attach_holds _ _ _ _ Hh Hfresh) as (st1 & Hat & Hh1 & Ha1 & Hf1).
    cbn [parent_of tree_insert_under mbind result_bind]. rewrite Hat.
    cbn [mbind result_bind].
    assert (Hbf : (if bool_decide (slot_of (f :: c) = RightSlot (frame_loc f))
                   then 1 else -1) = frame_side f).
    { destruct f; cbn [slot_of frame_loc frame_side]; 
      rewrite ?bool_decide_eq_false_2, ?bool_decide_eq_true_2 by done; done. }
    rewrite Hbf. rewrite <- Hf1.
    assert (Hr : refines (freed st1) []
                   (tree_rebalance fuel st1 (Some (frame_loc f)) (frame_side f))
                   (rebalance_shape c (fill f (Node Nil a 0 0 Nil)) (frame_side f))).
    { destruct f as [p b k r|l p b k]; simpl in *;
        apply rebalance_refines; try done; lia. }
    destruct (rebalance_shape _ _ _) as [T'| | |] eqn:E; simpl in *; try done.
    + destruct Hr as (st2 & -> & Hh2 & Hf2). cbn [mbind result_bind].
      apply rebalance_shape_inorder in E.
      assert (Ha : a ∈ addrs T').
      { unfold addrs. rewrite E, inorder_plug.
        destruct f; simpl; rewrite !fmap_app; simpl; rewrite ?fmap_app; set_solver+. }
      destruct (set_key_refines _ _ _ key0 Hh2 Ha) as (st3 & -> & Hh3 & Hf3).
      exists st3. split_and!; [done..|congruence].
    + by rewrite Hr.
Qed.

(** ** No fault *)

Lemma safe_bind {A B} (m : result A) (f : A → result B) :
  safe m → (∀ x, m = Ok x → safe (f x)) → safe (m ≫= f).
Proof. destruct m; simpl; try done. intros _ H. by apply H. Qed.

Lemma safe_assert b : safe (c_assert b).
Proof. by destruct b. Qed.

Lemma left_checks_small ia ib :
  -4 <= ia <= 4 → -4 <= ib <= 4 →
  left_checks ia ib
  = (c_assert (in_unit (ia - 1 - Z.max ib 0));;
     c_assert (in_unit (ib - 1 + Z.max (ia - 1 - Z.max ib 0) 0))).
Proof.
  intros Ha Hb. unfold left_checks.
  rewrite (int_val_small (-1 - _)) by (unfold INT_MIN, INT_MAX; lia).
  cbn [mbind result_bind].
  rewrite (int_val_small (ia + _)) by (unfold INT_MIN, INT_MAX; lia).
  cbn [mbind result_bind].
  rewrite (int_val_small (-1 + _)) by (unfold INT_MIN, INT_MAX; lia).
  cbn [mbind result_bind].
  rewrite (int_val_small (ib + _)) by (unfold INT_MIN, INT_MAX; lia).
  cbn [mbind result_bind].
  by replace (ia + (-1 - Z.max ib 0)) with (ia - 1 - Z.max ib 0) by lia;
    replace (ib + (-1 + Z.max (ia - 1 - Z.max ib 0) 0))
      with (ib - 1 + Z.max (ia - 1 - Z.max ib 0) 0) by lia.
Qed.

Lemma right_checks_small ia ib :
  -4 <= ia <= 4 → -4 <= ib <= 4 →
  right_checks ia ib
  = (c_assert (in_unit (ia + 1 - Z.min ib 0));;
     c_assert (in_unit (ib + 1 + Z.min (ia + 1 - Z.min ib 0) 0))).
Proof.
  intros Ha Hb. unfold right_checks.
  rewrite (int_val_small (1 - _)) by (unfold INT_MIN, INT_MAX; lia).
  cbn [mbind result_bind].
  rewrite (int_val_small (ia + _)) by (unfold INT_MIN, INT_MAX; lia).
  cbn [mbind result_bind].
  rewrite (int_val_small (1 + _)) by (unfold INT_MIN, INT_MAX; lia).
  cbn [mbind result_bind].
  rewrite (int_val_small (ib + _)) by (unfold INT_MIN, INT_MAX; lia).
  cbn [mbind result_bind].
  by replace (ia + (1 - Z.min ib 0)) with (ia + 1 - Z.min ib 0) by lia;
    replace (ib + (1 + Z.min (ia + 1 - Z.min ib 0) 0))
      with (ib + 1 + Z.min (ia + 1 - Z.min ib 0) 0) by lia.
Qed.

Lemma in_unit_spec z : in_unit z = true ↔ -1 <= z <= 1.
Proof. unfold in_unit. lia. Qed.

(** A rotation of a subtree whose two nodes have small imbalances returns
    or fails an assertion, and what it returns has a root imbalance of -1,
    0 or 1. *)
Lemma rot_left_safe d a ia ka cc b ib kb e :
  -4 <= ia <= 4 → -4 <= ib <= 4 →
  safe (rot_left (Node d a ia ka (Node cc b ib kb e)))
  ∧ ∀ t', rot_left (Node d a ia ka (Node cc b ib kb e)) = Ok t' → unit_root t'.
Proof.
  intros Ha Hb. cbn [rot_left]. rewrite left_checks_small by done.
  destruct (0 <? ia); [|done]. cbn [c_assert mbind result_bind].
  destruct (in_unit (ia - 1 - _)); [|done]. cbn [c_assert mbind result_bind].
  destruct (in_unit (ib - 1 + _)) eqn:E; [|done]. cbn [c_assert mbind result_bind].
  split; [done|]. intros t' [= <-]. simpl. by apply in_unit_spec.
Qed.

Lemma rot_right_safe d a ia ka cc b ib kb e :
  -4 <= ia <= 4 → -4 <= ib <= 4 →
  safe (rot_right (Node (Node e b ib kb cc) a ia ka d))
  ∧ ∀ t', rot_right (Node (Node e b ib kb cc) a ia ka d) = Ok t' → unit_root t'.
Proof.
  intros Ha Hb. cbn [rot_right]. rewrite right_checks_small by done.
  destruct (ia <? 0); [|done]. cbn [c_assert mbind result_bind].
  destruct (in_unit (ia + 1 - _)); [|done]. cbn [c_assert mbind result_bind].
  destruct (in_unit (ib + 1 + _)) eqn:E; [|done]. cbn [c_assert mbind result_bind].
  split; [done|]. intros t' [= <-]. simpl. by apply in_unit_spec.
Qed.

Lemma rotate_shape_safe l a i k r :
  (i = 2 → ready 1 l r) → (i = -2 → ready (-1) l r) →
  safe (rotate_shape (Node l a i k r)).
Proof.
  intros H2 Hm2. cbn [rotate_shape].
  destruct (Z.eqb_spec i 2) as [->|_]; [|destruct (Z.eqb_spec i (-2)) as [->|_]; [|done]].
  - specialize (H2 eq_refl). unfold ready in H2. simpl in H2.
    destruct r as [|rl b ib kb rr]; [done|]. destruct H2 as [Hib Hrl].
    cbn [root_imb mbind result_bind].
    destruct (Z.ltb_spec ib 0).
    + specialize (Hrl ltac:(done)). destruct rl as [|e c ic kc cc]; [done|].
      simpl in Hrl.
      destruct (rot_right_safe rr b ib kb cc c ic kc e) as [Hs Hu]; [lia..|].
      apply safe_bind; [done|]. intros r' Hr'. specialize (Hu _ Hr').
      destruct r' as [|? ? ib' ? ?]; [done|]. simpl in Hu.
      apply rot_left_safe; lia.
    + cbn [mbind result_bind]. apply rot_left_safe; lia.
  - specialize (Hm2 eq_refl). unfold ready in Hm2. simpl in Hm2.
    destruct l as [|ll b ib kb lr]; [done|]. destruct Hm2 as [Hib Hlr].
    cbn [root_imb mbind result_bind].
    destruct (Z.ltb_spec 0 ib).
    + specialize (Hlr ltac:(done)). destruct lr as [|cc c ic kc e]; [done|].
      simpl in Hlr.
      destruct (rot_left_safe ll b ib kb cc c ic kc e) as [Hs Hu]; [lia..|].
      apply safe_bind; [done|]. intros l' Hl'. specialize (Hu _ Hl').
      destruct l' as [|? ? ib' ? ?]; [done|]. simpl in Hu.
      apply rot_right_safe; lia.
    + cbn [mbind result_bind]. apply rot_right_safe; lia.
Qed.

Lemma imb_at_Some a t : a ∈ addrs t → is_Some (imb_at a t).
Proof.
  induction t as [|l IHl x b k r IHr]; [by intros ?%elem_of_nil|].
  rewrite addrs_node. simpl. case_decide; [by eauto|].
  intros [Hl|[->|Hr]%elem_of_cons]%elem_of_app; try done.
  - destruct (IHl Hl) as [i ->]. eauto.
  - destruct (imb_at a l); [by eauto|by apply IHr].
Qed.

Lemma check_shape_safe a T : a ∈ addrs T → safe (check_shape a T).
Proof.
  intros [i Hi]%imb_at_Some. unfold check_shape. rewrite Hi.
  apply safe_bind; [apply safe_assert|done].
Qed.

Lemma addrs_plug_focus c l a b k r : a ∈ addrs (plug c (Node l a b k r)).
Proof. rewrite addrs_plug, addrs_node. set_solver+. Qed.

Lemma rebalance_shape_safe c : ∀ l a b k r bf,
  ready bf l r → safe (rebalance_shape c (Node l a b k r) bf).
Proof.
  induction c as [|f c IH]; intros l a b k r bf Hready; cbn [rebalance_shape];
    (destruct ((b =? 1) || (b =? 0) || (b =? -1)) eqn:Hb; [|done]);
    (destruct ((bf =? 1) || (bf =? -1)) eqn:Hbf; [|done]);
    (destruct ((b + bf =? 0) || (b + bf =? bf) || (b + bf =? 2 * bf)) eqn:Hb';
     [|done]);
    cbn [c_assert mbind result_bind];
    (apply safe_bind;
     [|intros T HT; apply check_shape_safe]).
  all: try (destruct (decide (b + bf = 0)) as [H0|H0];
    [replace ((b + bf) * bf) with 0 in * by lia
    |destruct (decide (b + bf = bf)) as [H1|H1];
     [replace ((b + bf) * bf) with 1 in * by lia
     |replace ((b + bf) * bf) with 2 in * by lia]]).
  all: try done.
  all: try (injection HT as <-; apply addrs_plug_focus).
  all: try (injection HT as <-; apply (addrs_plug_focus [])).
  - apply safe_bind; [|done]. apply rotate_shape_safe; intros Hi.
    + by replace bf with 1 in * by lia.
    + by replace bf with (-1) in * by lia.
  - destruct (rotate_shape _) as [t'| | |] eqn:E; try done.
    injection HT as <-. apply rotate_shape_inorder in E.
    unfold addrs. simpl. rewrite E. apply (addrs_plug_focus []).
  - assert (b = 0) as -> by lia.
    destruct f as [p bp kp rs|ls p bp kp]; cbn [fill frame_side]; apply IH;
      unfold ready in *; simpl.
    + split; [lia|]. intros Hpos. replace bf with 1 in * by lia.
      simpl in Hready. destruct r; [done|]. simpl. lia.
    + split; [lia|]. intros Hneg. replace bf with (-1) in * by lia.
      simpl in Hready. destruct l; [done|]. simpl. lia.
  - apply safe_bind; [|done]. apply rotate_shape_safe; intros Hi.
    + by replace bf with 1 in * by lia.
    + by replace bf with (-1) in * by lia.
  - injection HT as <-. apply (addrs_plug_focus (f :: c)).
  - apply rebalance_shape_inorder in HT. unfold addrs. rewrite HT.
    destruct f; apply (addrs_plug_focus (_ :: c)).
  - destruct (rotate_shape _) as [t'| | |] eqn:E; try done.
    injection HT as <-. apply rotate_shape_inorder in E.
    change (a ∈ addrs (plug (f :: c) t')).
    unfold addrs. rewrite !inorder_plug, E, <- inorder_plug.
    apply addrs_plug_focus.
Qed.

Lemma put_shape_safe T key0 a : safe (put_shape T key0 a).
Proof.
  unfold put_shape. destruct (find_path key0 T []) as [[|f c]|]; try done.
  apply safe_bind; [|done].
  destruct f as [p b k r|l p b k]; simpl; apply rebalance_shape_safe; unfold ready;
    simpl; (split; [lia|lia]).
Qed.

(** On a tree held by the state, whatever its imbalance fields are,
    [tree_put] never dereferences a null or dangling pointer and never
    overflows an [int], and it ends: it stops on an assertion or returns a
    state that holds a tree. *)
Theorem tree_put_no_fault st T key0 m fuel :
  holds st T → (height T < fuel)%nat →
  (∀ a, m = Some a → heap st !! a = None) →
  tree_put fuel m st key0 = AssertFail
  ∨ ∃ st' T', tree_put fuel m st key0 = Ok st' ∧ holds st' T'.
Proof.
  intros Hh Hfuel Hfresh. destruct m as [a|].
  - pose proof (put_refines st T key0 a fuel Hh Hfuel (Hfresh _ eq_refl)) as Hr.
    pose proof (put_shape_safe T key0 a) as Hs.
    destruct (put_shape T key0 a) as [T'| | |]; simpl in *; try done.
    + right. destruct Hr as (st' & -> & Hh' & _). eauto.
    + by left.
  - right. exists st, T. split; [|done].
    pose proof (tree_put_spec st T key0 NULL fuel Hh Hfuel Hfresh) as Hs.
    by destruct (find_path key0 T []).
Qed.

Lemma tree_put_no_fault_witness :
  tree_put 4 (Some 6%positive) st_avl 3 = AssertFail
  ∨ ∃ st' T', tree_put 4 (Some 6%positive) st_avl 3 = Ok st' ∧ holds st' T'.
Proof.
  apply (tree_put_no_fault st_avl T_avl 3 (Some 6%positive) 4).
  - exact st_avl_holds.
  - simpl. lia.
  - intros a [= <-]. vm_compute. reflexivity.
Defined.

(** ** The balance invariant after an insertion *)

Lemma avl_plug_inv c : ∀ t, avl (plug c t) → avl t.
Proof.
  induction c as [|f c IH]; intros t; simpl; [done|].
  intros H%IH. destruct f; simpl in H; tauto.
Qed.

Lemma avl_plug_replace c : ∀ t t',
  height t' = height t → avl t' → avl (plug c t) → avl (plug c t').
Proof.
  induction c as [|f c IH]; intros t t' Hh Ha; simpl; [done|].
  intros H. apply (IH (fill f t)); [| |done].
  - destruct f; simpl; lia.
  - apply avl_plug_inv in H. destruct f; simpl in *; rewrite ?Hh; tauto.
Qed.

Lemma avl_unit t : avl t → unit_fields t.
Proof. induction t; simpl; tauto. Qed.

Lemma unit_plug_inv c : ∀ t, unit_fields (plug c t) → unit_fields t.
Proof.
  induction c as [|f c IH]; intros t; simpl; [done|].
  intros H%IH. destruct f; simpl in H; tauto.
Qed.

Lemma unit_plug_replace c : ∀ t t',
  unit_fields t' → unit_fields (plug c t) → unit_fields (plug c t').
Proof.
  induction c as [|f c IH]; intros t t' Ha; simpl; [done|].
  intros H. apply (IH (fill f t)); [|done].
  apply unit_plug_inv in H. destruct f; simpl in *; tauto.
Qed.

Lemma imb_at_unit a t i : unit_fields t → imb_at a t = Some i → -1 <= i <= 1.
Proof.
  induction t as [|l IHl x b k r IHr]; simpl; [done|].
  intros (Hb & Hl & Hr). case_decide; [by intros [= <-]|].
  destruct (imb_at a l) eqn:E; [intros [= <-]; by apply IHl|by apply IHr].
Qed.

Lemma check_shape_unit a T :
  unit_fields T → a ∈ addrs T → check_shape a T = Ok T.
Proof.
  intros Hu [i Hi]%imb_at_Some. unfold check_shape. rewrite Hi.
  pose proof (imb_at_unit _ _ _ Hu Hi).
  by replace ((i =? 1) || (i =? 0) || (i =? -1)) with true by lia.
Qed.

(** A balanced node whose subtree on the path grew by one. *)
Lemma grow_step f s s' :
  frame_imb f = 0 → avl (fill f s) → avl s' → height s' = S (height s) →
  avl (fill (lean f) s') ∧ height (fill (lean f) s') = S (height (fill f s)).
Proof.
  destruct f; simpl; intros -> (Hb & _ & Hl & Hr) Hs' Hh; rewrite Hh;
    split_and!; try done; lia.
Qed.

Lemma grow lst : ∀ s s',
  Forall (λ g, frame_imb g = 0) lst → avl (plug lst s) →
  avl s' → height s' = S (height s) →
  avl (plug (lean <$> lst) s')
  ∧ height (plug (lean <$> lst) s') = S (height (plug lst s)).
Proof.
  induction lst as [|f lst IH]; intros s s' H0 Ha Hs' Hh; simpl; [done|].
  apply Forall_cons in H0 as [Hf H0]. simpl in Ha.
  destruct (grow_step f s s' Hf) as [Ha' Hh']; try done.
  { by apply avl_plug_inv in Ha. }
  by apply IH.
Qed.

(** The node absorbs the growth. *)
Lemma absorb_step f s s' :
  frame_imb f = - frame_side f → avl (fill f s) → avl s' →
  height s' = S (height s) →
  avl (fill (set_imb 0 f) s')
  ∧ height (fill (set_imb 0 f) s') = height (fill f s).
Proof.
  destruct f; simpl; intros -> (Hb & _ & Hl & Hr) Hs' Hh; rewrite Hh;
    split_and!; try done; lia.
Qed.

Lemma no_lean_to_empty f :
  avl (fill f Nil) → frame_imb f = frame_side f → False.
Proof. destruct f; simpl; intros (Hb & _) ->; lia. Qed.

(** The single rotation. *)
Lemma rotate_single f g s s' :
  frame_imb f = frame_side f → frame_imb g = 0 →
  frame_side g = frame_side f →
  avl (fill f (fill g s)) → avl s' → height s' = S (height s) →
  ∃ t', rotate_shape (fill (set_imb (2 * frame_side f) f) (fill (lean g) s'))
        = Ok t'
        ∧ avl t' ∧ height t' = height (fill f (fill g s)).
Proof.
  destruct f as [a b k r|l a b k], g as [a' b' k' r'|l' a' b' k']; simpl;
    intros -> -> Hs; try done; intros (? & ? & Ha1 & Ha2) Hs' Hh;
    simpl in Ha1, Ha2; destruct_and?; (eexists; split; [reflexivity|]);
    simpl; rewrite ?Hh in *; split_and!; try done; lia.
Qed.

(** The double rotation around the new leaf. *)
Lemma rotate_double_leaf f g x :
  frame_imb f = frame_side f → frame_imb g = 0 →
  frame_side g ≠ frame_side f →
  avl (fill f (fill g Nil)) →
  ∃ t', rotate_shape (fill (set_imb (2 * frame_side f) f)
                        (fill (lean g) (Node Nil x 0 0 Nil)))
        = Ok t'
        ∧ avl t' ∧ height t' = height (fill f (fill g Nil)).
Proof.
  destruct f as [a b k r|l a b k], g as [a' b' k' r'|l' a' b' k']; simpl;
    intros -> -> Hs; try done; intros (? & ? & Ha1 & Ha2);
    simpl in Ha1, Ha2; destruct_and?; (eexists; split; [reflexivity|]);
    simpl; split_and!; try done; lia.
Qed.

(** The double rotation around a grandchild that leans to the side of the
    node: the first rotation fails its last assertion. *)
Lemma rotate_double_aborts f g h s' :
  frame_imb f = frame_side f →
  frame_side g ≠ frame_side f → frame_side h = frame_side f →
  rotate_shape (fill (set_imb (2 * frame_side f) f)
                  (fill (lean g) (fill (lean h) s')))
  = AssertFail.
Proof.
  destruct f as [a b k r|l a b k], g as [a' b' k' r'|l' a' b' k'],
    h as [a'' b'' k'' r''|l'' a'' b'' k'']; simpl; intros _ Hg Hh; done.
Qed.

(** The double rotation around a grandchild that leans to the other side:
    the node that goes down gets a wrong imbalance. *)
Lemma rotate_double_wrong f g h s s' :
  frame_imb f = frame_side f → frame_imb g = 0 → frame_imb h = 0 →
  frame_side g ≠ frame_side f → frame_side h ≠ frame_side f →
  avl (fill f (fill g (fill h s))) → avl s' → height s' = S (height s) →
  ∃ t', rotate_shape (fill (set_imb (2 * frame_side f) f)
                        (fill (lean g) (fill (lean h) s')))
        = Ok t'
        ∧ ¬ avl t' ∧ unit_fields t'.
Proof.
  destruct f as [a b k r|l a b k], g as [a' b' k' r'|l' a' b' k'],
    h as [a'' b'' k'' r''|l'' a'' b'' k'']; simpl;
    intros -> -> -> Hg Hh; try done; intros (? & ? & Ha1 & Ha2) Hs' Hhs;
    simpl in Ha1, Ha2; destruct_and?; (eexists; split; [reflexivity|]);
    simpl; rewrite ?Hhs in *;
    (split; [intros ?; destruct_and?; lia|]);
    repeat match goal with H : avl _ |- _ => apply avl_unit in H end;
    split_and!; try done; lia.
Qed.

(** One call of [rebalance_shape] on the node of the frame [f]. *)
Lemma rebalance_shape_fill f c t :
  -1 <= frame_imb f <= 1 →
  rebalance_shape c (fill f t) (frame_side f)
  = ((if decide (frame_imb f = 0) then
        match c with
        | [] => Ok (fill (lean f) t)
        | f2 :: c2 => rebalance_shape c2 (fill f2 (fill (lean f) t)) (frame_side f2)
        end
      else if decide (frame_imb f = - frame_side f) then
        Ok (plug c (fill (set_imb 0 f) t))
      else
        t' ← rotate_shape (fill (set_imb (2 * frame_side f) f) t);
        Ok (plug c t'))
     ≫= check_shape (frame_loc f)).
Proof.
  intros Hb.
  destruct f as [a b k r|l a b k]; cbn [fill frame_side frame_imb frame_loc
    lean set_imb] in *;
    (assert (Hc : b = -1 ∨ b = 0 ∨ b = 1) by lia);
    destruct Hc as [-> | [-> | ->]]; destruct c; simpl; done.
Qed.

Lemma frame_loc_in f c t T :
  inorder T = inorder (plug (f :: c) t) → frame_loc f ∈ addrs T.
Proof.
  intros E. unfold addrs. rewrite E, inorder_plug.
  destruct f; simpl; rewrite !fmap_app; simpl; rewrite ?fmap_app; simpl;
    set_solver+.
Qed.

Lemma frame_imb_unit f s : avl (fill f s) → -1 <= frame_imb f <= 1.
Proof. destruct f; simpl; tauto. Qed.

Lemma frame_side_cases f : frame_side f = 1 ∨ frame_side f = -1.
Proof. destruct f; simpl; lia. Qed.

Lemma inorder_fill_imb f b t t' :
  inorder t' = inorder t → inorder (fill (set_imb b f) t') = inorder (fill f t).
Proof. destruct f; simpl; by intros ->. Qed.

Lemma avl_plug_cons_inv f c s : avl (plug (f :: c) s) → avl (fill f s).
Proof. apply (avl_plug_inv c). Qed.

Lemma outcome_plug c f cur t' orig :
  rotate_shape (fill (set_imb (2 * frame_side f) f) cur) = Ok t' →
  avl (plug c orig) →
  (avl t' ∧ height t' = height orig
   → ∃ T', ((t' ← rotate_shape (fill (set_imb (2 * frame_side f) f) cur);
             Ok (plug c t')) ≫= check_shape (frame_loc f)) = Ok T' ∧ avl T')
  ∧ (¬ avl t' ∧ unit_fields t'
     → ∃ T', ((t' ← rotate_shape (fill (set_imb (2 * frame_side f) f) cur);
               Ok (plug c t')) ≫= check_shape (frame_loc f)) = Ok T'
             ∧ ¬ avl T' ∧ unit_fields T').
Proof.
  intros E Ho. rewrite E. cbn [mbind result_bind].
  assert (Hin : frame_loc f ∈ addrs (plug c t')).
  { apply (frame_loc_in f c cur). apply rotate_shape_inorder in E.
    cbn [plug]. rewrite !inorder_plug, E. f_equal. f_equal.
    by apply inorder_fill_imb. }
  split.
  - intros [Ha Hh]. exists (plug c t').
    assert (avl (plug c t')) by by apply (avl_plug_replace c orig).
    split; [|done]. apply check_shape_unit; [by apply avl_unit|done].
  - intros [Hn Hu]. exists (plug c t').
    assert (unit_fields (plug c t')).
    { apply (unit_plug_replace c orig); [done|by apply avl_unit]. }
    split_and!; [|by intros ?%avl_plug_inv|done].
    by apply check_shape_unit.
Qed.

Lemma rotation_case a c f rb :
  Forall (λ g, frame_imb g = 0) rb →
  avl (plug (f :: c) (plug (rev rb) Nil)) →
  frame_imb f = frame_side f →
  let cur := plug (lean <$> rev rb) (Node Nil a 0 0 Nil) in
  let run := (t' ← rotate_shape (fill (set_imb (2 * frame_side f) f) cur);
              Ok (plug c t')) ≫= check_shape (frame_loc f) in
  match rotation_verdict rb f with
  | Balanced => ∃ T', run = Ok T' ∧ avl T'
  | Aborts => run = AssertFail
  | WrongField => ∃ T', run = Ok T' ∧ ¬ avl T' ∧ unit_fields T'
  end.
Proof.
  intros H0 Havl Hlean cur run.
  pose proof (avl_plug_cons_inv _ _ _ Havl) as Hf.
  destruct rb as [|g rb'].
  { exfalso. by eapply no_lean_to_empty. }
  apply Forall_cons in H0 as [Hg H0].
  set (s1 := plug (rev rb') Nil).
  set (cur1 := plug (lean <$> rev rb') (Node Nil a 0 0 Nil)).
  assert (Hcur : cur = fill (lean g) cur1).
  { unfold cur, cur1. simpl. by rewrite fmap_app, plug_app. }
  assert (Hs : plug (rev (g :: rb')) Nil = fill g s1).
  { unfold s1. simpl. by rewrite plug_app. }
  rewrite Hs in Hf, Havl. cbn [plug] in Havl.
  assert (Hs1 : avl s1).
  { destruct f, g; simpl in Hf; tauto. }
  assert (Hg1 : avl cur1 ∧ height cur1 = S (height s1)).
  { apply grow; [by apply Forall_rev|done|by simpl|done]. }
  destruct Hg1 as [Hc1 Hh1].
  destruct (decide (frame_side g = frame_side f)) as [Hgf|Hgf].
  - destruct (rotate_single f g s1 cur1) as (t' & E & Ha & Hh); try done.
    assert (rotation_verdict (g :: rb') f = Balanced) as ->.
    { unfold rotation_verdict. destruct rb'; [done|].
      by rewrite (proj2 (Z.eqb_eq _ _) Hgf). }
    unfold run. rewrite Hcur.
    by apply (outcome_plug c f _ t' (fill f (fill g s1))).
  - destruct rb' as [|h rb''].
    + destruct (rotate_double_leaf f g a) as (t' & E & Ha & Hh); try done.
      unfold run. rewrite Hcur. cbn [rotation_verdict].
      by apply (outcome_plug c f _ t' (fill f (fill g Nil))).
    + apply Forall_cons in H0 as [Hh0 H0].
      set (s2 := plug (rev rb'') Nil).
      set (cur2 := plug (lean <$> rev rb'') (Node Nil a 0 0 Nil)).
      assert (Hcur1 : cur1 = fill (lean h) cur2).
      { unfold cur1, cur2. simpl. by rewrite fmap_app, plug_app. }
      assert (Hs1' : s1 = fill h s2).
      { unfold s1, s2. simpl. by rewrite plug_app. }
      cbn [rotation_verdict].
      rewrite (proj2 (Z.eqb_neq _ _) Hgf).
      unfold run. rewrite Hcur, Hcur1.
      destruct (Z.eqb_spec (frame_side h) (frame_side f)) as [Hhf|Hhf].
      * by rewrite rotate_double_aborts.
      * assert (Hg2 : avl cur2 ∧ height cur2 = S (height s2)).
        { apply grow; [by apply Forall_rev|..|by simpl|done].
          rewrite Hs1' in Hs1. destruct h; simpl in Hs1; tauto. }
        destruct Hg2 as [Hc2 Hh2].
        rewrite Hs1' in Hf, Havl.
        destruct (rotate_double_wrong f g h s2 cur2) as (t' & E & Hn & Hu);
          try done.
        by apply (outcome_plug c f _ t' (fill f (fill g (fill h s2)))).
Qed.

Lemma absorb_case c f s cur :
  avl (plug (f :: c) s) → frame_imb f = - frame_side f →
  avl cur → height cur = S (height s) →
  ∃ T', (Ok (plug c (fill (set_imb 0 f) cur)) ≫= check_shape (frame_loc f))
        = Ok T' ∧ avl T'.
Proof.
  intros Havl Hopp Hcur Hhc.
  pose proof (avl_plug_cons_inv _ _ _ Havl) as Hf.
  destruct (absorb_step f _ cur Hopp Hf Hcur Hhc) as [Ha' Hh'].
  assert (avl (plug c (fill (set_imb 0 f) cur))).
  { by apply (avl_plug_replace c (fill f s)). }
  eexists. split; [|done]. cbn [mbind result_bind].
  apply check_shape_unit; [by apply avl_unit|].
  apply (frame_loc_in f c cur). cbn [plug]. rewrite !inorder_plug.
  f_equal. f_equal. by apply inorder_fill_imb.
Qed.

Lemma verdict_of_cons rb f c :
  verdict_of rb (f :: c)
  = if frame_imb f =? 0 then verdict_of (f :: rb) c
    else if frame_imb f =? - frame_side f then Balanced
    else rotation_verdict rb f.
Proof. done. Qed.

Lemma rebalance_verdict a c : ∀ f rb,
  Forall (λ g, frame_imb g = 0) rb →
  avl (plug (rev rb ++ f :: c) Nil) →
  let cur := plug (lean <$> rev rb) (Node Nil a 0 0 Nil) in
  match verdict_of rb (f :: c) with
  | Balanced =>
      ∃ T', rebalance_shape c (fill f cur) (frame_side f) = Ok T' ∧ avl T'
  | Aborts => rebalance_shape c (fill f cur) (frame_side f) = AssertFail
  | WrongField =>
      ∃ T', rebalance_shape c (fill f cur) (frame_side f) = Ok T'
            ∧ ¬ avl T' ∧ unit_fields T'
  end.
Proof.
  induction c as [|f2 c2 IH]; intros f rb H0 Havl cur;
    pose proof Havl as Havl0;
    rewrite plug_app in Havl;
    pose proof (avl_plug_cons_inv _ _ _ Havl) as Hf;
    pose proof (frame_imb_unit _ _ Hf) as Hb;
    assert (Hs : avl (plug (rev rb) Nil)) by (destruct f; simpl in Hf; tauto);
    (assert (Hg : avl cur ∧ height cur = S (height (plug (rev rb) Nil)))
       by (apply grow; [by apply Forall_rev|done|by simpl|done]));
    destruct Hg as [Hcur Hhc];
    rewrite rebalance_shape_fill by done; rewrite verdict_of_cons;
    (destruct (Z.eqb_spec (frame_imb f) 0) as [Hz|Hz];
     [rewrite decide_True by done
     |rewrite decide_False by done;
      destruct (Z.eqb_spec (frame_imb f) (- frame_side f)) as [Hopp|Hopp];
      [rewrite decide_True by done; by apply (absorb_case _ f (plug (rev rb) Nil))
      |rewrite decide_False by done;
       apply (rotation_case a _ f rb); try done;
       pose proof (frame_side_cases f); lia]]).
  - (* the root grows *)
    destruct (grow_step f _ cur Hz Hf Hcur Hhc) as [Ha' _].
    eexists. split; [|exact Ha']. cbn [mbind result_bind verdict_of].
    apply check_shape_unit; [by apply avl_unit|].
    apply (frame_loc_in f [] cur). by apply (inorder_fill_imb f).
  - (* the growth goes on to the parent *)
    specialize (IH f2 (f :: rb)).
    assert (Hcur' : plug (lean <$> rev (f :: rb)) (Node Nil a 0 0 Nil)
                    = fill (lean f) cur).
    { simpl. by rewrite fmap_app, plug_app. }
    rewrite Hcur' in IH.
    assert (Hin : ∀ T', rebalance_shape c2 (fill f2 (fill (lean f) cur))
                          (frame_side f2) = Ok T' → frame_loc f ∈ addrs T').
    { intros T' E%rebalance_shape_inorder.
      apply (frame_loc_in f (f2 :: c2) cur). rewrite E. cbn [plug].
      rewrite !inorder_plug. f_equal. f_equal. unfold lean.
      destruct f2; simpl;
        by rewrite (inorder_fill_imb f (frame_side f) cur cur). }
    assert (Hpre : avl (plug (rev (f :: rb) ++ f2 :: c2) Nil)).
    { simpl. by rewrite <- app_assoc. }
    specialize (IH (Forall_cons_2 _ _ _ Hz H0) Hpre). cbv zeta in IH.
    destruct (verdict_of (f :: rb) (f2 :: c2)).
    + destruct IH as (T' & E & Ha). exists T'. split; [|done].
      rewrite E. cbn [mbind result_bind].
      apply check_shape_unit; [by apply avl_unit|by apply Hin].
    + by rewrite IH.
    + destruct IH as (T' & E & Hn & Hu). exists T'. split; [|done].
      rewrite E. cbn [mbind result_bind].
      apply check_shape_unit; [done|by apply Hin].
Qed.

Lemma set_key_height a k t : height (set_key a k t) = height t.
Proof. induction t; simpl; congruence. Qed.

Lemma set_key_avl a k t : avl (set_key a k t) ↔ avl t.
Proof.
  induction t as [|l IHl x b kx r IHr]; simpl; [done|].
  rewrite !set_key_height, IHl, IHr. done.
Qed.

Lemma put_verdict T key0 a c :
  avl T → find_path key0 T [] = Some c →
  match verdict_of [] c with
  | Balanced => ∃ T', put_shape T key0 a = Ok T' ∧ avl T'
  | Aborts => put_shape T key0 a = AssertFail
  | WrongField => ∃ T', put_shape T key0 a = Ok T' ∧ ¬ avl T'
  end.
Proof.
  intros Ha Hp. unfold put_shape. rewrite Hp.
  pose proof (find_path_plug _ _ _ _ Hp) as HT. simpl in HT.
  destruct c as [|f c].
  - simpl. eexists. split; [done|]. simpl. split_and!; try done; lia.
  - pose proof (rebalance_verdict a c f [] (Forall_nil_2 _)) as Hv.
    assert (Ha0 : avl (plug (rev [] ++ f :: c) Nil))
      by (change (avl (plug (f :: c) Nil)); by rewrite HT).
    specialize (Hv Ha0). cbv zeta in Hv.
    change (plug (lean <$> rev []) (Node Nil a 0 0 Nil))
      with (Node Nil a 0 0 Nil) in Hv.
    destruct (verdict_of [] (f :: c)).
    + destruct Hv as (T' & -> & Ha'). eexists. split; [done|].
      by apply set_key_avl.
    + by rewrite Hv.
    + destruct Hv as (T' & -> & Hn & _). eexists. split; [done|].
      by rewrite set_key_avl.
Qed.

(** The tree after an insertion that returned, when the key was not there. *)
Lemma put_bst st T key0 a fuel c st' T' :
  holds st T → bst T → (height T < fuel)%nat → heap st !! a = None →
  find_path key0 T [] = Some c →
  tree_put fuel (Some a) st key0 = Ok st' → holds st' T' →
  bst T' ∧ inorder T' = before c ++ (a, key0) :: after c.
Proof.
  intros Hh Hb Hfuel Hfresh Hp Hr Hh'.
  assert (Hf : ∀ a', Some a = Some a' → heap st !! a' = None)
    by by intros ? [= <-].
  pose proof (tree_put_spec st T key0 (Some a) fuel Hh Hfuel Hf) as Hs.
  rewrite Hp in Hs. destruct Hs as [_ Hs].
  destruct (Hs _ Hr) as (T3 & Hh3 & Hi3 & _).
  rewrite (holds_unique _ _ _ Hh' Hh3). split; [|done].
  destruct (tree_put_result _ _ _ _ _ _ Hh Hb Hfuel Hf Hr)
    as [[_ [Hin|?]]|(_ & a' & l1 & l2 & T2 & _ & _ & Hh2 & _ & Hb2 & _)];
    try done.
  - exfalso. by eapply find_path_absent.
  - by rewrite (holds_unique _ _ _ Hh3 Hh2).
Qed.


Lemma T_avl_bst : bst T_avl.
Proof. simpl. split_and!; repeat constructor; lia. Qed.

Lemma T_avl_avl : avl T_avl.
Proof. simpl. split_and!; lia. Qed.


(** ** Keys in increasing order *)

Lemma find_path_right key0 t : ∀ c,
  Forall (λ x, x < key0) (keys t) →
  ∃ c1, find_path key0 t c = Some (c1 ++ c)
        ∧ Forall (λ f, frame_side f = 1) c1.
Proof.
  induction t as [|l IHl a b k r IHr]; intros c Hk; simpl.
  - by exists [].
  - rewrite keys_node in Hk. apply Forall_app in Hk as [_ Hk].
    apply Forall_cons in Hk as [Hlt Hk].
    replace (k <? key0) with true by lia.
    destruct (IHr (InRight l a b k :: c) Hk) as (c1 & -> & Hc1).
    exists (c1 ++ [InRight l a b k]). split; [by rewrite <- app_assoc|].
    apply Forall_app. split; [done|]. by repeat constructor.
Qed.

Lemma verdict_right c : ∀ rb,
  Forall (λ f, frame_side f = 1) rb → Forall (λ f, frame_side f = 1) c →
  verdict_of rb c = Balanced.
Proof.
  induction c as [|f c IH]; intros rb Hrb Hc; [done|].
  apply Forall_cons in Hc as [Hf Hc]. rewrite verdict_of_cons.
  destruct (frame_imb f =? 0); [by apply IH; [constructor|]|].
  destruct (frame_imb f =? - frame_side f); [done|].
  destruct rb as [|g [|h rb]]; try done. simpl.
  apply Forall_cons in Hrb as [Hg _]. by rewrite Hg, Hf.
Qed.

Lemma after_right c : Forall (λ f, frame_side f = 1) c → after c = [].
Proof.
  induction c as [|f c IH]; [done|]. intros [Hf Hc]%Forall_cons. simpl.
  rewrite IH by done. by destruct f.
Qed.

Lemma tree_put_largest st T key0 a fuel :
  holds st T → avl T → bst T → (height T < fuel)%nat →
  heap st !! a = None → Forall (λ x, x < key0) (keys T) →
  ∃ st' T', tree_put fuel (Some a) st key0 = Ok st'
            ∧ holds st' T' ∧ avl T' ∧ bst T'
            ∧ keys T' = keys T ++ [key0].
Proof.
  intros Hh Ha Hb Hfuel Hfresh Hk.
  destruct (find_path_right key0 T [] Hk) as (c & Hp & Hc).
  rewrite app_nil_r in Hp.
  pose proof (put_refines st T key0 a fuel Hh Hfuel Hfresh) as Hr.
  pose proof (put_verdict T key0 a c Ha Hp) as Hv.
  rewrite (verdict_right c []) in Hv by done.
  destruct Hv as (T' & E & Ha'). rewrite E in Hr.
  destruct Hr as (st' & Hr & Hh' & _). exists st', T'.
  destruct (put_bst st T key0 a fuel c st' T') as [Hb' Hi']; try done.
  split_and!; try done.
  unfold keys. rewrite Hi', (find_path_inorder _ _ _ Hp), (after_right c) by done.
  by rewrite app_nil_r, fmap_app.
Qed.

Lemma put_all_sorted fuel : ∀ ks ms st T,
  holds st T → tight st T → avl T → bst T →
  (∀ a, a ∈ ms → heap st !! a = None) → NoDup ms →
  length ms = length ks → (size T + length ks < fuel)%nat →
  StronglySorted Z.lt (keys T ++ ks) →
  ∃ st' T', put_all fuel (Some <$> ms) ks st = Ok st'
            ∧ holds st' T' ∧ avl T' ∧ bst T' ∧ keys T' = keys T ++ ks.
Proof.
  induction ks as [|k ks IH]; intros ms st T Hh Ht Ha Hb Hfresh Hnd Hlen Hfuel Hs.
  - destruct ms; [|done]. exists st, T. by rewrite app_nil_r.
  - destruct ms as [|m ms]; [done|]. simpl in Hlen, Hfuel.
    apply NoDup_cons in Hnd as [Hm Hnd].
    pose proof (height_le_size T) as Hhs.
    assert (Hk : Forall (λ x, x < k) (keys T)).
    { apply StronglySorted_app in Hs as (H12 & _ & _).
      apply Forall_forall. intros x Hx. apply H12; [done|]. set_solver+. }
    destruct (tree_put_largest st T k m fuel) as (st1 & T1 & Hput & Hh1 & Ha1 & Hb1 & Hk1);
      try done; [lia|apply Hfresh; set_solver+|].
    destruct (tight_put fuel (Some m) st T k st1 Hh Ht) as (T1' & Hh1' & Ht1 & _ & Hs1 & Hn1);
      [lia| |done|].
    { intros ? [= <-]. apply Hfresh. set_solver+. }
    rewrite (holds_unique _ _ _ Hh1' Hh1) in *.
    destruct (IH ms st1 T1) as (st' & T' & Hr & Hh' & Ha' & Hb' & Hk'); try done.
    + intros x Hx. destruct (heap st1 !! x) eqn:E; [|done]. exfalso.
      assert (Some m = Some x) as [= ->].
      { apply Hn1; [apply Hfresh; set_solver|by eauto]. }
      done.
    + by injection Hlen.
    + lia.
    + by rewrite Hk1, <- app_assoc.
    + exists st', T'. simpl. rewrite Hput. cbn [mbind result_bind].
      split_and!; try done. by rewrite Hk', Hk1, <- app_assoc.
Qed.

(** Keys inserted in increasing order into the empty tree, each with a
    block of its own: every insertion returns, and the tree has the keys in
    this order and the balance invariant. *)
Theorem put_all_ascending fuel ks ms :
  StronglySorted Z.lt ks → NoDup ms → length ms = length ks →
  (length ks < fuel)%nat →
  ∃ st T, put_all fuel (Some <$> ms) ks empty_state = Ok st
          ∧ holds st T ∧ avl T ∧ bst T ∧ keys T = ks.
Proof.
  intros Hs Hnd Hlen Hfuel.
  apply (put_all_sorted fuel ks ms empty_state Nil); try done.
  - split_and!; [done..|apply NoDup_nil_2].
  - intros x [? Hx]. simpl in Hx. by rewrite lookup_empty in Hx.
Qed.

Lemma put_all_ascending_witness :
  ∃ st T, put_all 8 (Some <$> [1; 2; 3; 4; 5; 6; 7]%positive)
            [1; 2; 3; 4; 5; 6; 7] empty_state = Ok st
          ∧ holds st T ∧ avl T ∧ bst T ∧ keys T = [1; 2; 3; 4; 5; 6; 7].
Proof.
  apply (put_all_ascending 8 [1; 2; 3; 4; 5; 6; 7]
           [1; 2; 3; 4; 5; 6; 7]%positive).
  - repeat constructor; lia.
  - apply (@bool_decide_unpack _ (NoDup_dec _)). vm_compute. exact I.
  - reflexivity.
  - simpl. lia.
Defined.

(** ** Keys in decreasing order *)

Lemma find_path_left key0 t : ∀ c,
  Forall (λ x, key0 < x) (keys t) →
  ∃ c1, find_path key0 t c = Some (c1 ++ c)
        ∧ Forall (λ f, frame_side f = -1) c1.
Proof.
  induction t as [|l IHl a b k r IHr]; intros c Hk; simpl.
  - by exists [].
  - rewrite keys_node in Hk. apply Forall_app in Hk as [Hk Hk'].
    apply Forall_cons in Hk' as [Hlt _].
    replace (k <? key0) with false by lia.
    replace (key0 <? k) with true by lia.
    destruct (IHl (InLeft a b k r :: c) Hk) as (c1 & -> & Hc1).
    exists (c1 ++ [InLeft a b k r]). split; [by rewrite <- app_assoc|].
    apply Forall_app. split; [done|]. by repeat constructor.
Qed.

Lemma verdict_left c : ∀ rb,
  Forall (λ f, frame_side f = -1) rb → Forall (λ f, frame_side f = -1) c →
  verdict_of rb c = Balanced.
Proof.
  induction c as [|f c IH]; intros rb Hrb Hc; [done|].
  apply Forall_cons in Hc as [Hf Hc]. rewrite verdict_of_cons.
  destruct (frame_imb f =? 0); [by apply IH; [constructor|]|].
  destruct (frame_imb f =? - frame_side f); [done|].
  destruct rb as [|g [|h rb]]; try done. simpl.
  apply Forall_cons in Hrb as [Hg _]. by rewrite Hg, Hf.
Qed.

Lemma before_left c : Forall (λ f, frame_side f = -1) c → before c = [].
Proof.
  induction c as [|f c IH]; [done|]. intros [Hf Hc]%Forall_cons. simpl.
  rewrite IH by done. by destruct f.
Qed.

Lemma tree_put_smallest st T key0 a fuel :
  holds st T → avl T → bst T → (height T < fuel)%nat →
  heap st !! a = None → Forall (λ x, key0 < x) (keys T) →
  ∃ st' T', tree_put fuel (Some a) st key0 = Ok st'
            ∧ holds st' T' ∧ avl T' ∧ bst T'
            ∧ keys T' = key0 :: keys T.
Proof.
  intros Hh Ha Hb Hfuel Hfresh Hk.
  destruct (find_path_left key0 T [] Hk) as (c & Hp & Hc).
  rewrite app_nil_r in Hp.
  pose proof (put_refines st T key0 a fuel Hh Hfuel Hfresh) as Hr.
  pose proof (put_verdict T key0 a c Ha Hp) as Hv.
  rewrite (verdict_left c []) in Hv by done.
  destruct Hv as (T' & E & Ha'). rewrite E in Hr.
  destruct Hr as (st' & Hr & Hh' & _). exists st', T'.
  destruct (put_bst st T key0 a fuel c st' T') as [Hb' Hi']; try done.
  split_and!; try done.
  unfold keys. by rewrite Hi', (find_path_inorder _ _ _ Hp), (before_left c).
Qed.

Lemma put_all_sorted_down fuel : ∀ ks ms st T,
  holds st T → tight st T → avl T → bst T →
  (∀ a, a ∈ ms → heap st !! a = None) → NoDup ms →
  length ms = length ks → (size T + length ks < fuel)%nat →
  StronglySorted Z.lt (rev ks ++ keys T) →
  ∃ st' T', put_all fuel (Some <$> ms) ks st = Ok st'
            ∧ holds st' T' ∧ avl T' ∧ bst T' ∧ keys T' = rev ks ++ keys T.
Proof.
  induction ks as [|k ks IH]; intros ms st T Hh Ht Ha Hb Hfresh Hnd Hlen Hfuel Hs.
  - destruct ms; [|done]. by exists st, T.
  - destruct ms as [|m ms]; [done|]. simpl in Hlen, Hfuel, Hs.
    rewrite <- app_assoc in Hs. simpl in Hs.
    apply NoDup_cons in Hnd as [Hm Hnd].
    pose proof (height_le_size T) as Hhs.
    assert (Hk : Forall (λ x, k < x) (keys T)).
    { apply StronglySorted_app in Hs as (_ & _ & Hs).
      by apply StronglySorted_cons in Hs as [Hs _]. }
    destruct (tree_put_smallest st T k m fuel) as (st1 & T1 & Hput & Hh1 & Ha1 & Hb1 & Hk1);
      try done; [lia|apply Hfresh; set_solver+|].
    destruct (tight_put fuel (Some m) st T k st1 Hh Ht) as (T1' & Hh1' & Ht1 & _ & Hs1 & Hn1);
      [lia| |done|].
    { intros ? [= <-]. apply Hfresh. set_solver+. }
    rewrite (holds_unique _ _ _ Hh1' Hh1) in *.
    destruct (IH ms st1 T1) as (st' & T' & Hr & Hh' & Ha' & Hb' & Hk'); try done.
    + intros x Hx. destruct (heap st1 !! x) eqn:E; [|done]. exfalso.
      assert (Some m = Some x) as [= ->].
      { apply Hn1; [apply Hfresh; set_solver|by eauto]. }
      done.
    + by injection Hlen.
    + lia.
    + by rewrite Hk1.
    + exists st', T'. simpl. rewrite Hput. cbn [mbind result_bind].
      split_and!; try done. by rewrite Hk', Hk1, <- app_assoc.
Qed.

(** Keys inserted in decreasing order into the empty tree, each with a
    block of its own: every insertion returns, and the tree has the keys in
    increasing order and the balance invariant. *)
Theorem put_all_descending fuel ks ms :
  StronglySorted Z.lt (rev ks) → NoDup ms → length ms = length ks →
  (length ks < fuel)%nat →
  ∃ st T, put_all fuel (Some <$> ms) ks empty_state = Ok st
          ∧ holds st T ∧ avl T ∧ bst T ∧ keys T = rev ks.
Proof.
  intros Hs Hnd Hlen Hfuel.
  destruct (put_all_sorted_down fuel ks ms empty_state Nil)
    as (st & T & Hr & Hh & Ha & Hb & Hk); try done.
  - split_and!; [done..|apply NoDup_nil_2].
  - intros x [? Hx]. simpl in Hx. by rewrite lookup_empty in Hx.
  - by rewrite app_nil_r.
  - exists st, T. split_and!; try done. by rewrite Hk, app_nil_r.
Qed.

Lemma put_all_descending_witness :
  ∃ st T, put_all 8 (Some <$> [1; 2; 3; 4; 5; 6; 7]%positive)
            [7; 6; 5; 4; 3; 2; 1] empty_state = Ok st
          ∧ holds st T ∧ avl T ∧ bst T ∧ keys T = rev [7; 6; 5; 4; 3; 2; 1].
Proof.
  apply (put_all_descending 8 [7; 6; 5; 4; 3; 2; 1]
           [1; 2; 3; 4; 5; 6; 7]%positive).
  - repeat constructor; lia.
  - apply (@bool_decide_unpack _ (NoDup_dec _)). vm_compute. exact I.
  - reflexivity.
  - simpl. lia.
Defined.

(** ** A new node in the place of a subtree *)

(** Linking a new block at a place that may hold a subtree. *)
Lemma attach_over f c t a st :
  holds st (plug (f :: c) t) → heap st !! a = None →
  ∃ st1,
    tree_attach st (Some (frame_loc f))
      (bool_decide (slot_of (f :: c) = RightSlot (frame_loc f))) a = Ok st1
    ∧ holds st1 (plug (f :: c) (Node Nil a 0 0 Nil))
    ∧ freed st1 = freed st
    ∧ ∀ x, x ∈ addrs t → heap st1 !! x = heap st !! x.
Proof.
  intros Hh Hfresh. pose proof (fresh_not_in _ _ _ Hh Hfresh) as Ha.
  destruct Hh as (Hrep & Hroot & Hnd).
  apply rep_plug in Hrep as [[[Hf Hs] Hc] _].
  rewrite addrs_plug_perm in Ha, Hnd.
  apply NoDup_app in Hnd as (Hnd & Hdisj & _).
  rewrite not_elem_of_app in Ha. destruct Ha as [Ha Hat].
  assert (Hnd' : NoDup (addrs (plug (f :: c) (Node Nil a 0 0 Nil)))).
  { rewrite addrs_plug_perm. apply NoDup_app. split_and!; [done| |].
    - intros x Hx [->|[]%elem_of_nil]%elem_of_cons. done.
    - apply NoDup_singleton. }
  rewrite elem_of_ctx_addrs_cons in Ha.
  assert (Hpt : ∀ x, x ∈ addrs t → x ≠ frame_loc f).
  { intros x Hx ->. apply (Hdisj (frame_loc f)); [|done].
    apply elem_of_ctx_addrs_cons. by left. }
  rewrite ctx_addrs_cons in Hnd. apply NoDup_cons in Hnd as [Hp Hnd].
  rewrite not_elem_of_app in Hp.
  set (p := frame_loc f) in *.
  assert (Hpa : p ≠ a) by (intros Heq; apply Ha; by left).
  set (h1 := <[p := frame_node f (Some a) (parent_of c)]>
               (<[a := init_node (Some p)]> (heap st))).
  assert (Hfar : ∀ x, x ∈ addrs (sibling f) ∨ x ∈ ctx_addrs c →
                      h1 !! x = heap st !! x).
  { intros x Hx. unfold h1. rewrite !lookup_insert_ne; [done|..]; intros Heq;
      subst x; tauto. }
  exists (mk_state h1 (the_tree st) (freed st)). split_and!; try done.
  - unfold tree_attach, update, load, store; simpl.
    rewrite lookup_insert_ne, Hf by done. subst h1 p.
    destruct f; simpl; rewrite ?bool_decide_eq_false_2, ?bool_decide_eq_true_2 by done;
      done.
  - split_and!; [|by simpl; rewrite Hroot; apply root_of_plug_cons|done].
    apply (rep_plug _ (f :: c)). cbn [rep_ctx rep root_of heap parent_of].
    fold p. split_and!; try done.
    + apply lookup_insert_eq.
    + eapply rep_ext; [|done]. intros; apply Hfar; tauto.
    + eapply rep_ctx_ext; [|done]. intros; apply Hfar; tauto.
    + unfold h1. by rewrite lookup_insert_ne, lookup_insert_eq by done.
  - intros x Hx. simpl. unfold h1. rewrite !lookup_insert_ne; [done|..].
    + by intros ->.
    + intros Heq. apply (Hpt x Hx). done.
Qed.

(** [tree_insert_under] on a side of [parent] where a subtree is, as its
    remark says: the new node takes the place of the subtree, whose nodes
    stay allocated, are not released and are not in the tree any more. *)
Theorem insert_under_overwrites f c t a st fuel st' r :
  holds st (plug (f :: c) t) → heap st !! a = None → (length c < fuel)%nat →
  tree_insert_under fuel (Some a) st (Some (frame_loc f))
    (bool_decide (slot_of (f :: c) = RightSlot (frame_loc f))) = Ok (st', r) →
  r = Some a
  ∧ freed st' = freed st
  ∧ ∃ T', holds st' T'
          ∧ inorder T' = before (f :: c) ++ (a, 0) :: after (f :: c)
          ∧ ∀ x, x ∈ addrs t → is_Some (heap st' !! x) ∧ x ∉ addrs T'.
Proof.
  intros Hh Hfresh Hfuel Hr. unfold tree_insert_under in Hr.
  pose proof (fresh_not_in _ _ _ Hh Hfresh) as Ha.
  destruct (attach_over _ _ _ _ _ Hh Hfresh) as (st1 & Hat & Hh1 & Hf1 & Hold).
  rewrite Hat in Hr. cbn [mbind result_bind] in Hr.
  set (bf := if bool_decide _ then 1 else -1) in Hr.
  assert (Hk : kept [] (plug (f :: c) (Node Nil a 0 0 Nil)) st1
                 (tree_rebalance fuel st1 (Some (frame_loc f)) bf)).
  { destruct f as [p b k rs|l p b k];
      [apply (rebalance_kept c (Node Nil a 0 0 Nil) p b k rs)
      |apply (rebalance_kept c l p b k (Node Nil a 0 0 Nil))];
      simpl in *; try done; lia. }
  destruct Hk as [_ Hk].
  destruct (tree_rebalance fuel st1 _ bf) as [st2| | |] eqn:Hrb; try done.
  injection Hr as <- <-.
  destruct (Hk _ eq_refl) as (T2 & Hh2 & Hi2 & Hf2).
  rewrite inorder_plug in Hi2. simpl in Hi2.
  split_and!; [done|congruence|].
  exists T2. split_and!; [done|done|].
  intros x Hx. split.
  - destruct Hh as (Hrep & _).
    assert (Hin : x ∈ addrs (plug (f :: c) t)).
    { rewrite addrs_plug_perm. set_solver. }
    destruct (rep_is_Some _ _ _ _ Hrep Hin) as [n Hn].
    rewrite <- Hold in Hn by done.
    destruct (keeps_rebalance _ _ _ _ _ Hrb _ _ Hn) as (n' & -> & _). eauto.
  - destruct Hh as (_ & _ & Hnd). rewrite addrs_plug_perm in Hnd, Ha.
    apply NoDup_app in Hnd as (_ & Hdisj & _).
    unfold addrs. rewrite Hi2. unfold ctx_addrs in Hdisj.
    rewrite fmap_app, fmap_cons. simpl.
    intros [H1|[->|H2]%elem_of_cons]%elem_of_app.
    + apply (Hdisj x); [|done]. set_solver.
    + apply Ha. set_solver.
    + apply (Hdisj x); [|done]. set_solver.
Qed.

Lemma insert_under_overwrites_witness :
  Some 3%positive = Some 3%positive
  ∧ freed st_leak = freed st_12_4
  ∧ ∃ T', holds st_leak T'
          ∧ inorder T'
            = before [InLeft 1 (-1) 12 Nil]
              ++ (3%positive, 0) :: after [InLeft 1 (-1) 12 Nil]
          ∧ ∀ x, x ∈ addrs (Node Nil 2 0 4 Nil) →
                 is_Some (heap st_leak !! x) ∧ x ∉ addrs T'.
Proof.
  apply (insert_under_overwrites (InLeft 1 (-1) 12 Nil) [] (Node Nil 2 0 4 Nil)
           3%positive st_12_4 3 st_leak (Some 3%positive)).
  - exact st_12_4_holds.
  - vm_compute. reflexivity.
  - simpl. lia.
  - vm_compute. reflexivity.
Defined.

(** [tree_create_root] on a tree that is not empty, as its remark says:
    the root field is overwritten with the outcome of [malloc] before it is
    tested, so the tree becomes the new node alone, or the empty tree when
    the allocation fails; the old nodes stay in the heap as they were and
    nothing is released. *)
Theorem create_root_overwrites m st T st' r :
  holds st T → (∀ a, m = Some a → heap st !! a = None) →
  tree_create_root m st = Ok (st', r) →
  r = m
  ∧ freed st' = freed st
  ∧ holds st' (if m is Some a then Node Nil a 0 0 Nil else Nil)
  ∧ ∀ x, x ∈ addrs T → heap st' !! x = heap st !! x.
Proof.
  intros Hh Hfresh Hr. unfold tree_create_root in Hr. simpl in Hr.
  destruct m as [a|]; injection Hr as <- <-; simpl.
  - specialize (Hfresh a eq_refl).
    pose proof (fresh_not_in _ _ _ Hh Hfresh) as Ha.
    split_and!; try done.
    + split_and!; simpl; try done; [by rewrite lookup_insert_eq|].
      apply NoDup_singleton.
    + intros x Hx. rewrite lookup_insert_ne; [done|]. by intros ->.
  - split_and!; try done.
    split_and!; simpl; try done. apply NoDup_nil_2.
Qed.

Lemma create_root_overwrites_witness :
  NULL = NULL
  ∧ freed (set_root st_12_4 NULL) = freed st_12_4
  ∧ holds (set_root st_12_4 NULL) Nil
  ∧ ∀ x, x ∈ addrs T_12_4 →
         heap (set_root st_12_4 NULL) !! x = heap st_12_4 !! x.
Proof.
  apply (create_root_overwrites NULL st_12_4 T_12_4 (set_root st_12_4 NULL) NULL).
  - exact st_12_4_holds.
  - done.
  - reflexivity.
Defined.

(** ** The rebalancing does not read the keys *)

Lemma alike_bind {A B} (R : A → A → Prop) (Q : B → B → Prop)
  (m m' : result A) (f f' : A → result B) :
  alike R m m' → (∀ x y, R x y → alike Q (f x) (f' y)) →
  alike Q (m ≫= f) (m' ≫= f').
Proof. destruct m, m'; simpl; try done. intros H Hf. by apply Hf. Qed.

Lemma alike_eq {A} (m : result A) : alike eq m m.
Proof. by destruct m. Qed.

Lemma alike_load st st' p :
  same_but_keys st st' → alike same_links (load st p) (load st' p).
Proof.
  intros (_ & _ & H). destruct p as [a|]; simpl; [|done].
  by destruct (H a).
Qed.

Lemma alike_update st st' p f :
  same_but_keys st st' →
  (∀ n n', same_links n n' → same_links (f n) (f n')) →
  alike same_but_keys (update st p f) (update st' p f).
Proof.
  intros Hs Hf. unfold update. eapply alike_bind; [by apply alike_load|].
  intros n n' Hn. destruct p as [a|]; simpl; [|done].
  destruct Hs as (Ht & Hfr & Hh). split_and!; simpl; try done.
  intros x. destruct (decide (x = a)) as [->|].
  - rewrite !lookup_insert_eq. constructor. by apply Hf.
  - rewrite !lookup_insert_ne by done. apply Hh.
Qed.

Ltac respect :=
  intros [? ? ? ? ?] [? ? ? ? ?] (? & ? & ? & ?); simpl in *;
  repeat split; simpl; congruence.

Lemma alike_read_slot st st' s :
  same_but_keys st st' → alike eq (read_slot st s) (read_slot st' s).
Proof.
  intros Hs. destruct s; cbn [read_slot].
  - destruct Hs as (-> & _). done.
  - eapply alike_bind; [by apply alike_load|]. by intros n n' (? & _).
  - eapply alike_bind; [by apply alike_load|]. by intros n n' (_ & ? & _).
Qed.

Lemma alike_write_slot st st' s v :
  same_but_keys st st' →
  alike same_but_keys (write_slot st s v) (write_slot st' s v).
Proof.
  intros Hs. destruct s; cbn [write_slot].
  - destruct Hs as (_ & ? & ?). by split_and!.
  - apply alike_update; [done|respect].
  - apply alike_update; [done|respect].
Qed.

Lemma alike_Ok_bind {B} (Q : B → B → Prop) (st st' : state)
  (f f' : state → result B) :
  same_but_keys st st' →
  (∀ x y, same_but_keys x y → alike Q (f x) (f' y)) →
  alike Q (Ok st ≫= f) (Ok st' ≫= f').
Proof. intros Hs Hf. by apply Hf. Qed.

Ltac blind_step :=
  first
    [ progress cbv zeta beta iota
    | match goal with
      | |- alike _ (Ok _) (Ok _) => simpl; first [assumption | reflexivity]
      | |- alike _ AssertFail AssertFail => exact I
      | |- alike _ Fault Fault => exact I
      | |- alike _ OutOfFuel OutOfFuel => exact I
      end
    | eapply alike_bind;
        [ apply alike_load; eassumption
        | let Hl := fresh in let Hr := fresh in
          let Hp := fresh in let Hi := fresh in
          intros ? ? (Hl & Hr & Hp & Hi);
          rewrite <- ?Hl, <- ?Hr, <- ?Hp, <- ?Hi ]
    | eapply alike_bind; [ apply alike_read_slot; eassumption | intros ? ? <- ]
    | eapply alike_bind; [ apply alike_write_slot; eassumption | intros ? ? ? ]
    | eapply alike_bind;
        [ apply alike_update; [eassumption | respect] | intros ? ? ? ]
    | eapply alike_bind; [ apply alike_eq | intros ? ? <- ]
    | apply alike_Ok_bind; [ eassumption | intros ? ? ? ]
    | match goal with
      | |- alike _ (match ?x with _ => _ end ≫= _) _ => destruct x
      | |- alike _ (match ?x with _ => _ end) _ => destruct x
      end ].

Lemma alike_TREE_SIDEOF st st' p :
  same_but_keys st st' → alike eq (TREE_SIDEOF st p) (TREE_SIDEOF st' p).
Proof. intros Hs. unfold TREE_SIDEOF. repeat blind_step. Qed.

Lemma alike_TREE_PARENTPTR st st' p :
  same_but_keys st st' → alike eq (TREE_PARENTPTR st p) (TREE_PARENTPTR st' p).
Proof. intros Hs. unfold TREE_PARENTPTR. repeat blind_step. Qed.

Lemma alike_left_rotate s st st' :
  same_but_keys st st' →
  alike same_but_keys (tree_left_rotate s st) (tree_left_rotate s st').
Proof. intros Hs. unfold tree_left_rotate. repeat blind_step. Qed.

Lemma alike_right_rotate s st st' :
  same_but_keys st st' →
  alike same_but_keys (tree_right_rotate s st) (tree_right_rotate s st').
Proof. intros Hs. unfold tree_right_rotate. repeat blind_step. Qed.

Ltac blind_call :=
  first
    [ apply alike_left_rotate; eassumption
    | apply alike_right_rotate; eassumption
    | eapply alike_bind;
        [ first [apply alike_left_rotate | apply alike_right_rotate];
          eassumption
        | intros ? ? ? ]
    | blind_step ].

Lemma alike_rotate s st st' :
  same_but_keys st st' →
  alike same_but_keys (tree_rotate s st) (tree_rotate s st').
Proof. intros Hs. unfold tree_rotate. repeat blind_call. Qed.

Lemma alike_rebalance fuel : ∀ st st' p bf,
  same_but_keys st st' →
  alike same_but_keys (tree_rebalance fuel st p bf)
    (tree_rebalance fuel st' p bf).
Proof.
  induction fuel as [|fuel IH]; intros st st' p bf Hs; [done|].
  cbn [tree_rebalance].
  repeat first
    [ apply IH; eassumption
    | apply alike_rotate; eassumption
    | eapply alike_bind;
        [ first [apply alike_TREE_SIDEOF | apply alike_TREE_PARENTPTR];
          eassumption
        | intros ? ? <- ]
    | match goal with
      | |- alike _ ((_ ≫= _) ≫= _) _ =>
          eapply (alike_bind same_but_keys); [|intros ? ? ?]
      end
    | blind_step ].
Qed.

(** C10: [tree_insert_under] returns the address of the block that it
    allocated, wherever the rebalancing has moved the node.  The block has
    the key 0 when it is linked and when the function returns; the
    rebalancing in between does not read the keys: on a state that differs
    in keys only it ends the same way, in a state that differs in keys
    only.  The assignment at the end of [tree_put] then writes the key into
    this block, which keeps its links and imbalance, and changes no other
    block. *)
Theorem insert_under_returns_new fuel st key0 dest p a st1 r :
  tree_put_loop fuel st key0 RootSlot NULL = Ok (Some (dest, Some p)) →
  tree_insert_under fuel (Some a) st (Some p) (bool_decide (dest = RightSlot p))
  = Ok (st1, r) →
  r = Some a
  ∧ ∃ n, heap st1 !! a = Some n ∧ key n = 0
         ∧ tree_put fuel (Some a) st key0 = Ok (store st1 a (with_key key0 n))
         ∧ (∃ st' n',
              tree_put fuel (Some a) st key0 = Ok st'
              ∧ heap st' !! a = Some n' ∧ key n' = key0 ∧ same_links n n'
              ∧ ∀ x, x ≠ a → heap st' !! x = heap st1 !! x)
         ∧ ∃ st0 n0,
             tree_attach st (Some p) (bool_decide (dest = RightSlot p)) a
             = Ok st0
             ∧ heap st0 !! a = Some n0 ∧ key n0 = 0
             ∧ tree_rebalance fuel st0 (Some p)
                 (if bool_decide (dest = RightSlot p) then 1 else -1)
               = Ok st1
             ∧ ∀ st0' bf,
                 same_but_keys st0 st0' →
                 alike same_but_keys
                   (tree_rebalance fuel st0 (Some p) bf)
                   (tree_rebalance fuel st0' (Some p) bf).
Proof.
  intros Hl Hi. unfold tree_put. rewrite Hl. cbn [mbind result_bind].
  rewrite Hi. cbn [mbind result_bind].
  unfold tree_insert_under in Hi.
  destruct (tree_attach _ _ _ _) as [st0| | |] eqn:Hat; try done.
  cbn [mbind result_bind] in Hi.
  destruct (tree_rebalance _ _ _ _) as [st2| | |] eqn:Hrb; try done.
  injection Hi as <- <-. split; [done|].
  destruct (attach_key _ _ _ _ _ Hat) as (n0 & Hn0 & Hk0).
  destruct (keeps_rebalance _ _ _ _ _ Hrb _ _ Hn0) as (n & Hn & Hk).
  assert (Hu : update st2 (Some a) (with_key key0)
               = Ok (store st2 a (with_key key0 n))).
  { unfold update. by rewrite (load_Some _ _ _ Hn). }
  exists n. split_and!; [done|congruence|done| |].
  - exists (store st2 a (with_key key0 n)), (with_key key0 n).
    split_and!; [done|simpl; apply lookup_insert_eq|done|done|].
    intros x Hx. simpl. by rewrite lookup_insert_ne.
  - exists st0, n0. split_and!; try done.
    intros st0' bf Hs. by apply alike_rebalance.
Qed.

Lemma insert_under_returns_new_witness :
  Some 3%positive = Some 3%positive
  ∧ ∃ n, heap st_rotated !! 3%positive = Some n ∧ key n = 0
         ∧ tree_put 3 (Some 3%positive) st_12_4 5
           = Ok (store st_rotated 3 (with_key 5 n))
         ∧ (∃ st' n',
              tree_put 3 (Some 3%positive) st_12_4 5 = Ok st'
              ∧ heap st' !! 3%positive = Some n' ∧ key n' = 5
              ∧ same_links n n'
              ∧ ∀ x, x ≠ 3%positive → heap st' !! x = heap st_rotated !! x)
         ∧ ∃ st0 n0,
             tree_attach st_12_4 (Some 2%positive)
               (bool_decide (RightSlot 2 = RightSlot 2)) 3%positive
             = Ok st0
             ∧ heap st0 !! 3%positive = Some n0 ∧ key n0 = 0
             ∧ tree_rebalance 3 st0 (Some 2%positive)
                 (if bool_decide (RightSlot 2 = RightSlot 2) then 1 else -1)
               = Ok st_rotated
             ∧ ∀ st0' bf,
                 same_but_keys st0 st0' →
                 alike same_but_keys
                   (tree_rebalance 3 st0 (Some 2%positive) bf)
                   (tree_rebalance 3 st0' (Some 2%positive) bf).
Proof.
  apply (insert_under_returns_new 3 st_12_4 5 (RightSlot 2) 2%positive
           3%positive).
  - vm_compute. reflexivity.
  - vm_compute. reflexivity.
Defined.

(** ** The size of the tree *)




(** C8 fails on the code: the key 3 is not in the tree made by inserting 6,
    7, 2, 4, 1, which is a search tree with the balance invariant, and the
    allocation succeeds; the new block is linked as a leaf below the node
    of key 4, the rebalancing that starts there stops on an assertion, and
    with no amount of fuel does [tree_put] return a tree, so none with one
    node more. *)
Theorem tree_put_absent_aborts :
  holds st_avl T_avl ∧ bst T_avl ∧ avl T_avl
  ∧ (3 ∉ keys T_avl) ∧ heap st_avl !! 6%positive = None
  ∧ (∃ st1,
       tree_attach st_avl (Some 4%positive) false 6%positive = Ok st1
       ∧ heap st1 !! 6%positive = Some (mk_node NULL NULL (Some 4%positive) 0 0)
       ∧ tree_rebalance 4 st1 (Some 4%positive) (-1) = AssertFail)
  ∧ tree_put 4 (Some 6%positive) st_avl 3 = AssertFail
  ∧ ∀ fuel st', tree_put fuel (Some 6%positive) st_avl 3 ≠ Ok st'.
Proof.
  split_and!.
  - exact st_avl_holds.
  - exact T_avl_bst.
  - exact T_avl_avl.
  - apply (@bool_decide_unpack _ (not_dec _)). vm_compute. exact I.
  - vm_compute. reflexivity.
  - eexists. split_and!; [vm_compute; reflexivity|vm_compute; reflexivity|].
    vm_compute. reflexivity.
  - vm_compute. reflexivity.
  - intros fuel st'.
    destruct fuel as [|[|[|[|fuel]]]]; vm_compute; discriminate.
Qed.
